(** * pysndlib: a shallow embedding of the sound-synthesis core

    The module [pysndlib.py] generates and transforms two-channel sounds
    held in numpy arrays of shape [(n, 2)].  This development embeds the
    functions the properties below are about and proves those properties.

    Conventions of the embedding.
    - A Python float is a real number ([R]); the functions [sin], [cos],
      [sqrt] and [pi] of numpy are the ones of the real analysis library,
      and [10**x] is [Rpower 10 x].
    - A Python int is an integer ([Z]); [round] is Python 3's rounding of a
      float to the nearest int, ties going to the even neighbour.
    - A sound is the list of its rows, each row a pair (left, right), that
      is (column 0, column 1).
    - A call either returns a value or raises: [result]. *)

From Stdlib Require Import String Ascii.
From Stdlib Require Import Reals ZArith List Bool Lia Lra Permutation.
From Stdlib Require Import Psatz.
Import ListNotations.

Open Scope Z_scope.
Open Scope R_scope.

(** ** Exceptions and the result of a call *)

Inductive exn : Type :=
| TypeError (msg : string)
| NameError (name : string)
| ValueError (msg : string)
| IndexError (msg : string)
| OverflowError (msg : string)
| ZeroDivisionError.

Inductive result (A : Type) : Type :=
| Ok (a : A)
| Raise (e : exn).

Arguments Ok {A} a.
Arguments Raise {A} e.

Definition bind {A B : Type} (m : result A) (k : A -> result B) : result B :=
  match m with
  | Ok a => k a
  | Raise e => Raise e
  end.

Notation "x <- m ;; k" := (bind m (fun x => k))
  (at level 61, m at next level, right associativity).

(** ** Python numbers *)

(** [round(x)] for a float [x]: the nearest integer, a tie going to the
    even one. *)
Definition py_round (x : R) : Z :=
  let f := Int_part x in
  let d := frac_part x in
  if Rlt_dec d (1 / 2) then f
  else if Rlt_dec (1 / 2) d then (f + 1)%Z
  else if Z.even f then f else (f + 1)%Z.

(** [a ** b] on floats. *)
Definition py_pow (a b : R) : R := Rpower a b.

(** ** numpy arrays of one dimension *)

(** [arange(0, n)]: the floats 0, 1, ..., n-1; empty when [n <= 0]. *)
Definition arange (n : Z) : list R :=
  map INR (seq 0 (Z.to_nat n)).

(** [zeros(n)]: [n] zeros; a negative dimension is refused. *)
Definition zeros1 (n : Z) : result (list R) :=
  if (n <? 0)%Z then Raise (ValueError "negative dimensions are not allowed")
  else Ok (repeat 0 (Z.to_nat n)).

(** A slice bound [i] normalised against a length [n], as Python does it
    for a slice of step 1. *)
Definition norm_index (n i : Z) : Z :=
  if (i <? 0)%Z then Z.max 0 (i + n) else Z.min i n.

(** [a[lo:hi]]. *)
Definition slice {A : Type} (lo hi : Z) (a : list A) : list A :=
  let n := Z.of_nat (length a) in
  let lo' := norm_index n lo in
  let hi' := norm_index n hi in
  firstn (Z.to_nat (hi' - lo')) (skipn (Z.to_nat lo') a).

(** The binary operation [f] on two arrays, with numpy's broadcasting of
    an array of one element. *)
Definition bcast2 (f : R -> R -> R) (a b : list R) : result (list R) :=
  if Nat.eqb (length a) (length b) then Ok (map (fun p => f (fst p) (snd p)) (combine a b))
  else match a, b with
       | [x], _ => Ok (map (fun y => f x y) b)
       | _, [y] => Ok (map (fun x => f x y) a)
       | _, _ => Raise (ValueError "operands could not be broadcast together")
       end.

(** [a[lo:hi] = v]: the slice is overwritten by [v], which has the length
    of the slice or one element. *)
Definition setslice (lo hi : Z) (v : list R) (a : list R) : result (list R) :=
  let n := Z.of_nat (length a) in
  let lo' := norm_index n lo in
  let hi' := norm_index n hi in
  let m := Z.to_nat (hi' - lo') in
  if Nat.eqb (length v) m then
    Ok (firstn (Z.to_nat lo') a ++ v ++ skipn (Z.to_nat lo' + m) a)
  else match v with
       | [x] => Ok (firstn (Z.to_nat lo') a ++ repeat x m ++ skipn (Z.to_nat lo' + m) a)
       | _ => Raise (ValueError "could not broadcast input array")
       end.

(** ** Sounds: arrays of shape (n, 2) *)

Definition Signal : Type := list (R * R).

(** [len(sig[:, 0])], the number of rows. *)
Definition nrows (sig : Signal) : Z := Z.of_nat (length sig).

(** [sig[:, 0]] and [sig[:, 1]]. *)
Definition col0 (sig : Signal) : list R := map fst sig.
Definition col1 (sig : Signal) : list R := map snd sig.

(** [zeros((n, 2))]. *)
Definition zeros (n : Z) : result Signal :=
  if (n <? 0)%Z then Raise (ValueError "negative dimensions are not allowed")
  else Ok (repeat (0, 0) (Z.to_nat n)).

(** [sig[lo:hi, 0] = v] and [sig[lo:hi, 1] = v]. *)
Definition setcol0 (lo hi : Z) (v : list R) (sig : Signal) : result Signal :=
  c <- setslice lo hi v (col0 sig) ;; Ok (combine c (col1 sig)).

Definition setcol1 (lo hi : Z) (v : list R) (sig : Signal) : result Signal :=
  c <- setslice lo hi v (col1 sig) ;; Ok (combine (col0 sig) c).

(** [concatenate((a, b), axis=0)]. *)
Definition concatenate (a b : Signal) : Signal := a ++ b.

(** [a + b] on sounds of the same number of rows. *)
Definition addSig (a b : Signal) : result Signal :=
  if Nat.eqb (length a) (length b)
  then Ok (map (fun p => (fst (fst p) + fst (snd p), snd (fst p) + snd (snd p))) (combine a b))
  else match a, b with
       | [x], _ => Ok (map (fun y => (fst x + fst y, snd x + snd y)) b)
       | _, [y] => Ok (map (fun x => (fst x + fst y, snd x + snd y)) a)
       | _, _ => Raise (ValueError "operands could not be broadcast together")
       end.

(** [k * a] and [a / k] for a float [k] and an array [a]. *)
Definition smul (k : R) (a : list R) : list R := map (fun x => k * x) a.
Definition sdiv (a : list R) (k : R) : list R := map (fun x => x / k) a.

(** ** Generators *)

(** [channel in ["Right", "Left", "Both"]]. *)
Definition channel_ok (channel : string) : bool :=
  existsb (String.eqb channel) ["Right"; "Left"; "Both"]%string.

(** The three assignments every generator makes to one column: the onset
    ramp on [0:nRamp], the steady part on [nRamp:nRamp+nSamples], and the
    offset ramp on [nRamp+nSamples:len(timeAll)].  [setcol] is the column
    written, [seg lo hi] the carrier on the samples [lo:hi]. *)
Definition ramped (setcol : Z -> Z -> list R -> Signal -> result Signal)
    (amp : R) (nRamp nSamples nAll : Z) (timeRamp : list R)
    (seg : Z -> Z -> list R) (snd : Signal) : result Signal :=
  v1 <- bcast2 Rmult
          (map (fun t => amp * ((1 - cos (PI * t / IZR nRamp)) / 2)) timeRamp)
          (seg 0%Z nRamp) ;;
  snd <- setcol 0%Z nRamp v1 snd ;;
  snd <- setcol nRamp (nRamp + nSamples)%Z
           (smul amp (seg nRamp (nRamp + nSamples)%Z)) snd ;;
  v3 <- bcast2 Rmult
          (map (fun t => amp * ((1 + cos (PI * t / IZR nRamp)) / 2)) timeRamp)
          (seg (nRamp + nSamples)%Z nAll) ;;
  setcol (nRamp + nSamples)%Z nAll v3 snd.

(** [snd[:, 1] = snd[:, 0]]. *)
Definition copy0to1 (snd : Signal) : Signal := combine (col0 snd) (col0 snd).

Definition pureTone (frequency phase level duration ramp : R) (channel : string)
    (fs maxLevel : R) : result Signal :=
  if negb (channel_ok channel) then
    Raise (TypeError "Invalid channel argument. Channel must be one of 'Right', 'Left' or 'Both'")
  else
    let amp := py_pow 10 ((level - maxLevel) / 20) in
    let duration := duration / 1000 in
    let ramp := ramp / 1000 in
    let nSamples := py_round (duration * fs) in
    let nRamp := py_round (ramp * fs) in
    let nTot := (nSamples + nRamp * 2)%Z in
    let timeAll := sdiv (arange nTot) fs in
    let timeRamp := arange nRamp in
    let nAll := Z.of_nat (length timeAll) in
    let seg lo hi :=
      map (fun t => sin (2 * PI * frequency * t + phase)) (slice lo hi timeAll) in
    snd <- zeros nTot ;;
    if String.eqb channel "Right" then
      ramped setcol1 amp nRamp nSamples nAll timeRamp seg snd
    else if String.eqb channel "Left" then
      ramped setcol0 amp nRamp nSamples nAll timeRamp seg snd
    else if String.eqb channel "Both" then
      snd <- ramped setcol0 amp nRamp nSamples nAll timeRamp seg snd ;;
      Ok (copy0to1 snd)
    else Ok snd.

(** The assignments of [AMTone] to one column: as [ramped], with the
    modulator [1 + AMDepth*sin(2*pi*AMFreq*t)] as one more factor. *)
Definition rampedAM (setcol : Z -> Z -> list R -> Signal -> result Signal)
    (amp AMDepth AMFreq : R) (nRamp nSamples nAll : Z) (timeRamp timeAll : list R)
    (seg : Z -> Z -> list R) (snd : Signal) : result Signal :=
  let modu lo hi :=
    map (fun t => amp * (1 + AMDepth * sin (2 * PI * AMFreq * t))) (slice lo hi timeAll) in
  e1 <- bcast2 Rmult (modu 0%Z nRamp)
          (map (fun t => (1 - cos (PI * t / IZR nRamp)) / 2) timeRamp) ;;
  v1 <- bcast2 Rmult e1 (seg 0%Z nRamp) ;;
  snd <- setcol 0%Z nRamp v1 snd ;;
  v2 <- bcast2 Rmult (modu nRamp (nRamp + nSamples)%Z) (seg nRamp (nRamp + nSamples)%Z) ;;
  snd <- setcol nRamp (nRamp + nSamples)%Z v2 snd ;;
  e3 <- bcast2 Rmult (modu (nRamp + nSamples)%Z nAll)
          (map (fun t => (1 + cos (PI * t / IZR nRamp)) / 2) timeRamp) ;;
  v3 <- bcast2 Rmult e3 (seg (nRamp + nSamples)%Z nAll) ;;
  setcol (nRamp + nSamples)%Z nAll v3 snd.

Definition AMTone (frequency AMFreq AMDepth phase level duration ramp : R)
    (channel : string) (fs maxLevel : R) : result Signal :=
  let amp := py_pow 10 ((level - maxLevel) / 20) in
  let duration := duration / 1000 in
  let ramp := ramp / 1000 in
  let nSamples := py_round (duration * fs) in
  let nRamp := py_round (ramp * fs) in
  let nTot := (nSamples + nRamp * 2)%Z in
  let timeAll := sdiv (arange nTot) fs in
  let timeRamp := arange nRamp in
  let nAll := Z.of_nat (length timeAll) in
  let seg lo hi :=
    map (fun t => sin (2 * PI * frequency * t + phase)) (slice lo hi timeAll) in
  snd <- zeros nTot ;;
  if String.eqb channel "Right" then
    rampedAM setcol1 amp AMDepth AMFreq nRamp nSamples nAll timeRamp timeAll seg snd
  else if String.eqb channel "Left" then
    rampedAM setcol0 amp AMDepth AMFreq nRamp nSamples nAll timeRamp timeAll seg snd
  else if String.eqb channel "Both" then
    snd <- rampedAM setcol0 amp AMDepth AMFreq nRamp nSamples nAll timeRamp timeAll seg snd ;;
    Ok (copy0to1 snd)
  else Ok snd.

(** The name [fctimeAll], read in the first assignment of each branch of
    [FMTone], is bound neither in the function nor in the module: reading
    it raises. *)
Definition fctimeAll : result (list R) := Raise (NameError "fctimeAll").

(** The assignments of [FMTone] to one column.  The onset ramp is computed
    first; its carrier reads [fctimeAll[0:nRamp]]. *)
Definition rampedFM (setcol : Z -> Z -> list R -> Signal -> result Signal)
    (amp fc fm mi phase : R) (nRamp nSamples nAll : Z) (timeRamp timeAll : list R)
    (snd : Signal) : result Signal :=
  let modu lo hi :=
    map (fun t => mi * sin (2 * PI * fm * t + phase)) (slice lo hi timeAll) in
  let seg lo hi :=
    map (fun t => sin (2 * PI * fc * t + mi * sin (2 * PI * fm * t + phase)))
        (slice lo hi timeAll) in
  let w1 := map (fun t => amp * ((1 - cos (PI * t / IZR nRamp)) / 2)) timeRamp in
  a <- fctimeAll ;;
  c1 <- bcast2 Rplus (smul (2 * PI) (slice 0%Z nRamp a)) (modu 0%Z nRamp) ;;
  v1 <- bcast2 Rmult w1 (map sin c1) ;;
  snd <- setcol 0%Z nRamp v1 snd ;;
  snd <- setcol nRamp (nRamp + nSamples)%Z
           (smul amp (seg nRamp (nRamp + nSamples)%Z)) snd ;;
  v3 <- bcast2 Rmult
          (map (fun t => amp * ((1 + cos (PI * t / IZR nRamp)) / 2)) timeRamp)
          (seg (nRamp + nSamples)%Z nAll) ;;
  setcol (nRamp + nSamples)%Z nAll v3 snd.

Definition FMTone (fc fm mi phase level duration ramp : R) (channel : string)
    (fs maxLevel : R) : result Signal :=
  let amp := py_pow 10 ((level - maxLevel) / 20) in
  let duration := duration / 1000 in
  let ramp := ramp / 1000 in
  let nSamples := py_round (duration * fs) in
  let nRamp := py_round (ramp * fs) in
  let nTot := (nSamples + nRamp * 2)%Z in
  let timeAll := sdiv (arange nTot) fs in
  let timeRamp := arange nRamp in
  let nAll := Z.of_nat (length timeAll) in
  snd <- zeros nTot ;;
  if String.eqb channel "Right" then
    rampedFM setcol1 amp fc fm mi phase nRamp nSamples nAll timeRamp timeAll snd
  else if String.eqb channel "Left" then
    rampedFM setcol0 amp fc fm mi phase nRamp nSamples nAll timeRamp timeAll snd
  else if String.eqb channel "Both" then
    snd <- rampedFM setcol0 amp fc fm mi phase nRamp nSamples nAll timeRamp timeAll snd ;;
    Ok (copy0to1 snd)
  else Ok snd.

(** [range(lo, hi)]. *)
Definition zrange (lo hi : Z) : list Z :=
  map (fun k => (lo + Z.of_nat k)%Z) (seq 0 (Z.to_nat (hi - lo))).

(** [i % 2 > 0]. *)
Definition is_odd (i : Z) : bool := (i mod 2 >? 0)%Z.

Definition chan_single (channel : string) : bool :=
  String.eqb channel "Right" || String.eqb channel "Left" || String.eqb channel "Both".

Definition chan_odd (channel : string) : bool :=
  String.eqb channel "Odd Left" || String.eqb channel "Odd Right".

(** The partial added for harmonic [i] by the loop of [complexTone] that
    [harmPhase] selects; [rand i] is the number drawn from the random
    source in the iteration of harmonic [i].  A [harmPhase] outside the
    five runs no loop. *)
Definition partialOf (rand : Z -> R) (harmPhase : string) (F0 stretchHz : R)
    (highHarm : Z) (timeAll : list R) (i : Z) : option (result (list R)) :=
  let w := 2 * PI * ((F0 * IZR i) + stretchHz) in
  if String.eqb harmPhase "Sine" then
    Some (Ok (map (fun t => sin (w * t)) timeAll))
  else if String.eqb harmPhase "Cosine" then
    Some (Ok (map (fun t => cos (w * t)) timeAll))
  else if String.eqb harmPhase "Alternating" then
    if is_odd i then Some (Ok (map (fun t => cos (w * t)) timeAll))
    else Some (Ok (map (fun t => sin (w * t)) timeAll))
  else if String.eqb harmPhase "Schroeder" then
    if (highHarm =? 0)%Z then Some (Raise ZeroDivisionError)
    else
      let phase := - PI * IZR i * IZR (i - 1) / IZR highHarm in
      Some (Ok (map (fun t => sin (w * t + phase)) timeAll))
  else if String.eqb harmPhase "Random" then
    let phase := rand i * 2 * PI in
    Some (Ok (map (fun t => sin (w * t + phase)) timeAll))
  else None.

(** The accumulators [tone], [toneOdd] and [toneEven] of [complexTone]. *)
Record tones : Type := mkTones {
  tone : list R;
  toneOdd : list R;
  toneEven : list R
}.

(** One iteration of the loop over the harmonics: the partial goes to
    [tone] for a single-channel selector, and to [toneOdd] or [toneEven]
    by the parity of [i] for "Odd Left" and "Odd Right". *)
Definition harmStep (rand : Z -> R) (harmPhase channel : string) (F0 stretchHz : R)
    (highHarm : Z) (timeAll : list R) (acc : result tones) (i : Z) : result tones :=
  st <- acc ;;
  match partialOf rand harmPhase F0 stretchHz highHarm timeAll i with
  | None => Ok st
  | Some p =>
      p <- p ;;
      if chan_single channel then
        t <- bcast2 Rplus (tone st) p ;; Ok (mkTones t (toneOdd st) (toneEven st))
      else if chan_odd channel then
        if is_odd i then
          t <- bcast2 Rplus (toneOdd st) p ;; Ok (mkTones (tone st) t (toneEven st))
        else
          t <- bcast2 Rplus (toneEven st) p ;; Ok (mkTones (tone st) (toneOdd st) t)
      else Ok st
  end.

Definition complexTone (rand : Z -> R) (F0 : R) (harmPhase : string)
    (lowHarm highHarm : Z) (stretch level duration ramp : R) (channel : string)
    (fs maxLevel : R) : result Signal :=
  let amp := py_pow 10 ((level - maxLevel) / 20) in
  let duration := duration / 1000 in
  let ramp := ramp / 1000 in
  let stretchHz := (F0 * stretch) / 100 in
  let nSamples := py_round (duration * fs) in
  let nRamp := py_round (ramp * fs) in
  let nTot := (nSamples + nRamp * 2)%Z in
  let timeAll := sdiv (arange nTot) fs in
  let timeRamp := arange nRamp in
  let nAll := Z.of_nat (length timeAll) in
  snd <- zeros nTot ;;
  z <- zeros1 nTot ;;
  st <- fold_left (harmStep rand harmPhase channel F0 stretchHz highHarm timeAll)
          (zrange lowHarm (highHarm + 1)) (Ok (mkTones z z z)) ;;
  let put setcol (t : list R) snd :=
    ramped setcol amp nRamp nSamples nAll timeRamp (fun lo hi => slice lo hi t) snd in
  if String.eqb channel "Right" then put setcol1 (tone st) snd
  else if String.eqb channel "Left" then put setcol0 (tone st) snd
  else if String.eqb channel "Both" then
    snd <- put setcol0 (tone st) snd ;; Ok (copy0to1 snd)
  else if String.eqb channel "Odd Left" then
    snd <- put setcol0 (toneOdd st) snd ;; put setcol1 (toneEven st) snd
  else if String.eqb channel "Odd Right" then
    snd <- put setcol1 (toneOdd st) snd ;; put setcol0 (toneEven st) snd
  else Ok snd.

(** [thisChan] after the channel selection of [complexToneParallel] for
    harmonic [i]; [None] when no branch binds it. *)
Definition thisChanOf (channel : string) (i : Z) : option string :=
  if chan_single channel then Some channel
  else if chan_odd channel then
    if is_odd i then
      if String.eqb channel "Odd Left" then Some "Left"%string
      else if String.eqb channel "Odd Right" then Some "Right"%string
      else None
    else
      if String.eqb channel "Odd Left" then Some "Right"%string
      else if String.eqb channel "Odd Right" then Some "Left"%string
      else None
  else None.

(** [thisPhase] after the phase selection for harmonic [i]. *)
Definition thisPhaseOf (rand : Z -> R) (harmPhase : string) (highHarm i : Z)
    : result R :=
  if String.eqb harmPhase "Sine" then Ok 0
  else if String.eqb harmPhase "Cosine" then Ok (PI / 2)
  else if String.eqb harmPhase "Alternating" then
    if is_odd i then Ok 0 else Ok (PI / 2)
  else if String.eqb harmPhase "Schroeder" then
    if (highHarm =? 0)%Z then Raise ZeroDivisionError
    else Ok (- PI * IZR i * IZR (i - 1) / IZR highHarm)
  else if String.eqb harmPhase "Random" then Ok (rand i * 2 * PI)
  else Raise (NameError "thisPhase").

(** One iteration of the loop that submits the partials to the pool: the
    list [tn] receives the sound a task returns; a task that raises calls
    no callback. *)
Definition submitStep (rand : Z -> R) (harmPhase channel : string)
    (F0 stretchHz level duration ramp fs maxLevel : R) (highHarm : Z)
    (acc : result (list Signal)) (i : Z) : result (list Signal) :=
  tn <- acc ;;
  thisPhase <- thisPhaseOf rand harmPhase highHarm i ;;
  match thisChanOf channel i with
  | None => Raise (NameError "thisChan")
  | Some thisChan =>
      match pureTone (F0 * IZR i + stretchHz) thisPhase level duration ramp
                     thisChan fs maxLevel with
      | Ok t => Ok (tn ++ [t])
      | Raise _ => Ok tn
      end
  end.

Definition complexToneParallel (rand : Z -> R) (F0 : R) (harmPhase : string)
    (lowHarm highHarm : Z) (stretch level duration ramp : R) (channel : string)
    (fs maxLevel : R) : result Signal :=
  let durationSec := duration / 1000 in
  let rampSec := ramp / 1000 in
  let stretchHz := (F0 * stretch) / 100 in
  let nSamples := py_round (durationSec * fs) in
  let nRamp := py_round (rampSec * fs) in
  let nTot := (nSamples + nRamp * 2)%Z in
  snd <- zeros nTot ;;
  tn <- fold_left (submitStep rand harmPhase channel F0 stretchHz level duration ramp
                     fs maxLevel highHarm)
          (zrange lowHarm (highHarm + 1)) (Ok []) ;;
  fold_left (fun acc t => snd <- acc ;; addSig snd t) tn (Ok snd).

(** ** Utilities *)

Definition makeSilence (duration fs : R) : result Signal :=
  let duration := duration / 1000 in
  let nSamples := py_round (duration * fs) in
  zeros nSamples.

(** [sig * sig], entry by entry. *)
Definition sqSig (sig : Signal) : Signal :=
  map (fun p => (fst p * fst p, snd p * snd p)) sig.

(** [sum] and [mean] over every entry of an array of shape (n, 2). *)
Definition sumAll (a : Signal) : R :=
  fold_right (fun p acc => fst p + snd p + acc) 0 a.

Definition meanAll (a : Signal) : R :=
  sumAll a / INR (2 * length a).

Definition getRms (sig : Signal) : R := sqrt (meanAll (sqSig sig)).

(** [sum] and [mean] of an array of one dimension. *)
Definition sum1 (a : list R) : R := fold_right Rplus 0 a.
Definition mean1 (a : list R) : R := sum1 a / INR (length a).

(** ** Compositors *)

Definition addSounds (snd1 snd2 : Signal) (delay fs : R) : result Signal :=
  let delay := delay / 1000 in
  let nSnd1 := Z.of_nat (length (col1 snd1)) in
  let nSnd2 := Z.of_nat (length (col1 snd2)) in
  if Req_dec_T fs 0 then Raise ZeroDivisionError else
  let snd1Duration := IZR nSnd1 / fs in
  let snd2Duration := IZR nSnd2 / fs in
  let nSampSeg1 := py_round (delay * fs) in
  if (nSampSeg1 <? nSnd1)%Z then
    let nSampSeg2 := (nSnd1 - nSampSeg1)%Z in
    let nSampSeg3 := (nSnd2 - nSampSeg2)%Z in
    let seg1 := slice 0%Z nSampSeg1 snd1 in
    let seg2a := slice nSampSeg1 nSnd1 snd1 in
    seg2b <- (if (nSampSeg2 >? nSnd2)%Z then
                let ldiff := (nSampSeg2 - nSnd2)%Z in
                diffSeg <- zeros ldiff ;;
                Ok (concatenate snd2 diffSeg)
              else Ok (slice 0%Z nSampSeg2 snd2)) ;;
    let seg3 := slice nSampSeg2 nSnd2 snd2 in
    seg2 <- addSig seg2a seg2b ;;
    let snd := concatenate seg1 seg2 in
    if (nSampSeg2 <? nSnd2)%Z then Ok (concatenate snd seg3) else Ok snd
  else
    let seg1 := snd1 in
    seg2 <- makeSilence ((delay - snd1Duration) * 1000) fs ;;
    let seg3 := snd2 in
    let snd := concatenate seg1 seg2 in
    Ok (concatenate snd seg3).

(** ** Transforms *)

(** [ones(n)]. *)
Definition ones (n : Z) : result (list R) :=
  if (n <? 0)%Z then Raise (ValueError "negative dimensions are not allowed")
  else Ok (repeat 1 (Z.to_nat n)).

Definition imposeLevelGlide (sig : Signal) (deltaL startTime endTime : R)
    (channel : string) (fs : R) : result Signal :=
  if Req_dec_T deltaL 0 then Ok sig
  else
    let startTime := startTime / 1000 in
    let endTime := endTime / 1000 in
    let startAmp := 1 in
    let endAmp := py_pow 10 (deltaL / 20) in
    let nSamples := Z.of_nat (length (col0 sig)) in
    let startPnt := py_round (startTime * fs) in
    let endPnt := py_round (endTime * fs) in
    let nRamp := (endPnt - startPnt)%Z in
    let timeRamp := arange nRamp in
    if Req_dec_T (startAmp - endAmp) 0 then Raise ZeroDivisionError else
    let x := (startAmp + endAmp) / (startAmp - endAmp) in
    let y := 2 / (startAmp - endAmp) in
    let ramp := map (fun t => (x + cos (PI * t / IZR nRamp)) / y) timeRamp in
    ampArray <- ones nSamples ;;
    ampArray <- setslice startPnt endPnt ramp ampArray ;;
    let nAmp := Z.of_nat (length ampArray) in
    ampArray <- setslice endPnt nAmp
                  (repeat endAmp (length (slice endPnt nAmp ampArray))) ampArray ;;
    snd <- zeros nSamples ;;
    if String.eqb channel "Right" then
      v <- bcast2 Rmult (col1 sig) ampArray ;;
      setcol1 0%Z (nrows snd) v snd
    else if String.eqb channel "Left" then
      v <- bcast2 Rmult (col0 sig) ampArray ;;
      setcol0 0%Z (nrows snd) v snd
    else if String.eqb channel "Both" then
      v <- bcast2 Rmult (col1 sig) ampArray ;;
      snd <- setcol1 0%Z (nrows snd) v snd ;;
      v <- bcast2 Rmult (col0 sig) ampArray ;;
      setcol0 0%Z (nrows snd) v snd
    else Ok snd.

Definition gate (ramps : R) (sig : Signal) (fs : R) : result Signal :=
  let ramps := ramps / 1000 in
  let nRamp := py_round (ramps * fs) in
  let timeRamp := arange nRamp in
  let nTot := Z.of_nat (length (col1 sig)) in
  let nStartSecondRamp := (nTot - nRamp)%Z in
  let up := map (fun t => (1 - cos (PI * t / IZR nRamp)) / 2) timeRamp in
  let down := map (fun t => (1 + cos (PI * t / IZR nRamp)) / 2) timeRamp in
  v <- bcast2 Rmult (slice 0%Z nRamp (col0 sig)) up ;;
  sig <- setcol0 0%Z nRamp v sig ;;
  v <- bcast2 Rmult (slice 0%Z nRamp (col1 sig)) up ;;
  sig <- setcol1 0%Z nRamp v sig ;;
  v <- bcast2 Rmult (slice nStartSecondRamp nTot (col0 sig)) down ;;
  sig <- setcol0 nStartSecondRamp nTot v sig ;;
  v <- bcast2 Rmult (slice nStartSecondRamp nTot (col1 sig)) down ;;
  setcol1 nStartSecondRamp nTot v sig.

(** ** Complex arrays and the discrete Fourier transform *)

Definition C : Type := (R * R)%type.

Definition cadd (a b : C) : C := (fst a + fst b, snd a + snd b).
Definition cmul (a b : C) : C :=
  (fst a * fst b - snd a * snd b, fst a * snd b + snd a * fst b).
Definition cabs (a : C) : R := sqrt (fst a * fst a + snd a * snd a).
Definition csum (l : list C) : C := fold_right cadd (0, 0) l.

(** [cos(t) + 1j*sin(t)]. *)
Definition cis (t : R) : C := (cos t, sin t).

(** [fft(a, n)]: the transform of the real array [a], cut or padded with
    zeros to [n] points. *)
Definition fft (a : list R) (n : Z) : list C :=
  let n' := Z.to_nat n in
  let x := firstn n' (a ++ repeat 0 (n' - length a)) in
  map (fun k =>
         csum (map (fun m => cmul (nth m x 0, 0)
                               (cis (- (2 * PI * INR k * INR m / INR n'))))
                   (seq 0 n')))
      (seq 0 n').

(** [ifft(x)]. *)
Definition ifft (x : list C) : list C :=
  let n' := length x in
  map (fun m =>
         let s := csum (map (fun k => cmul (nth k x (0, 0))
                                        (cis (2 * PI * INR k * INR m / INR n')))
                            (seq 0 n')) in
         (fst s / INR n', snd s / INR n'))
      (seq 0 n').

(** [x[p]] for an integer [p], which counts from the end when negative. *)
Definition getidx {A : Type} (x : list A) (p : Z) : result A :=
  let n := Z.of_nat (length x) in
  let q := if (p <? 0)%Z then (p + n)%Z else p in
  if ((0 <=? q)%Z && (q <? n)%Z)%bool then
    match nth_error x (Z.to_nat q) with
    | Some v => Ok v
    | None => Raise (IndexError "index out of bounds")
    end
  else Raise (IndexError "index out of bounds").

(** [x[pnts]] for an array of indices. *)
Fixpoint getidxs {A : Type} (x : list A) (pnts : list Z) : result (list A) :=
  match pnts with
  | [] => Ok []
  | p :: ps => v <- getidx x p ;; vs <- getidxs x ps ;; Ok (v :: vs)
  end.

Fixpoint replace_nth {A : Type} (k : nat) (v : A) (x : list A) : list A :=
  match x, k with
  | [], _ => []
  | _ :: t, O => v :: t
  | h :: t, S k' => h :: replace_nth k' v t
  end.

(** [x[p] = v]. *)
Definition setidx {A : Type} (x : list A) (p : Z) (v : A) : result (list A) :=
  let n := Z.of_nat (length x) in
  let q := if (p <? 0)%Z then (p + n)%Z else p in
  if ((0 <=? q)%Z && (q <? n)%Z)%bool then Ok (replace_nth (Z.to_nat q) v x)
  else Raise (IndexError "index out of bounds").

(** [x[pnts] = vals], [vals] having one value for each index. *)
Fixpoint setidxs {A : Type} (x : list A) (pnts : list Z) (vals : list A)
    : result (list A) :=
  match pnts, vals with
  | [], [] => Ok x
  | p :: ps, v :: vs => x' <- setidx x p v ;; setidxs x' ps vs
  | _, _ => Raise (ValueError "shape mismatch")
  end.

(** [angle(p)] for an integer [p]. *)
Definition angle_int (p : Z) : R := if (p <? 0)%Z then PI else 0.

(** [nextpow2(x)], that is [int(ceil(log2(x)))]. *)
Definition nextpow2 (x : Z) : result Z :=
  if (x =? 0)%Z then Raise (OverflowError "cannot convert float infinity to integer")
  else if (x <? 0)%Z then Raise (ValueError "cannot convert float NaN to integer")
  else Ok (Z.log2_up x).

(** The statements [phaseShift] runs on one column [c]: transform, set the
    points [start1..end1] and then the points [end2..start2], transform
    back and keep the first [nSamples] real parts. *)
Definition shiftColumn (c : list R) (fftPoints start1 end1 start2 end2 nSamples : Z)
    (phase_shift : R) : result (list R) :=
  let x := fft c fftPoints in
  let pnts := zrange start1 (end1 + 1) in
  v <- getidxs x pnts ;;
  let mag := map cabs v in
  let newPhase := map (fun p => angle_int p + phase_shift) pnts in
  w <- bcast2 Rmult mag (map cos newPhase) ;;
  w' <- bcast2 Rmult mag (map sin newPhase) ;;
  x <- setidxs x pnts (combine w w') ;;
  let pnts := zrange end2 (start2 + 1) in
  v <- getidxs x pnts ;;
  let mag := map cabs v in
  let newPhase := map (fun p => angle_int p - phase_shift) pnts in
  w <- bcast2 Rmult mag (map cos newPhase) ;;
  w' <- bcast2 Rmult mag (map sin newPhase) ;;
  x <- setidxs x pnts (combine w w') ;;
  let x := map fst (ifft x) in
  getidxs x (zrange 0 nSamples).

Definition phaseShift (sig : Signal) (f1 f2 phase_shift : R) (channel : string)
    (fs : R) : result Signal :=
  let nSamples := Z.of_nat (length (col0 sig)) in
  p <- nextpow2 nSamples ;;
  let fftPoints := (2 ^ p)%Z in
  if Req_dec_T fs 0 then Raise ZeroDivisionError else
  let start1 := py_round (f1 * IZR fftPoints / fs) in
  let end1 := py_round (f2 * IZR fftPoints / fs) in
  let start2 := (fftPoints - start1)%Z in
  let end2 := (fftPoints - end1)%Z in
  snd <- zeros nSamples ;;
  let shifted c := shiftColumn c fftPoints start1 end1 start2 end2 nSamples phase_shift in
  if String.eqb channel "Left" then
    x <- shifted (col0 sig) ;;
    snd <- setcol0 0%Z (nrows snd) x snd ;;
    setcol1 0%Z (nrows snd) (col1 sig) snd
  else if String.eqb channel "Right" then
    x <- shifted (col1 sig) ;;
    snd <- setcol1 0%Z (nrows snd) x snd ;;
    setcol0 0%Z (nrows snd) (col0 sig) snd
  else if String.eqb channel "Both" then
    x <- shifted (col0 sig) ;;
    snd <- setcol0 0%Z (nrows snd) x snd ;;
    x <- shifted (col1 sig) ;;
    setcol1 0%Z (nrows snd) x snd
  else Ok snd.

(** The loop of [makeHuggins] over the harmonics; [ps] is the transform
    applied to the bands, [phaseShift] in [makeHuggins]. *)
Definition hugginsStep (ps : Signal -> R -> R -> R -> string -> R -> result Signal)
    (F0 bandwidth fs : R) (phaseRelationship : string) (lowHarm highHarm : Z)
    (acc : result Signal) (i : Z) : result Signal :=
  tone <- acc ;;
  if String.eqb phaseRelationship "NoSpi" then
    ps tone (IZR i * F0 - bandwidth / 2) (IZR i * F0 + bandwidth / 2) PI "Left"%string fs
  else if String.eqb phaseRelationship "NpiSo" then
    if (i =? lowHarm)%Z then
      ps tone 10 (IZR i * F0 - bandwidth / 2) PI "Left"%string fs
    else if (i =? highHarm + 1)%Z then
      tone <- ps tone (IZR (i - 1) * F0 + bandwidth / 2) (IZR i * F0 - bandwidth / 2)
                PI "Left"%string fs ;;
      ps tone (IZR i * F0 + bandwidth / 2) (fs / 2) PI "Left"%string fs
    else
      ps tone (IZR (i - 1) * F0 + bandwidth / 2) (IZR i * F0 - bandwidth / 2)
         PI "Left"%string fs
  else Ok tone.

Definition hugginsLoop (ps : Signal -> R -> R -> R -> string -> R -> result Signal)
    (F0 bandwidth fs : R) (phaseRelationship : string) (lowHarm highHarm : Z)
    (tone : Signal) : result Signal :=
  fold_left (hugginsStep ps F0 bandwidth fs phaseRelationship lowHarm highHarm)
            (zrange lowHarm (highHarm + 1)) (Ok tone).

(** [makeHuggins] from the noise on: [tone] is the sound returned by
    [broadbandNoise] (made pink when [noiseType] asks for it). *)
Definition makeHuggins (tone : Signal) (F0 : R) (lowHarm highHarm : Z)
    (bandwidth : R) (phaseRelationship : string) (ramp fs : R) : result Signal :=
  tone <- hugginsLoop phaseShift F0 bandwidth fs phaseRelationship lowHarm highHarm tone ;;
  gate ramp tone fs.

(** The amplitude array [ampArray] that [imposeLevelGlide] builds before
    it looks at the channel, from the two end points of the transition. *)
Definition glideAmps (sig : Signal) (deltaL : R) (startPnt endPnt : Z)
    : result (list R) :=
  let endAmp := py_pow 10 (deltaL / 20) in
  let x := (1 + endAmp) / (1 - endAmp) in
  let y := 2 / (1 - endAmp) in
  let ramp := map (fun t => (x + cos (PI * t / IZR (endPnt - startPnt)%Z)) / y)
                  (arange (endPnt - startPnt)%Z) in
  ampArray <- ones (Z.of_nat (length (col0 sig))) ;;
  ampArray <- setslice startPnt endPnt ramp ampArray ;;
  setslice endPnt (Z.of_nat (length ampArray))
    (repeat endAmp (length (slice endPnt (Z.of_nat (length ampArray)) ampArray)))
    ampArray.

(** The bands the "NpiSo" loop of [makeHuggins] is expected to shift: from
    10 Hz up to the lowest band, and between each band and the next. *)
Definition npisoBands (F0 bandwidth : R) (lowHarm highHarm : Z) : list (R * R) :=
  map (fun i => if (i =? lowHarm)%Z
                then (10, IZR i * F0 - bandwidth / 2)
                else (IZR (i - 1) * F0 + bandwidth / 2, IZR i * F0 - bandwidth / 2))
      (zrange lowHarm (highHarm + 1)).

(** [ps] applied to the left channel by pi on each band in turn. *)
Definition applyBands (ps : Signal -> R -> R -> R -> string -> R -> result Signal)
    (fs : R) (bands : list (R * R)) (tone : Signal) : result Signal :=
  fold_left (fun acc b => tone <- acc ;; ps tone (fst b) (snd b) PI "Left"%string fs)
            bands (Ok tone).

(** The overlay [addSounds] is described to compute: [b] laid onto [a]
    from row [d] on, rows that overlap being summed, rows that neither
    sound covers being silent. *)
Fixpoint addPad (a b : Signal) : Signal :=
  match a, b with
  | [], _ => b
  | _, [] => a
  | x :: a', y :: b' => (fst x + fst y, snd x + snd y) :: addPad a' b'
  end.

Fixpoint mixAt (d : nat) (a b : Signal) : Signal :=
  match d with
  | O => addPad a b
  | S d' =>
      match a with
      | [] => (0, 0) :: mixAt d' [] b
      | x :: a' => x :: mixAt d' a' b
      end
  end.

(** A quarter turn of a complex number, and the conjugate. *)
Definition quarterTurn (z : C) : C := (- snd z, fst z).
Definition conj (z : C) : C := (fst z, - snd z).

(** The product and the sum of two arrays of the same length, entry by
    entry, and the window a generator multiplies its carrier by: the
    onset ramp, the amplitude, the offset ramp. *)
Definition zipR (f : R -> R -> R) (a b : list R) : list R :=
  map (fun p => f (fst p) (snd p)) (combine a b).

Definition envelope (amp : R) (nRamp nSamples : Z) : list R :=
  map (fun t => amp * ((1 - cos (PI * t / IZR nRamp)) / 2)) (arange nRamp)
  ++ repeat amp (Z.to_nat nSamples)
  ++ map (fun t => amp * ((1 + cos (PI * t / IZR nRamp)) / 2)) (arange nRamp).

(** The starting phase of harmonic [i] that the loops of [complexTone]
    realise for the phase relationships in which the two versions agree. *)
Definition phaseOf (rand : Z -> R) (harmPhase : string) (highHarm i : Z) : R :=
  if String.eqb harmPhase "Sine" then 0
  else if String.eqb harmPhase "Cosine" then PI / 2
  else if String.eqb harmPhase "Schroeder" then
    - PI * IZR i * IZR (i - 1) / IZR highHarm
  else rand i * 2 * PI.

(** A sound with the column [q] in the channel [thisChan] and zeros in the
    other one ([q] in both for "Both"), and the sound [complexTone] builds
    from its accumulators under the window [E]. *)
Definition placed (thisChan : string) (q : list R) (n : nat) : Signal :=
  if String.eqb thisChan "Right" then combine (repeat 0 n) q
  else if String.eqb thisChan "Left" then combine q (repeat 0 n)
  else combine q q.

Definition colsOf (channel : string) (E : list R) (st : tones) (n : nat) : Signal :=
  if String.eqb channel "Right" then combine (repeat 0 n) (zipR Rmult E (tone st))
  else if String.eqb channel "Left" then combine (zipR Rmult E (tone st)) (repeat 0 n)
  else if String.eqb channel "Both" then
    combine (zipR Rmult E (tone st)) (zipR Rmult E (tone st))
  else if String.eqb channel "Odd Left" then
    combine (zipR Rmult E (toneOdd st)) (zipR Rmult E (toneEven st))
  else combine (zipR Rmult E (toneEven st)) (zipR Rmult E (toneOdd st)).

(** The carrier of harmonic [i]. *)
Definition carrierOf (rand : Z -> R) (harmPhase : string) (F0 stretchHz : R)
    (highHarm : Z) (timeAll : list R) (i : Z) : list R :=
  map (fun t => sin (2 * PI * (F0 * IZR i + stretchHz) * t
                     + phaseOf rand harmPhase highHarm i)) timeAll.

(** The phase relationships for which [complexTone] and
    [complexToneParallel] are compared below: all but "Alternating", and
    "Schroeder" with a highest harmonic other than 0. *)
Definition phase_agrees (harmPhase : string) (highHarm : Z) : Prop :=
  harmPhase = "Sine"%string \/ harmPhase = "Cosine"%string
  \/ harmPhase = "Random"%string
  \/ (harmPhase = "Schroeder"%string /\ highHarm <> 0%Z).

(** The accumulators of [complexTone] after the partial [car] of harmonic
    [i] is added, and the channel [complexToneParallel] asks [pureTone]
    for. *)
Definition stepTones (channel : string) (i : Z) (car : list R) (st : tones) : tones :=
  if chan_single channel then
    mkTones (zipR Rplus (tone st) car) (toneOdd st) (toneEven st)
  else if is_odd i then
    mkTones (tone st) (zipR Rplus (toneOdd st) car) (toneEven st)
  else
    mkTones (tone st) (toneOdd st) (zipR Rplus (toneEven st) car).

Definition thisChanStr (channel : string) (i : Z) : string :=
  if chan_single channel then channel
  else if is_odd i then
    (if String.eqb channel "Odd Left" then "Left" else "Right")%string
  else
    (if String.eqb channel "Odd Left" then "Right" else "Left")%string.

(** The accumulators all have [n] entries. *)
Definition tones_wf (n : nat) (st : tones) : Prop :=
  length (tone st) = n /\ length (toneOdd st) = n /\ length (toneEven st) = n.

(** ** Reference quantities

    The root mean square of one column, and the root mean square the
    description of [getRms] states: over the entries of both columns taken
    together. *)

Definition rmsColumn (c : list R) : R :=
  sqrt (mean1 (map (fun x => x * x) c)).

Definition rmsJoint (sig : Signal) : R :=
  sqrt ((sum1 (map (fun x => x * x) (col0 sig))
         + sum1 (map (fun x => x * x) (col1 sig)))
        / INR (length (col0 sig) + length (col1 sig))).

(** ** Further utilities and compositors *)

(** [scale(level, sig)]: every sample times [10**(level/20)]. *)
Definition scale (level : R) (sig : Signal) : Signal :=
  map (fun p => (fst p * py_pow 10 (level / 20), snd p * py_pow 10 (level / 20))) sig.

(** [intNCyclesFreq(freq, duration)]; the division of the rounded number
    of cycles by a duration of zero raises. *)
Definition intNCyclesFreq (freq duration : R) : result R :=
  let duration := duration / 1000 in
  if Req_dec_T duration 0 then Raise ZeroDivisionError
  else Ok (IZR (py_round (freq * duration)) / duration).

(** [itdtoipd(itd, freq)]; [1.0/freq] raises for a frequency of zero. *)
Definition itdtoipd (itd freq : R) : result R :=
  if Req_dec_T freq 0 then Raise ZeroDivisionError
  else Ok ((itd / (1 / freq)) * 2 * PI).

(** One iteration of the loop of [joinSndISI]; [cur] is the variable
    [snd], unbound before the first iteration. *)
Definition joinStep (sndList : list Signal) (ISIList : list R) (fs : R)
    (acc : result (option Signal)) (i : nat) : result (option Signal) :=
  cur <- acc ;;
  thisSilence <-
    (if Nat.ltb i (length sndList - 1) then
       match nth_error ISIList i with
       | Some d => makeSilence d fs
       | None => Raise (IndexError "list index out of range")
       end
     else makeSilence 0 fs) ;;
  match nth_error sndList i with
  | None => Raise (IndexError "list index out of range")
  | Some s =>
      if Nat.eqb i 0 then Ok (Some (concatenate s thisSilence))
      else match cur with
           | Some snd => Ok (Some (concatenate (concatenate snd s) thisSilence))
           | None => Raise (NameError "snd")
           end
  end.

Definition joinSndISI (sndList : list Signal) (ISIList : list R) (fs : R)
    : result Signal :=
  cur <- fold_left (joinStep sndList ISIList fs) (seq 0 (length sndList)) (Ok None) ;;
  match cur with
  | Some snd => Ok snd
  | None => Raise (NameError "snd")
  end.

(** The sounds one after the other, with a silence of [gaps] rows between
    each sound and the next. *)
Fixpoint joined (snds : list Signal) (gaps : list nat) : Signal :=
  match snds with
  | [] => []
  | s :: rest =>
      match rest with
      | [] => s
      | _ :: _ => s ++ repeat (0, 0) (hd 0%nat gaps) ++ joined rest (tl gaps)
      end
  end.

(** ** binauralPureTone

    The two warnings of the function (a time or level difference without
    its reference channel) raise nothing and are left out. *)

(** [ref not in ["Right", "Left", None]]. *)
Definition ref_ok (ref : option string) : bool :=
  match ref with
  | None => true
  | Some s => String.eqb s "Right" || String.eqb s "Left"
  end.

(** The amplitudes and phases (left, right) the branch [channel == 'Both']
    binds; a reference outside the three binds none. *)
Definition binauralAmps (level ild maxLevel : R) (ildRef : option string)
    : option (R * R) :=
  match ildRef with
  | Some s =>
      if String.eqb s "Right" then
        Some (py_pow 10 ((level + ild - maxLevel) / 20), py_pow 10 ((level - maxLevel) / 20))
      else if String.eqb s "Left" then
        Some (py_pow 10 ((level - maxLevel) / 20), py_pow 10 ((level + ild - maxLevel) / 20))
      else None
  | None => Some (py_pow 10 ((level - maxLevel) / 20), py_pow 10 ((level - maxLevel) / 20))
  end.

Definition binauralPhases (phase ipd : R) (itdRef : option string) : option (R * R) :=
  match itdRef with
  | Some s =>
      if String.eqb s "Right" then Some (phase + ipd, phase)
      else if String.eqb s "Left" then Some (phase, phase + ipd)
      else None
  | None => Some (phase, phase)
  end.

Definition binauralPureTone (frequency phase level duration ramp : R)
    (channel : string) (itd : R) (itdRef : option string) (ild : R)
    (ildRef : option string) (fs maxLevel : R) : result Signal :=
  if negb (channel_ok channel) then
    Raise (TypeError "Invalid channel argument. Channel must be one of 'Right', 'Left' or 'Both'")
  else if negb (ref_ok itdRef) then
    Raise (TypeError "Invalid 'itdRef' argument. 'itdRef' must be one of 'Right', 'Left' or None")
  else if negb (ref_ok ildRef) then
    Raise (TypeError "Invalid 'ildRef' argument. 'ildRef' must be one of 'Right', 'Left' or None")
  else
    both <- (if String.eqb channel "Both" then
               ipd <- itdtoipd (itd / 1000000) frequency ;;
               Ok (binauralAmps level ild maxLevel ildRef, binauralPhases phase ipd itdRef)
             else Ok (None, None)) ;;
    let amp := py_pow 10 ((level - maxLevel) / 20) in
    let duration := duration / 1000 in
    let ramp := ramp / 1000 in
    let nSamples := py_round (duration * fs) in
    let nRamp := py_round (ramp * fs) in
    let nTot := (nSamples + nRamp * 2)%Z in
    let timeAll := sdiv (arange nTot) fs in
    let timeRamp := arange nRamp in
    let nAll := Z.of_nat (length timeAll) in
    let seg ph lo hi :=
      map (fun t => sin (2 * PI * frequency * t + ph)) (slice lo hi timeAll) in
    snd <- zeros nTot ;;
    if String.eqb channel "Right" then
      ramped setcol1 amp nRamp nSamples nAll timeRamp (seg phase) snd
    else if String.eqb channel "Left" then
      ramped setcol0 amp nRamp nSamples nAll timeRamp (seg phase) snd
    else if String.eqb channel "Both" then
      match both with
      | (Some (ampLeft, ampRight), Some (phaseLeft, phaseRight)) =>
          snd <- ramped setcol0 ampLeft nRamp nSamples nAll timeRamp (seg phaseLeft) snd ;;
          ramped setcol1 ampRight nRamp nSamples nAll timeRamp (seg phaseRight) snd
      | (None, _) => Raise (NameError "ampLeft")
      | (_, None) => Raise (NameError "phaseLeft")
      end
    else Ok snd.

(** The amplitude profile a level glide is expected to impose on [n]
    samples: 1 up to [startPnt], a raised-cosine transition from 1 towards
    10^(deltaL/20) on [startPnt:endPnt], and 10^(deltaL/20) from [endPnt]. *)
Definition glideProfile (n : nat) (deltaL : R) (startPnt endPnt : Z) : list R :=
  let endAmp := py_pow 10 (deltaL / 20) in
  repeat 1 (Z.to_nat startPnt)
  ++ map (fun t => (1 + endAmp + (1 - endAmp) * cos (PI * t / IZR (endPnt - startPnt))) / 2)
         (arange (endPnt - startPnt))
  ++ repeat endAmp (n - Z.to_nat endPnt).

(** ** chirp and glide *)

(** The array [frequency] of [chirp] as a function of the time of the
    sample; no name is bound for an [ftype] other than the two.  [log] is
    the natural logarithm.  For a rate of 0 the exponential branch divides
    by log(1) = 0, which gives an array of nan in the source: the
    properties of that branch are stated for a rate other than 0. *)
Definition chirpPhase (ftype : string) (freqStart rate phase : R) : option (R -> R) :=
  if String.eqb ftype "exponential" then
    let k := py_pow 2 (rate / 1200) in
    Some (fun t => freqStart * ((py_pow k t - 1) / ln k + phase))
  else if String.eqb ftype "linear" then
    Some (fun t => freqStart * t + (rate / 2) * (t * t) + phase)
  else None.

Definition chirp (freqStart : R) (ftype : string) (rate level duration phase ramp : R)
    (channel : string) (fs maxLevel : R) : result Signal :=
  let amp := py_pow 10 ((level - maxLevel) / 20) in
  let duration := duration / 1000 in
  let ramp := ramp / 1000 in
  let nSamples := py_round (duration * fs) in
  let nRamp := py_round (ramp * fs) in
  let nTot := (nSamples + nRamp * 2)%Z in
  let timeAll := sdiv (arange nTot) fs in
  let timeRamp := arange nRamp in
  let nAll := Z.of_nat (length timeAll) in
  let frequency := option_map (fun f => map f timeAll)
                              (chirpPhase ftype freqStart rate phase) in
  let tone setcol snd :=
    match frequency with
    | Some frequency =>
        ramped setcol amp nRamp nSamples nAll timeRamp
               (fun lo hi => map (fun x => sin (2 * PI * x)) (slice lo hi frequency)) snd
    | None => Raise (NameError "frequency")
    end in
  snd <- zeros nTot ;;
  if String.eqb channel "Right" then tone setcol1 snd
  else if String.eqb channel "Left" then tone setcol0 snd
  else if String.eqb channel "Both" then
    snd <- tone setcol0 snd ;;
    Ok (copy0to1 snd)
  else Ok snd.

Definition glide (freqStart : R) (ftype : string) (excursion level duration phase ramp : R)
    (channel : string) (fs maxLevel : R) : result Signal :=
  let totDur := duration / 1000 + ramp / 1000 * 2 in
  if Req_dec_T totDur 0 then Raise ZeroDivisionError
  else
    let rate := excursion / totDur in
    chirp freqStart ftype rate level duration phase ramp channel fs maxLevel.

(** ** expSinFMTone *)

(** [cumsum(a)]: the running sums of [a]. *)
Fixpoint cumsum_from (acc : R) (a : list R) : list R :=
  match a with
  | [] => []
  | x :: rest => (acc + x) :: cumsum_from (acc + x) rest
  end.

Definition cumsum (a : list R) : list R := cumsum_from 0 a.

Definition expSinFMTone (fc fm deltaCents phase level duration ramp : R)
    (channel : string) (fs maxLevel : R) : result Signal :=
  let amp := py_pow 10 ((level - maxLevel) / 20) in
  let duration := duration / 1000 in
  let ramp := ramp / 1000 in
  let nSamples := py_round (duration * fs) in
  let nRamp := py_round (ramp * fs) in
  let nTot := (nSamples + nRamp * 2)%Z in
  let timeAll := sdiv (arange nTot) fs in
  let timeRamp := arange nRamp in
  let nAll := Z.of_nat (length timeAll) in
  let fArr := map (fun t => 2 * PI * fc
                            * py_pow 2 ((deltaCents / 1200) * cos (2 * PI * fm * t + phase)))
                  timeAll in
  let ang := sdiv (cumsum fArr) fs in
  let seg lo hi := map sin (slice lo hi ang) in
  snd <- zeros nTot ;;
  if String.eqb channel "Right" then
    ramped setcol1 amp nRamp nSamples nAll timeRamp seg snd
  else if String.eqb channel "Left" then
    ramped setcol0 amp nRamp nSamples nAll timeRamp seg snd
  else if String.eqb channel "Both" then
    snd <- ramped setcol0 amp nRamp nSamples nAll timeRamp seg snd ;;
    Ok (copy0to1 snd)
  else Ok snd.

(** * Properties *)

(** ** Rounding *)

Lemma Int_part_IZR (z : Z) : Int_part (IZR z) = z.
Proof.
  symmetry. apply Int_part_spec. split; lra.
Qed.

Lemma frac_part_IZR (z : Z) : frac_part (IZR z) = 0.
Proof.
  unfold frac_part. rewrite Int_part_IZR. lra.
Qed.

Lemma py_round_IZR (z : Z) : py_round (IZR z) = z.
Proof.
  unfold py_round. rewrite frac_part_IZR, Int_part_IZR.
  destruct (Rlt_dec 0 (1 / 2)) as [_ | H]; [reflexivity | exfalso; lra].
Qed.

Lemma Int_part_half (z : Z) : Int_part (IZR z + 1 / 2) = z.
Proof.
  symmetry. apply Int_part_spec. split; lra.
Qed.

Lemma py_round_half (z : Z) :
  py_round (IZR z + 1 / 2) = if Z.even z then z else (z + 1)%Z.
Proof.
  unfold py_round, frac_part. rewrite Int_part_half.
  destruct (Rlt_dec (IZR z + 1 / 2 - IZR z) (1 / 2)) as [H | _]; [exfalso; lra |].
  destruct (Rlt_dec (1 / 2) (IZR z + 1 / 2 - IZR z)) as [H | _]; [exfalso; lra |].
  reflexivity.
Qed.

Lemma Int_part_nonneg (x : R) : 0 <= x -> (0 <= Int_part x)%Z.
Proof.
  intros Hx. destruct (base_Int_part x) as [_ H2].
  apply Z.lt_succ_r. apply lt_IZR. rewrite succ_IZR. lra.
Qed.

Lemma py_round_nonneg (x : R) : 0 <= x -> (0 <= py_round x)%Z.
Proof.
  intros Hx. pose proof (Int_part_nonneg x Hx) as Hf. unfold py_round.
  destruct (Rlt_dec _ _); [exact Hf |].
  destruct (Rlt_dec _ _); [lia |].
  destruct (Z.even _); lia.
Qed.

(** A rounded value is within a half of its argument. *)
Lemma py_round_near (x : R) : Rabs (IZR (py_round x) - x) <= 1 / 2.
Proof.
  pose proof (Rplus_Int_part_frac_part x) as Hx.
  destruct (base_fp x) as [H0 H1].
  unfold py_round.
  destruct (Rlt_dec (frac_part x) (1 / 2)) as [Hl | Hl].
  - apply Rabs_le. lra.
  - destruct (Rlt_dec (1 / 2) (frac_part x)) as [Hg | Hg].
    + rewrite plus_IZR. apply Rabs_le. lra.
    + destruct (Z.even (Int_part x)); [| rewrite plus_IZR]; apply Rabs_le; lra.
Qed.

(** ** Arrays *)

Lemma norm_index_in (n i : Z) : (0 <= i <= n)%Z -> norm_index n i = i.
Proof.
  intros H. unfold norm_index.
  destruct (Z.ltb_spec i 0); lia.
Qed.

Lemma slice_in {A : Type} (lo hi : Z) (a : list A) :
  (0 <= lo <= hi)%Z -> (hi <= Z.of_nat (length a))%Z ->
  slice lo hi a = firstn (Z.to_nat (hi - lo)) (skipn (Z.to_nat lo) a).
Proof.
  intros H1 H2. unfold slice. rewrite !norm_index_in by lia. reflexivity.
Qed.

Lemma slice_length {A : Type} (lo hi : Z) (a : list A) :
  (0 <= lo <= hi)%Z -> (hi <= Z.of_nat (length a))%Z ->
  length (slice lo hi a) = Z.to_nat (hi - lo).
Proof.
  intros H1 H2. rewrite slice_in by assumption.
  rewrite length_firstn, length_skipn. lia.
Qed.

Lemma arange_length (n : Z) : length (arange n) = Z.to_nat n.
Proof.
  unfold arange. rewrite length_map, length_seq. reflexivity.
Qed.

Lemma sdiv_length (a : list R) (k : R) : length (sdiv a k) = length a.
Proof. apply length_map. Qed.

Lemma smul_length (k : R) (a : list R) : length (smul k a) = length a.
Proof. apply length_map. Qed.

Lemma bcast2_same (f : R -> R -> R) (a b : list R) :
  length a = length b ->
  bcast2 f a b = Ok (map (fun p => f (fst p) (snd p)) (combine a b)).
Proof.
  intros H. unfold bcast2. rewrite (proj2 (Nat.eqb_eq _ _) H). reflexivity.
Qed.

Lemma bcast2_same_length (f : R -> R -> R) (a b : list R) :
  length a = length b ->
  exists v, bcast2 f a b = Ok v /\ length v = length a.
Proof.
  intros H. eexists. split; [apply bcast2_same; exact H |].
  rewrite length_map, length_combine. lia.
Qed.

Lemma setslice_in (lo hi : Z) (v a : list R) :
  (0 <= lo <= hi)%Z -> (hi <= Z.of_nat (length a))%Z ->
  length v = Z.to_nat (hi - lo) ->
  setslice lo hi v a
  = Ok (firstn (Z.to_nat lo) a ++ v ++ skipn (Z.to_nat hi) a).
Proof.
  intros H1 H2 Hv. unfold setslice. rewrite !norm_index_in by lia.
  rewrite (proj2 (Nat.eqb_eq _ _) Hv).
  replace (Z.to_nat lo + Z.to_nat (hi - lo))%nat with (Z.to_nat hi) by lia.
  reflexivity.
Qed.

Lemma setslice_length (lo hi : Z) (v a c : list R) :
  setslice lo hi v a = Ok c -> length c = length a.
Proof.
  unfold setslice.
  set (n := Z.of_nat (length a)).
  set (lo' := norm_index n lo). set (hi' := norm_index n hi).
  assert (Hlo : (0 <= lo' <= n)%Z).
  { unfold lo', norm_index. destruct (Z.ltb_spec lo 0); lia. }
  assert (Hhi : (0 <= hi' <= n)%Z).
  { unfold hi', norm_index. destruct (Z.ltb_spec hi 0); lia. }
  assert (Hlen : forall w, length w = Z.to_nat (hi' - lo') ->
            length (firstn (Z.to_nat lo') a ++ w
                    ++ skipn (Z.to_nat lo' + Z.to_nat (hi' - lo')) a) = length a).
  { intros w Hw. rewrite !length_app, length_firstn, length_skipn, Hw. lia. }
  destruct (Nat.eqb_spec (length v) (Z.to_nat (hi' - lo'))) as [E | E].
  - intros [= <-]. apply Hlen. exact E.
  - destruct v as [| x [| y v]]; try discriminate.
    intros [= <-]. apply Hlen. apply repeat_length.
Qed.

Lemma map_fst_combine {A B : Type} (a : list A) (b : list B) :
  length a = length b -> map fst (combine a b) = a.
Proof.
  revert b. induction a as [| x a IH]; intros [| y b] H; simpl in *;
    try discriminate; [reflexivity |].
  f_equal. apply IH. lia.
Qed.

Lemma map_snd_combine {A B : Type} (a : list A) (b : list B) :
  length a = length b -> map snd (combine a b) = b.
Proof.
  revert b. induction a as [| x a IH]; intros [| y b] H; simpl in *;
    try discriminate; [reflexivity |].
  f_equal. apply IH. lia.
Qed.

Lemma combine_cols (sig : Signal) : combine (col0 sig) (col1 sig) = sig.
Proof.
  induction sig as [| [l r] sig IH]; simpl; [reflexivity |].
  f_equal. exact IH.
Qed.

Lemma col0_length (sig : Signal) : length (col0 sig) = length sig.
Proof. apply length_map. Qed.

Lemma col1_length (sig : Signal) : length (col1 sig) = length sig.
Proof. apply length_map. Qed.

(** An assignment to a slice of column 1 keeps the number of rows and
    column 0; likewise for column 0. *)
Lemma setcol1_frame (lo hi : Z) (v : list R) (sig sig' : Signal) :
  setcol1 lo hi v sig = Ok sig' ->
  length sig' = length sig /\ col0 sig' = col0 sig.
Proof.
  unfold setcol1, bind.
  destruct (setslice lo hi v (col1 sig)) as [c |] eqn:E; [| discriminate].
  intros [= <-]. apply setslice_length in E. rewrite col1_length in E.
  split.
  - rewrite length_combine, col0_length. lia.
  - apply map_fst_combine. rewrite col0_length. lia.
Qed.

Lemma setcol0_frame (lo hi : Z) (v : list R) (sig sig' : Signal) :
  setcol0 lo hi v sig = Ok sig' ->
  length sig' = length sig /\ col1 sig' = col1 sig.
Proof.
  unfold setcol0, bind.
  destruct (setslice lo hi v (col0 sig)) as [c |] eqn:E; [| discriminate].
  intros [= <-]. apply setslice_length in E. rewrite col0_length in E.
  split.
  - rewrite length_combine, col1_length. lia.
  - apply map_snd_combine. rewrite col1_length. lia.
Qed.

Lemma setcol1_returns (lo hi : Z) (v : list R) (sig : Signal) :
  (0 <= lo <= hi)%Z -> (hi <= Z.of_nat (length sig))%Z ->
  length v = Z.to_nat (hi - lo) ->
  exists sig', setcol1 lo hi v sig = Ok sig'.
Proof.
  intros H1 H2 Hv. unfold setcol1.
  rewrite setslice_in; [eexists; reflexivity | assumption | | assumption].
  rewrite col1_length. exact H2.
Qed.

Lemma setcol0_returns (lo hi : Z) (v : list R) (sig : Signal) :
  (0 <= lo <= hi)%Z -> (hi <= Z.of_nat (length sig))%Z ->
  length v = Z.to_nat (hi - lo) ->
  exists sig', setcol0 lo hi v sig = Ok sig'.
Proof.
  intros H1 H2 Hv. unfold setcol0.
  rewrite setslice_in; [eexists; reflexivity | assumption | | assumption].
  rewrite col0_length. exact H2.
Qed.

Lemma zeros_returns (n : Z) :
  (0 <= n)%Z -> zeros n = Ok (repeat (0, 0) (Z.to_nat n)).
Proof.
  intros H. unfold zeros. destruct (Z.ltb_spec n 0); [lia | reflexivity].
Qed.

Lemma col0_repeat_zero (n : nat) : col0 (repeat (0, 0) n) = repeat 0 n.
Proof. unfold col0. induction n; simpl; congruence. Qed.

Lemma col1_repeat_zero (n : nat) : col1 (repeat (0, 0) n) = repeat 0 n.
Proof. unfold col1. induction n; simpl; congruence. Qed.

Lemma Forall_repeat_zero (n : nat) : Forall (fun x => x = 0) (repeat 0 n).
Proof. induction n; simpl; constructor; auto. Qed.

(** ** The three assignments of a generator *)

Section Ramped.

Variable setcol : Z -> Z -> list R -> Signal -> result Signal.
Variable keep : Signal -> list R.

Hypothesis setcol_frame : forall lo hi v s s',
  setcol lo hi v s = Ok s' -> length s' = length s /\ keep s' = keep s.

Hypothesis setcol_returns : forall lo hi v s,
  (0 <= lo <= hi)%Z -> (hi <= Z.of_nat (length s))%Z ->
  length v = Z.to_nat (hi - lo) ->
  exists s', setcol lo hi v s = Ok s'.

Lemma setcol_step (lo hi : Z) (v : list R) (s : Signal) :
  (0 <= lo <= hi)%Z -> (hi <= Z.of_nat (length s))%Z ->
  length v = Z.to_nat (hi - lo) ->
  exists s', setcol lo hi v s = Ok s'
             /\ length s' = length s /\ keep s' = keep s.
Proof.
  intros H1 H2 Hv.
  destruct (setcol_returns lo hi v s H1 H2 Hv) as [s' Hs'].
  exists s'. split; [exact Hs' | exact (setcol_frame _ _ _ _ _ Hs')].
Qed.

Lemma ramped_returns (amp : R) (nRamp nSamples nAll : Z) (timeRamp : list R)
    (seg : Z -> Z -> list R) (snd : Signal) :
  (0 <= nRamp)%Z -> (0 <= nSamples)%Z ->
  nAll = (nSamples + nRamp * 2)%Z ->
  Z.of_nat (length snd) = nAll ->
  length timeRamp = Z.to_nat nRamp ->
  (forall lo hi, (0 <= lo <= hi)%Z -> (hi <= nAll)%Z ->
                 length (seg lo hi) = Z.to_nat (hi - lo)) ->
  exists snd', ramped setcol amp nRamp nSamples nAll timeRamp seg snd = Ok snd'
               /\ length snd' = length snd /\ keep snd' = keep snd.
Proof.
  intros HR HS HA Hlen HtR Hseg. unfold ramped.
  destruct (bcast2_same_length Rmult
              (map (fun t => amp * ((1 - cos (PI * t / IZR nRamp)) / 2)) timeRamp)
              (seg 0%Z nRamp)) as [v1 [E1 L1]].
  { rewrite length_map, Hseg by lia. rewrite HtR. f_equal. lia. }
  rewrite E1. cbn [bind]. rewrite length_map in L1.
  destruct (setcol_step 0%Z nRamp v1 snd) as [s1 [F1 [N1 K1]]]; try lia.
  rewrite F1. cbn [bind].
  destruct (setcol_step nRamp (nRamp + nSamples)%Z
              (smul amp (seg nRamp (nRamp + nSamples)%Z)) s1)
    as [s2 [F2 [N2 K2]]]; try lia.
  { rewrite smul_length. apply Hseg; lia. }
  rewrite F2. cbn [bind].
  destruct (bcast2_same_length Rmult
              (map (fun t => amp * ((1 + cos (PI * t / IZR nRamp)) / 2)) timeRamp)
              (seg (nRamp + nSamples)%Z nAll)) as [v3 [E3 L3]].
  { rewrite length_map, Hseg by lia. rewrite HtR. f_equal. lia. }
  rewrite E3. cbn [bind]. rewrite length_map in L3.
  destruct (setcol_step (nRamp + nSamples)%Z nAll v3 s2) as [s3 [F3 [N3 K3]]];
    try lia.
  exists s3. split; [exact F3 |]. split; congruence.
Qed.

End Ramped.

Lemma channel_ok_cases (channel : string) :
  channel_ok channel = true ->
  channel = "Right"%string \/ channel = "Left"%string \/ channel = "Both"%string.
Proof.
  unfold channel_ok. simpl. rewrite !orb_true_iff, !String.eqb_eq.
  intuition discriminate.
Qed.

Lemma copy0to1_length (snd : Signal) : length (copy0to1 snd) = length snd.
Proof.
  unfold copy0to1. rewrite length_combine, col0_length. lia.
Qed.

(** ** pureTone *)

Section PureTone.

Variables frequency phase level duration ramp fs maxLevel : R.

Let nSamples := py_round (duration / 1000 * fs).
Let nRamp := py_round (ramp / 1000 * fs).

Hypothesis duration_nonneg : 0 <= duration.
Hypothesis ramp_nonneg : 0 <= ramp.
Hypothesis fs_pos : 0 < fs.

Lemma nSamples_nonneg : (0 <= nSamples)%Z.
Proof.
  apply py_round_nonneg. apply Rmult_le_pos; lra.
Qed.

Lemma nRamp_nonneg : (0 <= nRamp)%Z.
Proof.
  apply py_round_nonneg. apply Rmult_le_pos; lra.
Qed.

Lemma pureTone_seg_length (lo hi : Z) :
  (0 <= lo <= hi)%Z -> (hi <= nSamples + nRamp * 2)%Z ->
  length (map (fun t => sin (2 * PI * frequency * t + phase))
              (slice lo hi (sdiv (arange (nSamples + nRamp * 2)) fs)))
  = Z.to_nat (hi - lo).
Proof.
  intros H1 H2. rewrite length_map. apply slice_length; [exact H1 |].
  rewrite sdiv_length, arange_length. lia.
Qed.

Lemma pureTone_right :
  exists snd,
    pureTone frequency phase level duration ramp "Right" fs maxLevel = Ok snd
    /\ Z.of_nat (length snd) = (nSamples + 2 * nRamp)%Z
    /\ Forall (fun x => x = 0) (col0 snd).
Proof.
  pose proof nSamples_nonneg as HS. pose proof nRamp_nonneg as HR.
  unfold pureTone. cbn [channel_ok existsb String.eqb Ascii.eqb Bool.eqb negb orb].
  fold nSamples nRamp.
  rewrite zeros_returns by lia. cbn [bind].
  rewrite sdiv_length, arange_length.
  destruct (ramped_returns setcol1 col0 setcol1_frame setcol1_returns
              (py_pow 10 ((level - maxLevel) / 20)) nRamp nSamples
              (Z.of_nat (Z.to_nat (nSamples + nRamp * 2)))
              (arange nRamp)
              (fun lo hi => map (fun t => sin (2 * PI * frequency * t + phase))
                                (slice lo hi (sdiv (arange (nSamples + nRamp * 2)) fs)))
              (repeat (0, 0) (Z.to_nat (nSamples + nRamp * 2))))
    as [s [E [L K]]]; try lia.
  - rewrite repeat_length. reflexivity.
  - apply arange_length.
  - intros lo hi H1 H2. apply pureTone_seg_length; lia.
  - exists s. split; [exact E |]. split.
    + rewrite L, repeat_length. lia.
    + rewrite K, col0_repeat_zero. apply Forall_repeat_zero.
Qed.

Lemma pureTone_left :
  exists snd,
    pureTone frequency phase level duration ramp "Left" fs maxLevel = Ok snd
    /\ Z.of_nat (length snd) = (nSamples + 2 * nRamp)%Z
    /\ Forall (fun x => x = 0) (col1 snd).
Proof.
  pose proof nSamples_nonneg as HS. pose proof nRamp_nonneg as HR.
  unfold pureTone. cbn [channel_ok existsb String.eqb Ascii.eqb Bool.eqb negb orb].
  fold nSamples nRamp.
  rewrite zeros_returns by lia. cbn [bind].
  rewrite sdiv_length, arange_length.
  destruct (ramped_returns setcol0 col1 setcol0_frame setcol0_returns
              (py_pow 10 ((level - maxLevel) / 20)) nRamp nSamples
              (Z.of_nat (Z.to_nat (nSamples + nRamp * 2)))
              (arange nRamp)
              (fun lo hi => map (fun t => sin (2 * PI * frequency * t + phase))
                                (slice lo hi (sdiv (arange (nSamples + nRamp * 2)) fs)))
              (repeat (0, 0) (Z.to_nat (nSamples + nRamp * 2))))
    as [s [E [L K]]]; try lia.
  - rewrite repeat_length. reflexivity.
  - apply arange_length.
  - intros lo hi H1 H2. apply pureTone_seg_length; lia.
  - exists s. split; [exact E |]. split.
    + rewrite L, repeat_length. lia.
    + rewrite K, col1_repeat_zero. apply Forall_repeat_zero.
Qed.

Lemma pureTone_both :
  exists snd,
    pureTone frequency phase level duration ramp "Both" fs maxLevel = Ok snd
    /\ Z.of_nat (length snd) = (nSamples + 2 * nRamp)%Z
    /\ col1 snd = col0 snd.
Proof.
  pose proof nSamples_nonneg as HS. pose proof nRamp_nonneg as HR.
  unfold pureTone. cbn [channel_ok existsb String.eqb Ascii.eqb Bool.eqb negb orb].
  fold nSamples nRamp.
  rewrite zeros_returns by lia. cbn [bind].
  rewrite sdiv_length, arange_length.
  destruct (ramped_returns setcol0 col1 setcol0_frame setcol0_returns
              (py_pow 10 ((level - maxLevel) / 20)) nRamp nSamples
              (Z.of_nat (Z.to_nat (nSamples + nRamp * 2)))
              (arange nRamp)
              (fun lo hi => map (fun t => sin (2 * PI * frequency * t + phase))
                                (slice lo hi (sdiv (arange (nSamples + nRamp * 2)) fs)))
              (repeat (0, 0) (Z.to_nat (nSamples + nRamp * 2))))
    as [s [E [L K]]]; try lia.
  - rewrite repeat_length. reflexivity.
  - apply arange_length.
  - intros lo hi H1 H2. apply pureTone_seg_length; lia.
  - rewrite E. cbn [bind]. eexists. split; [reflexivity |]. split.
    + rewrite copy0to1_length, L, repeat_length. lia.
    + unfold copy0to1.
      change (map snd (combine (col0 s) (col0 s))
              = map fst (combine (col0 s) (col0 s))).
      rewrite map_snd_combine, map_fst_combine by reflexivity. reflexivity.
Qed.

End PureTone.

(** C1.  For a channel among "Left", "Right" and "Both" and a duration
    and ramp that are not negative at a positive sampling rate, [pureTone]
    returns a sound of round(duration/1000*fs) + 2*round(ramp/1000*fs)
    rows, whose left column is all zeros when the channel is "Right" and
    whose right column is all zeros when the channel is "Left". *)
Theorem pureTone_shape (frequency phase level duration ramp : R)
    (channel : string) (fs maxLevel : R) :
  0 <= duration -> 0 <= ramp -> 0 < fs ->
  channel_ok channel = true ->
  exists snd,
    pureTone frequency phase level duration ramp channel fs maxLevel = Ok snd
    /\ nrows snd = (py_round (duration / 1000 * fs)
                    + 2 * py_round (ramp / 1000 * fs))%Z
    /\ (channel = "Right"%string -> Forall (fun x => x = 0) (col0 snd))
    /\ (channel = "Left"%string -> Forall (fun x => x = 0) (col1 snd)).
Proof.
  intros Hd Hr Hf Hc. unfold nrows.
  destruct (channel_ok_cases channel Hc) as [-> | [-> | ->]].
  - destruct (pureTone_right frequency phase level duration ramp fs maxLevel
                Hd Hr Hf) as [s [E [L Z0]]].
    exists s. repeat split; auto. discriminate.
  - destruct (pureTone_left frequency phase level duration ramp fs maxLevel
                Hd Hr Hf) as [s [E [L Z0]]].
    exists s. repeat split; auto. discriminate.
  - destruct (pureTone_both frequency phase level duration ramp fs maxLevel
                Hd Hr Hf) as [s [E [L _]]].
    exists s. repeat split; auto; discriminate.
Qed.

Lemma pureTone_shape_witness :
  exists snd,
    pureTone 440 0 65 180 10 "Right" 48000 100 = Ok snd
    /\ nrows snd = (py_round (180 / 1000 * 48000)
                    + 2 * py_round (10 / 1000 * 48000))%Z
    /\ ("Right"%string = "Right"%string -> Forall (fun x => x = 0) (col0 snd))
    /\ ("Right"%string = "Left"%string -> Forall (fun x => x = 0) (col1 snd)).
Proof.
  apply (pureTone_shape 440 0 65 180 10 "Right" 48000 100);
    [lra | lra | lra | reflexivity].
Defined.

(** The docstring of [pureTone]: the example has 9600 rows. *)
Lemma pureTone_docstring_rows :
  (py_round (180 / 1000 * 48000) + 2 * py_round (10 / 1000 * 48000))%Z = 9600%Z.
Proof.
  replace (180 / 1000 * 48000) with (IZR 8640) by lra.
  replace (10 / 1000 * 48000) with (IZR 480) by lra.
  rewrite !py_round_IZR. reflexivity.
Qed.

(** [pureTone] refuses a channel outside the three. *)
Lemma pureTone_invalid_channel (frequency phase level duration ramp : R)
    (channel : string) (fs maxLevel : R) :
  channel_ok channel = false ->
  pureTone frequency phase level duration ramp channel fs maxLevel
  = Raise (TypeError "Invalid channel argument. Channel must be one of 'Right', 'Left' or 'Both'").
Proof.
  intros H. unfold pureTone. rewrite H. reflexivity.
Qed.

Lemma channel_not_ok (channel : string) :
  channel_ok channel = false ->
  String.eqb channel "Right" = false /\ String.eqb channel "Left" = false
  /\ String.eqb channel "Both" = false.
Proof.
  unfold channel_ok. simpl. rewrite !orb_false_iff. tauto.
Qed.

(** ** AMTone *)

(** [AMTone] checks nothing: with a channel outside the three no branch is
    taken and the zeros are returned. *)
Lemma AMTone_invalid_channel (frequency AMFreq AMDepth phase level duration ramp : R)
    (channel : string) (fs maxLevel : R) :
  0 <= duration -> 0 <= ramp -> 0 < fs ->
  channel_ok channel = false ->
  AMTone frequency AMFreq AMDepth phase level duration ramp channel fs maxLevel
  = Ok (repeat (0, 0)
          (Z.to_nat (py_round (duration / 1000 * fs)
                     + py_round (ramp / 1000 * fs) * 2))).
Proof.
  intros Hd Hr Hf Hc.
  destruct (channel_not_ok channel Hc) as [E1 [E2 E3]].
  pose proof (nSamples_nonneg duration fs Hd Hf) as HS.
  pose proof (nRamp_nonneg ramp fs Hr Hf) as HR.
  unfold AMTone. rewrite zeros_returns by lia. cbn [bind].
  rewrite E1, E2, E3. reflexivity.
Qed.

(** C5.  With the channel "Centre", which is outside the enumeration,
    [pureTone] raises the invalid-argument error, and [AMTone] raises
    nothing: it returns 9600 rows of zeros. *)
Theorem AMTone_unknown_channel_is_silent :
  pureTone 1000 0 65 180 10 "Centre" 48000 100
  = Raise (TypeError "Invalid channel argument. Channel must be one of 'Right', 'Left' or 'Both'")
  /\ AMTone 1000 20 1 0 65 180 10 "Centre" 48000 100
     = Ok (repeat (0, 0) (Z.to_nat 9600)).
Proof.
  split.
  - apply pureTone_invalid_channel. reflexivity.
  - rewrite AMTone_invalid_channel; [| lra | lra | lra | reflexivity].
    replace (180 / 1000 * 48000) with (IZR 8640) by lra.
    replace (10 / 1000 * 48000) with (IZR 480) by lra.
    rewrite !py_round_IZR. reflexivity.
Qed.

(** ** FMTone *)

Lemma rampedFM_raises (setcol : Z -> Z -> list R -> Signal -> result Signal)
    (amp fc fm mi phase : R) (nRamp nSamples nAll : Z) (timeRamp timeAll : list R)
    (snd : Signal) :
  rampedFM setcol amp fc fm mi phase nRamp nSamples nAll timeRamp timeAll snd
  = Raise (NameError "fctimeAll").
Proof. reflexivity. Qed.

(** C6.  For a channel among "Left", "Right" and "Both" and a duration
    and ramp that are not negative at a positive sampling rate, [FMTone]
    returns no sound: it raises the name error of [fctimeAll]. *)
Theorem FMTone_raises (fc fm mi phase level duration ramp : R)
    (channel : string) (fs maxLevel : R) :
  0 <= duration -> 0 <= ramp -> 0 < fs ->
  channel_ok channel = true ->
  FMTone fc fm mi phase level duration ramp channel fs maxLevel
  = Raise (NameError "fctimeAll").
Proof.
  intros Hd Hr Hf Hc.
  pose proof (nSamples_nonneg duration fs Hd Hf) as HS.
  pose proof (nRamp_nonneg ramp fs Hr Hf) as HR.
  unfold FMTone. rewrite zeros_returns by lia. cbn [bind].
  destruct (channel_ok_cases channel Hc) as [-> | [-> | ->]];
    cbn [String.eqb Ascii.eqb Bool.eqb]; rewrite rampedFM_raises; reflexivity.
Qed.

Lemma FMTone_raises_witness :
  FMTone 1000 40 1 0 55 180 10 "Both" 48000 100 = Raise (NameError "fctimeAll").
Proof.
  apply (FMTone_raises 1000 40 1 0 55 180 10 "Both" 48000 100);
    [lra | lra | lra | reflexivity].
Defined.

(** ** getRms *)

Lemma sumAll_sqSig (sig : Signal) :
  sumAll (sqSig sig)
  = sum1 (map (fun x => x * x) (col0 sig)) + sum1 (map (fun x => x * x) (col1 sig)).
Proof.
  induction sig as [| [l r] sig IH].
  - simpl. lra.
  - change (l * l + r * r + sumAll (sqSig sig)
            = l * l + sum1 (map (fun x => x * x) (col0 sig))
              + (r * r + sum1 (map (fun x => x * x) (col1 sig)))).
    rewrite IH. lra.
Qed.

Lemma sqSig_length (sig : Signal) : length (sqSig sig) = length sig.
Proof. apply length_map. Qed.

Lemma sum1_squares_nonneg (c : list R) : 0 <= sum1 (map (fun x => x * x) c).
Proof.
  induction c as [| x c IH]; simpl; [lra |].
  pose proof (Rle_0_sqr x) as Hx. unfold Rsqr in Hx. lra.
Qed.

Lemma sum1_squares_zero (c : list R) :
  Forall (fun x => x = 0) c -> sum1 (map (fun x => x * x) c) = 0.
Proof.
  induction 1 as [| x c Hx _ IH]; simpl; [reflexivity |].
  rewrite IH, Hx. lra.
Qed.

Lemma getRms_eq (sig : Signal) :
  getRms sig
  = sqrt ((sum1 (map (fun x => x * x) (col0 sig))
           + sum1 (map (fun x => x * x) (col1 sig))) / INR (2 * length sig)).
Proof.
  unfold getRms, meanAll. rewrite sumAll_sqSig, sqSig_length. reflexivity.
Qed.

Lemma half_mean_sqrt (s : R) (n : nat) :
  (0 < n)%nat ->
  sqrt (s / INR (2 * n)) = sqrt (s / INR n) / sqrt 2.
Proof.
  intros Hn. rewrite <- sqrt_div_alt by lra. f_equal.
  rewrite mult_INR. simpl (INR 2).
  assert (INR n <> 0) by (apply not_0_INR; lia).
  field. assumption.
Qed.

(** C8.  On a sound that is not empty, [getRms] is the square root of the
    mean of the squares of all the entries of the two columns together;
    when one column is all zeros it is the root mean square of the other
    column divided by sqrt(2). *)
Theorem getRms_joint (sig : Signal) :
  sig <> [] ->
  getRms sig = rmsJoint sig
  /\ (Forall (fun x => x = 0) (col0 sig) ->
      getRms sig = rmsColumn (col1 sig) / sqrt 2)
  /\ (Forall (fun x => x = 0) (col1 sig) ->
      getRms sig = rmsColumn (col0 sig) / sqrt 2).
Proof.
  intros Hne.
  assert (Hn : (0 < length sig)%nat) by (destruct sig; [congruence | simpl; lia]).
  rewrite getRms_eq. unfold rmsJoint, rmsColumn, mean1.
  rewrite !length_map, col0_length, col1_length.
  repeat split.
  - replace (length sig + length sig)%nat with (2 * length sig)%nat by lia.
    reflexivity.
  - intros Hz. rewrite (sum1_squares_zero _ Hz), Rplus_0_l.
    apply half_mean_sqrt. exact Hn.
  - intros Hz. rewrite (sum1_squares_zero _ Hz), Rplus_0_r.
    apply half_mean_sqrt. exact Hn.
Qed.

Lemma getRms_joint_witness :
  getRms [(0, 3); (0, 4)] = rmsJoint [(0, 3); (0, 4)]
  /\ (Forall (fun x => x = 0) (col0 [(0, 3); (0, 4)]) ->
      getRms [(0, 3); (0, 4)] = rmsColumn (col1 [(0, 3); (0, 4)]) / sqrt 2)
  /\ (Forall (fun x => x = 0) (col1 [(0, 3); (0, 4)]) ->
      getRms [(0, 3); (0, 4)] = rmsColumn (col0 [(0, 3); (0, 4)]) / sqrt 2).
Proof.
  apply (getRms_joint [(0, 3); (0, 4)]). discriminate.
Defined.

(** ** A tone without ramps *)

Lemma setslice_empty (k : Z) (a : list R) :
  (0 <= k)%Z -> (k <= Z.of_nat (length a))%Z -> setslice k k [] a = Ok a.
Proof.
  intros H1 H2. rewrite setslice_in; try lia.
  - simpl. rewrite firstn_skipn. reflexivity.
  - simpl. lia.
Qed.

Lemma setslice_all (v a : list R) :
  length v = length a ->
  setslice 0%Z (Z.of_nat (length a)) v a = Ok v.
Proof.
  intros H. rewrite setslice_in; try lia.
  simpl. rewrite Nat2Z.id, skipn_all, app_nil_r. reflexivity.
Qed.

Lemma setcol1_empty (k : Z) (snd : Signal) :
  (0 <= k)%Z -> (k <= Z.of_nat (length snd))%Z -> setcol1 k k [] snd = Ok snd.
Proof.
  intros H1 H2. unfold setcol1.
  rewrite setslice_empty by (rewrite ?col1_length; lia).
  cbn [bind]. rewrite combine_cols. reflexivity.
Qed.

Lemma setcol1_all (v : list R) (snd : Signal) :
  length v = length snd ->
  setcol1 0%Z (Z.of_nat (length snd)) v snd = Ok (combine (col0 snd) v).
Proof.
  intros H. unfold setcol1.
  rewrite <- (col1_length snd) at 1.
  rewrite setslice_all by (rewrite col1_length; exact H).
  reflexivity.
Qed.

Lemma ramped_no_ramp (amp : R) (nSamples : Z) (seg : Z -> Z -> list R)
    (snd : Signal) :
  (0 <= nSamples)%Z ->
  Z.of_nat (length snd) = nSamples ->
  seg 0%Z 0%Z = [] -> seg nSamples nSamples = [] ->
  length (seg 0%Z nSamples) = length snd ->
  ramped setcol1 amp 0%Z nSamples nSamples [] seg snd
  = Ok (combine (col0 snd) (smul amp (seg 0%Z nSamples))).
Proof.
  intros HS Hlen H0 HN Hseg. unfold ramped.
  rewrite H0. cbn [map bcast2 length Nat.eqb combine bind].
  rewrite setcol1_empty by lia. cbn [bind].
  rewrite Z.add_0_l. rewrite <- Hlen at 1.
  rewrite setcol1_all by (rewrite smul_length; exact Hseg).
  cbn [bind]. rewrite HN. cbn [map bcast2 length Nat.eqb combine bind].
  apply setcol1_empty; [lia |].
  rewrite length_combine, col0_length, smul_length, Hseg. lia.
Qed.

Lemma slice_empty {A : Type} (k : Z) (a : list A) : slice k k a = [].
Proof.
  unfold slice. rewrite Z.sub_diag. reflexivity.
Qed.

Lemma slice_all {A : Type} (a : list A) : slice 0%Z (Z.of_nat (length a)) a = a.
Proof.
  rewrite slice_in by lia. simpl. rewrite Z.sub_0_r, Nat2Z.id.
  apply firstn_all.
Qed.

(** The samples of a pure tone without ramps in the right channel: the
    left column is zero, the right one is [amp * sin(2*pi*f*k/fs + phase)]
    for k = 0, ..., nSamples-1. *)
Lemma pureTone_no_ramp_right (frequency phase level duration fs maxLevel : R) :
  0 <= duration -> 0 < fs ->
  pureTone frequency phase level duration 0 "Right" fs maxLevel
  = Ok (combine
          (repeat 0 (Z.to_nat (py_round (duration / 1000 * fs))))
          (map (fun k => py_pow 10 ((level - maxLevel) / 20)
                         * sin (2 * PI * frequency * (INR k / fs) + phase))
               (seq 0 (Z.to_nat (py_round (duration / 1000 * fs)))))).
Proof.
  intros Hd Hf.
  pose proof (nSamples_nonneg duration fs Hd Hf) as HS.
  unfold pureTone. cbn [channel_ok existsb String.eqb Ascii.eqb Bool.eqb negb orb].
  replace (0 / 1000 * fs) with (IZR 0) by lra. rewrite py_round_IZR.
  set (N := py_round (duration / 1000 * fs)) in *.
  replace (N + 0 * 2)%Z with N by lia.
  rewrite zeros_returns by lia. cbn [bind].
  rewrite sdiv_length, arange_length, Z2Nat.id by lia.
  change (arange 0) with (@nil R).
  rewrite ramped_no_ramp.
  - rewrite col0_repeat_zero. do 2 f_equal.
    rewrite <- (Z2Nat.id N) at 1 by lia.
    rewrite <- (arange_length N) at 1. rewrite <- (sdiv_length (arange N) fs) at 1.
    rewrite slice_all. unfold smul, sdiv, arange. rewrite !map_map. reflexivity.
  - lia.
  - rewrite repeat_length. lia.
  - rewrite slice_empty. reflexivity.
  - rewrite slice_empty. reflexivity.
  - rewrite length_map, slice_length, repeat_length.
    + f_equal. lia.
    + lia.
    + rewrite sdiv_length, arange_length. lia.
Qed.

(** ** The mean square of a sampled sinusoid *)

Lemma sum1_app (a b : list R) : sum1 (a ++ b) = sum1 a + sum1 b.
Proof.
  induction a as [| x a IH]; simpl; [lra | rewrite IH; lra].
Qed.

Lemma sum1_seq_S (f : nat -> R) (n : nat) :
  sum1 (map f (seq 0 (S n))) = sum1 (map f (seq 0 n)) + f n.
Proof.
  rewrite seq_S, map_app, sum1_app. simpl. lra.
Qed.

(** The sum of the cosines of the multiples of an angle, in closed form. *)
Lemma cos_sum_closed (phi : R) (n : nat) :
  2 * sin (phi / 2) * sum1 (map (fun k => cos (INR k * phi)) (seq 0 n))
  = sin ((INR n - 1 / 2) * phi) + sin (phi / 2).
Proof.
  induction n as [| n IH].
  - simpl. replace ((0 - 1 / 2) * phi) with (- (phi / 2)) by lra.
    rewrite sin_neg. lra.
  - rewrite sum1_seq_S, Rmult_plus_distr_l, IH, S_INR.
    replace ((INR n + 1 - 1 / 2) * phi) with (INR n * phi + phi / 2) by lra.
    replace ((INR n - 1 / 2) * phi) with (INR n * phi - phi / 2) by lra.
    rewrite sin_plus, sin_minus. lra.
Qed.

Lemma cos_sum_bound (phi : R) (n : nat) :
  sin (phi / 2) <> 0 ->
  Rabs (sum1 (map (fun k => cos (INR k * phi)) (seq 0 n)))
  <= 1 / Rabs (sin (phi / 2)).
Proof.
  intros HD.
  set (c := sum1 (map (fun k => cos (INR k * phi)) (seq 0 n))).
  pose proof (cos_sum_closed phi n) as E. fold c in E.
  pose proof (Rabs_pos_lt _ HD) as HposD.
  pose proof (SIN_bound ((INR n - 1 / 2) * phi)) as B1.
  pose proof (SIN_bound (phi / 2)) as B2.
  assert (H2 : Rabs (2 * sin (phi / 2) * c) <= 2).
  { rewrite E. apply Rabs_le. lra. }
  rewrite !Rabs_mult, (Rabs_pos_eq 2) in H2 by lra.
  apply (Rmult_le_reg_l (Rabs (sin (phi / 2)))); [exact HposD |].
  replace (Rabs (sin (phi / 2)) * (1 / Rabs (sin (phi / 2)))) with 1
    by (field; lra).
  lra.
Qed.

Lemma sin_square_sum (a : R) (theta : nat -> R) (n : nat) :
  sum1 (map (fun x => x * x) (map (fun k => a * sin (theta k)) (seq 0 n)))
  = a * a * (INR n / 2
             - sum1 (map (fun k => cos (2 * theta k)) (seq 0 n)) / 2).
Proof.
  induction n as [| n IH].
  - simpl. lra.
  - rewrite map_map in *. rewrite !sum1_seq_S, IH, S_INR, cos_2a_sin. lra.
Qed.

Lemma getRms_right_only (v : list R) :
  getRms (combine (repeat 0 (length v)) v)
  = sqrt (sum1 (map (fun x => x * x) v) / INR (2 * length v)).
Proof.
  rewrite getRms_eq.
  assert (L : length (repeat 0 (length v)) = length v) by apply repeat_length.
  unfold col0, col1. rewrite map_fst_combine, map_snd_combine by exact L.
  rewrite (sum1_squares_zero _ (Forall_repeat_zero _)), Rplus_0_l.
  rewrite length_combine, L, Nat.min_id. reflexivity.
Qed.

(** The square of the root mean square of a pure tone without ramps in the
    right channel is a quarter of the squared amplitude, up to an error
    that shrinks with the number of samples. *)
Lemma getRms_pureTone_bound (frequency level duration fs maxLevel : R) :
  0 <= duration -> 0 < fs ->
  (0 < py_round (duration / 1000 * fs))%Z ->
  sin (2 * PI * frequency / fs) <> 0 ->
  exists snd,
    pureTone frequency 0 level duration 0 "Right" fs maxLevel = Ok snd
    /\ Rabs (Rsqr (getRms snd) - Rsqr (py_pow 10 ((level - maxLevel) / 20) / 2))
       <= Rsqr (py_pow 10 ((level - maxLevel) / 20))
          / (4 * IZR (py_round (duration / 1000 * fs))
             * Rabs (sin (2 * PI * frequency / fs))).
Proof.
  intros Hd Hf HN HD.
  rewrite pureTone_no_ramp_right by assumption.
  eexists. split; [reflexivity |].
  set (amp := py_pow 10 ((level - maxLevel) / 20)).
  set (N := py_round (duration / 1000 * fs)) in *.
  set (n := Z.to_nat N).
  assert (Hn : INR n = IZR N).
  { unfold n. rewrite INR_IZR_INZ, Z2Nat.id; [reflexivity | lia]. }
  assert (HNpos : 0 < IZR N) by (apply IZR_lt; lia).
  set (v := map (fun k => amp * sin (2 * PI * frequency * (INR k / fs) + 0)) (seq 0 n)).
  assert (Lv : length v = n) by (unfold v; rewrite length_map, length_seq; reflexivity).
  rewrite <- Lv at 1. rewrite getRms_right_only, Lv.
  assert (H2n : INR (2 * n) = 2 * IZR N).
  { rewrite mult_INR, Hn. simpl. lra. }
  rewrite Rsqr_sqrt.
  2:{ apply Rmult_le_pos; [apply sum1_squares_nonneg |].
      apply Rlt_le, Rinv_0_lt_compat. rewrite H2n. lra. }
  unfold v. rewrite sin_square_sum, H2n, Hn.
  set (phi := 2 * (2 * PI * frequency / fs)).
  assert (Ec : map (fun k => cos (2 * (2 * PI * frequency * (INR k / fs) + 0))) (seq 0 n)
               = map (fun k => cos (INR k * phi)) (seq 0 n)).
  { apply map_ext. intros k. f_equal. unfold phi. field. lra. }
  rewrite Ec.
  set (c := sum1 (map (fun k => cos (INR k * phi)) (seq 0 n))).
  assert (Hc : Rabs c <= 1 / Rabs (sin (2 * PI * frequency / fs))).
  { unfold c. replace (2 * PI * frequency / fs) with (phi / 2) by (unfold phi; lra).
    apply cos_sum_bound. replace (phi / 2) with (2 * PI * frequency / fs)
      by (unfold phi; lra). exact HD. }
  pose proof (Rabs_pos_lt _ HD) as HposD.
  set (d := Rabs (sin (2 * PI * frequency / fs))) in *.
  replace (amp * amp * (IZR N / 2 - c / 2) / (2 * IZR N) - Rsqr (amp / 2))
    with (Rsqr amp / (4 * IZR N) * - c) by (unfold Rsqr; field; lra).
  replace (Rsqr amp / (4 * IZR N * d)) with (Rsqr amp / (4 * IZR N) * (1 / d))
    by (field; lra).
  assert (Hk : 0 <= Rsqr amp / (4 * IZR N)).
  { apply Rmult_le_pos; [apply Rle_0_sqr |].
    apply Rlt_le, Rinv_0_lt_compat. lra. }
  rewrite Rabs_mult, Rabs_Ropp, (Rabs_pos_eq _ Hk).
  apply Rmult_le_compat_l; assumption.
Qed.

Lemma py_pow_pos (a b : R) : 0 < py_pow a b.
Proof. unfold py_pow, Rpower. apply exp_pos. Qed.

Lemma getRms_nonneg (sig : Signal) : 0 <= getRms sig.
Proof. unfold getRms. apply sqrt_pos. Qed.

(** From squares to values: if [r >= 0], [a > 0] and the squares differ by
    at most [e], the values differ by at most [e / a]. *)
Lemma Rabs_from_squares (r a e : R) :
  0 <= r -> 0 < a -> Rabs (Rsqr r - Rsqr a) <= e -> Rabs (r - a) <= e / a.
Proof.
  intros Hr Ha He.
  replace (Rsqr r - Rsqr a) with ((r - a) * (r + a)) in He by (unfold Rsqr; ring).
  rewrite Rabs_mult, (Rabs_pos_eq (r + a)) in He by lra.
  pose proof (Rabs_pos (r - a)) as Hp.
  apply (Rmult_le_reg_r a); [exact Ha |].
  replace (e / a * a) with e by (field; lra).
  nra.
Qed.

(** C4, as the code has it.  The root mean square of a pure tone of phase
    0 without ramps in the right channel is close to half the amplitude
    10^((level-maxLevel)/20), and not to the amplitude over sqrt(2): for a
    frequency that is no multiple of fs/2 and N > 0 samples, the two
    differ by at most amplitude / (2 * N * |sin(2*pi*frequency/fs)|). *)
Theorem getRms_pureTone_half (frequency level duration fs maxLevel : R) :
  0 <= duration -> 0 < fs ->
  (0 < py_round (duration / 1000 * fs))%Z ->
  sin (2 * PI * frequency / fs) <> 0 ->
  exists snd,
    pureTone frequency 0 level duration 0 "Right" fs maxLevel = Ok snd
    /\ Rabs (getRms snd - py_pow 10 ((level - maxLevel) / 20) / 2)
       <= py_pow 10 ((level - maxLevel) / 20)
          / (2 * IZR (py_round (duration / 1000 * fs))
             * Rabs (sin (2 * PI * frequency / fs))).
Proof.
  intros Hd Hf HN HD.
  destruct (getRms_pureTone_bound frequency level duration fs maxLevel Hd Hf HN HD)
    as [snd [E B]].
  exists snd. split; [exact E |].
  pose proof (py_pow_pos 10 ((level - maxLevel) / 20)) as Ha.
  set (amp := py_pow 10 ((level - maxLevel) / 20)) in *.
  assert (HNpos : 0 < IZR (py_round (duration / 1000 * fs))) by (apply IZR_lt; lia).
  pose proof (Rabs_pos_lt _ HD) as HposD.
  apply (Rabs_from_squares _ (amp / 2)) in B; [| apply getRms_nonneg | lra].
  eapply Rle_trans; [exact B |]. apply Req_le.
  unfold Rsqr. field. lra.
Qed.

Lemma getRms_pureTone_half_witness :
  exists snd,
    pureTone 440 0 65 180 0 "Right" 48000 100 = Ok snd
    /\ Rabs (getRms snd - py_pow 10 ((65 - 100) / 20) / 2)
       <= py_pow 10 ((65 - 100) / 20)
          / (2 * IZR (py_round (180 / 1000 * 48000))
             * Rabs (sin (2 * PI * 440 / 48000))).
Proof.
  apply (getRms_pureTone_half 440 65 180 48000 100).
  - lra.
  - lra.
  - replace (180 / 1000 * 48000) with (IZR 8640) by lra.
    rewrite py_round_IZR. reflexivity.
  - apply Rgt_not_eq. pose proof PI_RGT_0 as HPI.
    apply sin_gt_0; lra.
Defined.

(** C4, as the description has it, fails: for four samples of a tone at a
    quarter of the sampling rate and unit amplitude, the root mean square
    stays more than a tenth below amplitude / sqrt(2). *)
Lemma getRms_pureTone_not_over_sqrt2 :
  exists snd,
    pureTone 250 0 100 4 0 "Right" 1000 100 = Ok snd
    /\ getRms snd < py_pow 10 ((100 - 100) / 20) / sqrt 2 - 1 / 10.
Proof.
  assert (HN : py_round (4 / 1000 * 1000) = 4%Z).
  { replace (4 / 1000 * 1000) with (IZR 4) by lra. apply py_round_IZR. }
  assert (HS : sin (2 * PI * 250 / 1000) = 1).
  { replace (2 * PI * 250 / 1000) with (PI / 2) by lra. apply sin_PI2. }
  assert (HA : py_pow 10 ((100 - 100) / 20) = 1).
  { replace ((100 - 100) / 20) with 0 by lra. unfold py_pow. apply Rpower_O. lra. }
  destruct (getRms_pureTone_bound 250 100 4 1000 100) as [snd [E B]].
  - lra.
  - lra.
  - rewrite HN. reflexivity.
  - rewrite HS. lra.
  - exists snd. split; [exact E |].
    rewrite HN, HS, HA in B. rewrite HA.
    pose proof (getRms_nonneg snd) as Hr.
    set (r := getRms snd) in *.
    rewrite Rabs_R1 in B. unfold Rsqr in B.
    pose proof (Rle_abs (r * r - 1 / 2 * (1 / 2))) as Hle.
    assert (Hr56 : r < 56 / 100) by nra.
    pose proof (sqrt_pos 2) as Hs0.
    pose proof (sqrt_sqrt 2 ltac:(lra)) as Hs2.
    assert (Hs : 0 < sqrt 2 < 10 / 7) by nra.
    assert (H7 : 7 / 10 < 1 / sqrt 2).
    { apply (Rmult_lt_reg_r (sqrt 2)); [lra |].
      replace (1 / sqrt 2 * sqrt 2) with 1 by (field; lra). lra. }
    lra.
Qed.

(** ** imposeLevelGlide *)

Lemma norm_index_range (n i : Z) : (0 <= n)%Z -> (0 <= norm_index n i <= n)%Z.
Proof.
  intros Hn. unfold norm_index. destruct (Z.ltb_spec i 0); lia.
Qed.

Lemma slice_length_norm {A : Type} (lo hi : Z) (a : list A) :
  length (slice lo hi a)
  = Z.to_nat (norm_index (Z.of_nat (length a)) hi
              - norm_index (Z.of_nat (length a)) lo).
Proof.
  unfold slice.
  pose proof (norm_index_range (Z.of_nat (length a)) lo ltac:(lia)) as Hlo.
  pose proof (norm_index_range (Z.of_nat (length a)) hi ltac:(lia)) as Hhi.
  rewrite length_firstn, length_skipn. lia.
Qed.

(** An assignment of as many values as the slice has never fails. *)
Lemma setslice_fits (lo hi : Z) (v a : list R) :
  length v = length (slice lo hi a) ->
  exists c, setslice lo hi v a = Ok c.
Proof.
  intros H. rewrite slice_length_norm in H. unfold setslice.
  rewrite (proj2 (Nat.eqb_eq _ _) H). eexists. reflexivity.
Qed.

Lemma ones_returns (n : nat) : ones (Z.of_nat n) = Ok (repeat 1 n).
Proof.
  unfold ones. destruct (Z.ltb_spec (Z.of_nat n) 0); [lia |].
  rewrite Nat2Z.id. reflexivity.
Qed.

Lemma zeros_of_nat (n : nat) : zeros (Z.of_nat n) = Ok (repeat (0, 0) n).
Proof.
  rewrite zeros_returns by lia. rewrite Nat2Z.id. reflexivity.
Qed.

(** A level change that is not zero is an amplitude factor other than 1. *)
Lemma endAmp_not_one (deltaL : R) : deltaL <> 0 -> 1 - py_pow 10 (deltaL / 20) <> 0.
Proof.
  intros Hd H. apply Hd.
  assert (E : py_pow 10 (deltaL / 20) = exp 0) by (rewrite exp_0; lra).
  unfold py_pow, Rpower in E. apply exp_inv in E.
  assert (Hln : 0 < ln 10).
  { rewrite <- ln_1. apply ln_increasing; lra. }
  assert (Hq : deltaL / 20 = 0).
  { apply (Rmult_eq_reg_r (ln 10)); lra. }
  lra.
Qed.

(** The amplitude array of [imposeLevelGlide], when the two slice
    assignments succeed, has one entry for each row. *)
Lemma bcast2_col_returns (c a : list R) :
  length c = length a -> exists v, bcast2 Rmult c a = Ok v /\ length v = length c.
Proof. apply bcast2_same_length. Qed.

Section LevelGlide.

Variables (sig : Signal) (deltaL startTime endTime fs : R).

Hypothesis deltaL_nonzero : deltaL <> 0.

Let startPnt := py_round (startTime / 1000 * fs).
Let endPnt := py_round (endTime / 1000 * fs).

Lemma imposeLevelGlide_unfold (channel : string) :
  imposeLevelGlide sig deltaL startTime endTime channel fs
  = (ampArray <- glideAmps sig deltaL startPnt endPnt ;;
     snd <- zeros (Z.of_nat (length (col0 sig))) ;;
     if String.eqb channel "Right" then
       v <- bcast2 Rmult (col1 sig) ampArray ;;
       setcol1 0%Z (nrows snd) v snd
     else if String.eqb channel "Left" then
       v <- bcast2 Rmult (col0 sig) ampArray ;;
       setcol0 0%Z (nrows snd) v snd
     else if String.eqb channel "Both" then
       v <- bcast2 Rmult (col1 sig) ampArray ;;
       snd <- setcol1 0%Z (nrows snd) v snd ;;
       v <- bcast2 Rmult (col0 sig) ampArray ;;
       setcol0 0%Z (nrows snd) v snd
     else Ok snd).
Proof.
  unfold imposeLevelGlide, glideAmps.
  destruct (Req_dec_T deltaL 0) as [E | _]; [contradiction |].
  destruct (Req_dec_T (1 - py_pow 10 (deltaL / 20)) 0) as [E | _].
  { exfalso. exact (endAmp_not_one deltaL deltaL_nonzero E). }
  fold startPnt endPnt.
  destruct (ones (Z.of_nat (length (col0 sig)))) as [a0 |]; [| reflexivity].
  cbn [bind].
  destruct (setslice startPnt endPnt _ a0) as [a1 |]; [| reflexivity].
  cbn [bind].
  destruct (setslice endPnt _ _ a1) as [a2 |]; reflexivity.
Qed.

Lemma glideAmps_length (amps : list R) :
  glideAmps sig deltaL startPnt endPnt = Ok amps -> length amps = length sig.
Proof.
  unfold glideAmps. rewrite ones_returns. cbn [bind].
  destruct (setslice startPnt endPnt _ _) as [a1 |] eqn:E1; [| discriminate].
  cbn [bind]. intros E2.
  apply setslice_length in E1, E2.
  rewrite E2, E1, repeat_length. apply col0_length.
Qed.

Lemma glideAmps_returns :
  (0 <= startPnt <= endPnt)%Z -> (endPnt <= nrows sig)%Z ->
  exists amps, glideAmps sig deltaL startPnt endPnt = Ok amps.
Proof.
  intros H1 H2. unfold nrows in H2. unfold glideAmps.
  rewrite ones_returns. cbn [bind].
  rewrite setslice_in; try assumption.
  - cbn [bind]. apply setslice_fits. apply repeat_length.
  - rewrite repeat_length, col0_length. exact H2.
  - rewrite length_map, arange_length. reflexivity.
Qed.

Lemma imposeLevelGlide_right_frame (snd : Signal) :
  imposeLevelGlide sig deltaL startTime endTime "Right" fs = Ok snd ->
  length snd = length sig /\ Forall (fun x => x = 0) (col0 snd).
Proof.
  rewrite imposeLevelGlide_unfold. rewrite zeros_of_nat.
  destruct (glideAmps sig deltaL startPnt endPnt) as [amps |]; [| discriminate].
  cbn [bind String.eqb Ascii.eqb Bool.eqb].
  destruct (bcast2 Rmult (col1 sig) amps) as [v |]; [| discriminate].
  cbn [bind]. intros E. apply setcol1_frame in E. destruct E as [L K].
  rewrite L, K, repeat_length, col0_length, col0_repeat_zero.
  split; [reflexivity | apply Forall_repeat_zero].
Qed.

Lemma imposeLevelGlide_left_frame (snd : Signal) :
  imposeLevelGlide sig deltaL startTime endTime "Left" fs = Ok snd ->
  length snd = length sig /\ Forall (fun x => x = 0) (col1 snd).
Proof.
  rewrite imposeLevelGlide_unfold. rewrite zeros_of_nat.
  destruct (glideAmps sig deltaL startPnt endPnt) as [amps |]; [| discriminate].
  cbn [bind String.eqb Ascii.eqb Bool.eqb].
  destruct (bcast2 Rmult (col0 sig) amps) as [v |]; [| discriminate].
  cbn [bind]. intros E. apply setcol0_frame in E. destruct E as [L K].
  rewrite L, K, repeat_length, col0_length, col1_repeat_zero.
  split; [reflexivity | apply Forall_repeat_zero].
Qed.

Lemma imposeLevelGlide_right_returns :
  (0 <= startPnt <= endPnt)%Z -> (endPnt <= nrows sig)%Z ->
  exists snd, imposeLevelGlide sig deltaL startTime endTime "Right" fs = Ok snd.
Proof.
  intros H1 H2. rewrite imposeLevelGlide_unfold.
  destruct (glideAmps_returns H1 H2) as [amps Ea]. rewrite Ea.
  apply glideAmps_length in Ea. rewrite zeros_of_nat.
  cbn [bind String.eqb Ascii.eqb Bool.eqb].
  destruct (bcast2_col_returns (col1 sig) amps) as [v [Ev Lv]].
  { rewrite col1_length. congruence. }
  rewrite Ev. cbn [bind]. unfold nrows.
  apply setcol1_returns; rewrite ?repeat_length, ?col0_length; try lia.
  rewrite Lv, col1_length. lia.
Qed.

Lemma imposeLevelGlide_left_returns :
  (0 <= startPnt <= endPnt)%Z -> (endPnt <= nrows sig)%Z ->
  exists snd, imposeLevelGlide sig deltaL startTime endTime "Left" fs = Ok snd.
Proof.
  intros H1 H2. rewrite imposeLevelGlide_unfold.
  destruct (glideAmps_returns H1 H2) as [amps Ea]. rewrite Ea.
  apply glideAmps_length in Ea. rewrite zeros_of_nat.
  cbn [bind String.eqb Ascii.eqb Bool.eqb].
  destruct (bcast2_col_returns (col0 sig) amps) as [v [Ev Lv]].
  { rewrite col0_length. congruence. }
  rewrite Ev. cbn [bind]. unfold nrows.
  apply setcol0_returns; rewrite ?repeat_length, ?col0_length; try lia.
  rewrite Lv, col0_length. lia.
Qed.

End LevelGlide.

(** C9.  With a level change that is not zero, whatever [imposeLevelGlide]
    returns for the channel "Right" has as many rows as the input and a
    left column of zeros, the input's left column being dropped; likewise
    the right column for the channel "Left".  It does return when the
    transition lies inside the sound. *)
Theorem imposeLevelGlide_other_channel_zero (sig : Signal)
    (deltaL startTime endTime fs : R) :
  deltaL <> 0 ->
  (forall snd,
      imposeLevelGlide sig deltaL startTime endTime "Right" fs = Ok snd ->
      nrows snd = nrows sig /\ Forall (fun x => x = 0) (col0 snd))
  /\ (forall snd,
      imposeLevelGlide sig deltaL startTime endTime "Left" fs = Ok snd ->
      nrows snd = nrows sig /\ Forall (fun x => x = 0) (col1 snd))
  /\ ((0 <= py_round (startTime / 1000 * fs) <= py_round (endTime / 1000 * fs))%Z ->
      (py_round (endTime / 1000 * fs) <= nrows sig)%Z ->
      (exists snd, imposeLevelGlide sig deltaL startTime endTime "Right" fs = Ok snd)
      /\ (exists snd, imposeLevelGlide sig deltaL startTime endTime "Left" fs = Ok snd)).
Proof.
  intros Hd. repeat split.
  - unfold nrows. f_equal.
    apply (imposeLevelGlide_right_frame sig deltaL startTime endTime fs Hd snd H).
  - apply (imposeLevelGlide_right_frame sig deltaL startTime endTime fs Hd snd H).
  - unfold nrows. f_equal.
    apply (imposeLevelGlide_left_frame sig deltaL startTime endTime fs Hd snd H).
  - apply (imposeLevelGlide_left_frame sig deltaL startTime endTime fs Hd snd H).
  - apply imposeLevelGlide_right_returns; assumption.
  - apply imposeLevelGlide_left_returns; assumption.
Qed.

Lemma imposeLevelGlide_other_channel_zero_witness :
  (forall snd,
      imposeLevelGlide [(1, 2); (3, 4)] 10 0 1000 "Right" 2 = Ok snd ->
      nrows snd = nrows [(1, 2); (3, 4)] /\ Forall (fun x => x = 0) (col0 snd))
  /\ (forall snd,
      imposeLevelGlide [(1, 2); (3, 4)] 10 0 1000 "Left" 2 = Ok snd ->
      nrows snd = nrows [(1, 2); (3, 4)] /\ Forall (fun x => x = 0) (col1 snd))
  /\ ((0 <= py_round (0 / 1000 * 2) <= py_round (1000 / 1000 * 2))%Z ->
      (py_round (1000 / 1000 * 2) <= nrows [(1, 2); (3, 4)]%R)%Z ->
      (exists snd, imposeLevelGlide [(1, 2); (3, 4)] 10 0 1000 "Right" 2 = Ok snd)
      /\ (exists snd, imposeLevelGlide [(1, 2); (3, 4)] 10 0 1000 "Left" 2 = Ok snd)).
Proof.
  apply (imposeLevelGlide_other_channel_zero [(1, 2); (3, 4)] 10 0 1000 2). lra.
Defined.

(** The transition of the example above lies inside the sound, so the
    function returns there. *)
Lemma imposeLevelGlide_example_points :
  (0 <= py_round (0 / 1000 * 2) <= py_round (1000 / 1000 * 2))%Z
  /\ (py_round (1000 / 1000 * 2) <= nrows [(1, 2); (3, 4)]%R)%Z.
Proof.
  replace (0 / 1000 * 2) with (IZR 0) by lra.
  replace (1000 / 1000 * 2) with (IZR 2) by lra.
  rewrite !py_round_IZR. unfold nrows. simpl. lia.
Qed.

(** ** makeHuggins *)

Lemma zrange_In (lo hi i : Z) : In i (zrange lo hi) <-> (lo <= i < hi)%Z.
Proof.
  unfold zrange. rewrite in_map_iff. split.
  - intros [k [<- Hk]]. apply in_seq in Hk. lia.
  - intros H. exists (Z.to_nat (i - lo)). split; [lia |].
    apply in_seq. lia.
Qed.

(** The loop of [makeHuggins] without the branch of [i == highHarm + 1]. *)
Lemma hugginsStep_guard (highHarm lowHarm i : Z) :
  In i (zrange lowHarm (highHarm + 1)) -> (i =? highHarm + 1)%Z = false.
Proof.
  intros H. apply zrange_In in H. apply Z.eqb_neq. lia.
Qed.

Lemma fold_left_ext_in {A B : Type} (f g : A -> B -> A) (l : list B) (a : A) :
  (forall x b, In b l -> f x b = g x b) -> fold_left f l a = fold_left g l a.
Proof.
  revert a. induction l as [| b l IH]; intros a H; simpl; [reflexivity |].
  rewrite H by (left; reflexivity). apply IH.
  intros x b' Hb. apply H. right. exact Hb.
Qed.

Lemma fold_left_map_list {A B D : Type} (f : A -> B -> A) (g : D -> B)
    (l : list D) (a : A) :
  fold_left f (map g l) a = fold_left (fun x d => f x (g d)) l a.
Proof.
  revert a. induction l as [| d l IH]; intros a; simpl; [reflexivity | apply IH].
Qed.

Lemma npisoBands_upper (F0 bandwidth : R) (lowHarm highHarm : Z) :
  Forall (fun b => exists i, (lowHarm <= i <= highHarm)%Z
                             /\ snd b = IZR i * F0 - bandwidth / 2)
         (npisoBands F0 bandwidth lowHarm highHarm).
Proof.
  unfold npisoBands. apply Forall_forall. intros b Hb.
  apply in_map_iff in Hb. destruct Hb as [i [<- Hi]].
  apply zrange_In in Hi. exists i. split; [lia |].
  destruct (i =? lowHarm)%Z; reflexivity.
Qed.

(** C10.  In the "NpiSo" loop of [makeHuggins] the test
    [i == highHarm + 1] is false for every index of the loop, so the loop
    is the shift of the bands from 10 Hz to the lowest band and between
    consecutive bands, each of which ends at the lower edge of a band
    lowHarm..highHarm: no band from above the highest band up to fs/2 is
    shifted. *)
Theorem makeHuggins_top_branch_dead
    (ps : Signal -> R -> R -> R -> string -> R -> result Signal)
    (F0 bandwidth fs : R) (lowHarm highHarm : Z) (tone : Signal) :
  (forall i, In i (zrange lowHarm (highHarm + 1)) ->
             (lowHarm <= i <= highHarm)%Z /\ (i =? highHarm + 1)%Z = false)
  /\ hugginsLoop ps F0 bandwidth fs "NpiSo" lowHarm highHarm tone
     = applyBands ps fs (npisoBands F0 bandwidth lowHarm highHarm) tone
  /\ Forall (fun b => exists i, (lowHarm <= i <= highHarm)%Z
                                /\ snd b = IZR i * F0 - bandwidth / 2)
            (npisoBands F0 bandwidth lowHarm highHarm).
Proof.
  split; [| split].
  - intros i Hi. split; [apply zrange_In in Hi; lia |].
    apply (hugginsStep_guard highHarm lowHarm i Hi).
  - unfold hugginsLoop, applyBands, npisoBands.
    rewrite fold_left_map_list. apply fold_left_ext_in.
    intros acc i Hi. unfold hugginsStep.
    cbn [String.eqb Ascii.eqb Bool.eqb].
    rewrite (hugginsStep_guard highHarm lowHarm i Hi).
    destruct acc as [t |]; [| reflexivity]. cbn [bind].
    destruct (i =? lowHarm)%Z; reflexivity.
  - apply npisoBands_upper.
Qed.

(** With [lowHarm <= highHarm] the loop runs: the first band is the one
    from 10 Hz. *)
Lemma npisoBands_first (F0 bandwidth : R) (lowHarm highHarm : Z) :
  (lowHarm <= highHarm)%Z ->
  hd_error (npisoBands F0 bandwidth lowHarm highHarm)
  = Some (10, IZR lowHarm * F0 - bandwidth / 2).
Proof.
  intros H. unfold npisoBands, zrange.
  replace (Z.to_nat (highHarm + 1 - lowHarm)) with (S (Z.to_nat (highHarm - lowHarm)))
    by lia.
  cbn [seq map hd_error]. rewrite Z.add_0_r, Z.eqb_refl. reflexivity.
Qed.

(** ** addSounds *)

(** C7 at a delay that falls half way between two samples.  Two sounds of
    one row at 2 Hz, the second delayed by 1250 ms, that is 2.5 samples:
    [round(2.5)] is 2, which is not below the length of the first sound,
    so the gap is the silence of (1.25 - 0.5) s, of [round(1.5)] = 2 rows.
    The result has 4 rows, and max(len(snd1), round(delay/1000*fs) +
    len(snd2)) is 3. *)
Theorem addSounds_tie_delay :
  addSounds [(1, 1)] [(2, 2)] 1250 2 = Ok [(1, 1); (0, 0); (0, 0); (2, 2)]
  /\ Z.max (nrows [(1, 1)]%R) (py_round (1250 / 1000 * 2) + nrows [(2, 2)]%R) = 3%Z.
Proof.
  assert (H1 : py_round (1250 / 1000 * 2) = 2%Z).
  { replace (1250 / 1000 * 2) with (IZR 2 + 1 / 2) by lra.
    rewrite py_round_half. reflexivity. }
  split.
  - unfold addSounds.
    destruct (Req_dec_T 2 0) as [E | _]; [exfalso; lra |].
    rewrite H1. cbn [col1 map length Z.of_nat Pos.of_succ_nat Z.ltb Z.compare
                     Pos.compare Pos.compare_cont].
    unfold makeSilence.
    replace ((1250 / 1000 - 1 / 2) * 1000 / 1000 * 2) with (IZR 1 + 1 / 2) by lra.
    rewrite py_round_half. reflexivity.
  - rewrite H1. reflexivity.
Qed.

Lemma addPad_nil_r (a : Signal) : addPad a [] = a.
Proof. destruct a; reflexivity. Qed.

Lemma addPad_length (a b : Signal) :
  length (addPad a b) = Nat.max (length a) (length b).
Proof.
  revert b. induction a as [| x a IH]; intros [| y b]; simpl; try reflexivity.
  rewrite IH. reflexivity.
Qed.

Lemma mixAt_length (d : nat) (a b : Signal) :
  length (mixAt d a b) = Nat.max (length a) (d + length b).
Proof.
  revert a. induction d as [| d IH]; intros a; simpl.
  - apply addPad_length.
  - destruct a as [| x a]; simpl; rewrite IH; simpl; lia.
Qed.

Lemma mixAt_split (d : nat) (a b : Signal) :
  (d <= length a)%nat -> mixAt d a b = firstn d a ++ addPad (skipn d a) b.
Proof.
  revert a. induction d as [| d IH]; intros a H; simpl; [reflexivity |].
  destruct a as [| x a]; simpl in *; [lia |].
  rewrite IH by lia. reflexivity.
Qed.

Lemma mixAt_gap (d : nat) (a b : Signal) :
  (length a <= d)%nat -> mixAt d a b = a ++ repeat (0, 0) (d - length a) ++ b.
Proof.
  revert a. induction d as [| d IH]; intros a H; simpl.
  - destruct a; simpl in *; [reflexivity | lia].
  - destruct a as [| x a]; simpl in *.
    + rewrite IH by (simpl; lia). simpl. rewrite Nat.sub_0_r. reflexivity.
    + rewrite IH by lia. reflexivity.
Qed.

Lemma addSig_same (a b : Signal) :
  length a = length b ->
  addSig a b
  = Ok (map (fun p => (fst (fst p) + fst (snd p), snd (fst p) + snd (snd p)))
            (combine a b)).
Proof.
  intros H. unfold addSig. rewrite (proj2 (Nat.eqb_eq _ _) H). reflexivity.
Qed.

(** The sum with the shorter sound padded by zeros at the end. *)
Lemma add_padded (a b : Signal) (k : nat) :
  length a = (length b + k)%nat ->
  map (fun p => (fst (fst p) + fst (snd p), snd (fst p) + snd (snd p)))
      (combine a (b ++ repeat (0, 0) k))
  = addPad a b.
Proof.
  revert b k. induction a as [| [l r] a IH]; intros b k H.
  - destruct b; simpl in *; [| lia]. destruct k; [reflexivity | simpl in H; lia].
  - destruct b as [| [l' r'] b]; simpl in *.
    + destruct k as [| k]; [lia |]. simpl.
      rewrite !Rplus_0_r. f_equal.
      specialize (IH [] k ltac:(simpl; lia)). simpl in IH. rewrite IH.
      apply addPad_nil_r.
    + f_equal. apply IH. lia.
Qed.

(** The sum with the head of the longer sound, followed by its tail. *)
Lemma add_head_tail (a b : Signal) :
  (length a <= length b)%nat ->
  map (fun p => (fst (fst p) + fst (snd p), snd (fst p) + snd (snd p)))
      (combine a (firstn (length a) b))
  ++ skipn (length a) b
  = addPad a b.
Proof.
  revert b. induction a as [| x a IH]; intros b H; simpl.
  - reflexivity.
  - destruct b as [| y b]; simpl in *; [lia |].
    f_equal. apply IH. lia.
Qed.

(** The branch of [addSounds] in which the second sound starts inside the
    first one. *)
Lemma addSounds_overlap (snd1 snd2 : Signal) (delay fs : R) :
  fs <> 0 ->
  (0 <= py_round (delay / 1000 * fs) < nrows snd1)%Z ->
  addSounds snd1 snd2 delay fs
  = Ok (mixAt (Z.to_nat (py_round (delay / 1000 * fs))) snd1 snd2).
Proof.
  intros Hfs Hd. unfold nrows in Hd. unfold addSounds.
  destruct (Req_dec_T fs 0) as [E | _]; [contradiction |].
  rewrite !col1_length.
  set (d := py_round (delay / 1000 * fs)) in *.
  destruct (Z.ltb_spec d (Z.of_nat (length snd1))) as [_ | Hge]; [| lia].
  rewrite mixAt_split by lia.
  assert (Hseg1 : slice 0%Z d snd1 = firstn (Z.to_nat d) snd1).
  { rewrite slice_in by lia. rewrite Z.sub_0_r. reflexivity. }
  assert (Hseg2a : slice d (Z.of_nat (length snd1)) snd1 = skipn (Z.to_nat d) snd1).
  { rewrite slice_in by lia. apply firstn_all2. rewrite length_skipn. lia. }
  assert (La : length (skipn (Z.to_nat d) snd1) = Z.to_nat (Z.of_nat (length snd1) - d)).
  { rewrite length_skipn. lia. }
  rewrite Hseg1, Hseg2a. unfold concatenate.
  destruct (Z.gtb_spec (Z.of_nat (length snd1) - d) (Z.of_nat (length snd2)))
    as [Hgt | Hle].
  - rewrite zeros_returns by lia. cbn [bind].
    rewrite addSig_same by (rewrite length_app, repeat_length, La; lia).
    cbn [bind].
    destruct (Z.ltb_spec (Z.of_nat (length snd1) - d) (Z.of_nat (length snd2)));
      [lia |].
    rewrite add_padded by (rewrite La; lia). reflexivity.
  - cbn [bind].
    assert (Hb : slice 0%Z (Z.of_nat (length snd1) - d) snd2
                 = firstn (length (skipn (Z.to_nat d) snd1)) snd2).
    { rewrite slice_in by lia. rewrite Z.sub_0_r, La. reflexivity. }
    assert (Hc : slice (Z.of_nat (length snd1) - d) (Z.of_nat (length snd2)) snd2
                 = skipn (length (skipn (Z.to_nat d) snd1)) snd2).
    { rewrite slice_in by lia. rewrite La. apply firstn_all2.
      rewrite length_skipn. lia. }
    rewrite Hb, Hc.
    rewrite addSig_same by (rewrite length_firstn, La; lia).
    cbn [bind].
    rewrite <- (add_head_tail (skipn (Z.to_nat d) snd1) snd2) by (rewrite La; lia).
    destruct (Z.ltb_spec (Z.of_nat (length snd1) - d) (Z.of_nat (length snd2)))
      as [Hlt | Hge2].
    + rewrite app_assoc. reflexivity.
    + rewrite (skipn_all2 (n := length (skipn (Z.to_nat d) snd1)) snd2)
        by (rewrite La; lia).
      rewrite !app_nil_r. reflexivity.
Qed.

(** Off the ties, rounding commutes with the subtraction of an integer. *)
Lemma py_round_minus_int (x : R) (n : Z) :
  frac_part x <> 1 / 2 -> py_round (x - IZR n) = (py_round x - n)%Z.
Proof.
  intros Hx.
  assert (HI : Int_part (x - IZR n) = (Int_part x - n)%Z).
  { symmetry. apply Int_part_spec. destruct (base_Int_part x) as [H1 H2].
    rewrite minus_IZR. split; lra. }
  assert (HF : frac_part (x - IZR n) = frac_part x).
  { unfold frac_part. rewrite HI, minus_IZR. lra. }
  unfold py_round. rewrite HF, HI.
  destruct (Rlt_dec (frac_part x) (1 / 2)) as [Hl | Hl]; [reflexivity |].
  destruct (Rlt_dec (1 / 2) (frac_part x)) as [Hg | Hg]; [lia |].
  exfalso. lra.
Qed.

(** The branch of [addSounds] in which the second sound starts at or
    after the end of the first one, for a delay that is not half way
    between two samples. *)
Lemma addSounds_gap (snd1 snd2 : Signal) (delay fs : R) :
  fs <> 0 ->
  (nrows snd1 <= py_round (delay / 1000 * fs))%Z ->
  frac_part (delay / 1000 * fs) <> 1 / 2 ->
  addSounds snd1 snd2 delay fs
  = Ok (mixAt (Z.to_nat (py_round (delay / 1000 * fs))) snd1 snd2).
Proof.
  intros Hfs Hd Htie. unfold nrows in Hd. unfold addSounds.
  destruct (Req_dec_T fs 0) as [E | _]; [contradiction |].
  rewrite !col1_length.
  destruct (Z.ltb_spec (py_round (delay / 1000 * fs)) (Z.of_nat (length snd1)));
    [lia |].
  unfold makeSilence.
  replace ((delay / 1000 - IZR (Z.of_nat (length snd1)) / fs) * 1000 / 1000 * fs)
    with (delay / 1000 * fs - IZR (Z.of_nat (length snd1))) by (field; exact Hfs).
  rewrite py_round_minus_int by exact Htie.
  rewrite zeros_returns by lia. cbn [bind]. unfold concatenate.
  rewrite mixAt_gap by lia.
  replace (Z.to_nat (py_round (delay / 1000 * fs) - Z.of_nat (length snd1)))
    with (Z.to_nat (py_round (delay / 1000 * fs)) - length snd1)%nat by lia.
  rewrite <- app_assoc. reflexivity.
Qed.

(** Off the ties, [addSounds] is the overlay at [round(delay/1000*fs)]
    rows, of max(len(snd1), round(delay/1000*fs) + len(snd2)) rows. *)
Lemma addSounds_mix (snd1 snd2 : Signal) (delay fs : R) :
  0 < fs -> 0 <= delay ->
  frac_part (delay / 1000 * fs) <> 1 / 2 ->
  exists snd,
    addSounds snd1 snd2 delay fs = Ok snd
    /\ snd = mixAt (Z.to_nat (py_round (delay / 1000 * fs))) snd1 snd2
    /\ nrows snd = Z.max (nrows snd1) (py_round (delay / 1000 * fs) + nrows snd2).
Proof.
  intros Hfs Hd Htie.
  assert (H0 : (0 <= py_round (delay / 1000 * fs))%Z).
  { apply py_round_nonneg. apply Rmult_le_pos; lra. }
  eexists. split; [| split; [reflexivity |]].
  - destruct (Z.lt_ge_cases (py_round (delay / 1000 * fs)) (nrows snd1)).
    + apply addSounds_overlap; [lra | lia].
    + apply addSounds_gap; [lra | lia | exact Htie].
  - unfold nrows. rewrite mixAt_length. lia.
Qed.

(** With no delay [addSounds] is the sum of the two sounds, the shorter
    one padded with silence. *)
Lemma addSounds_no_delay (snd1 snd2 : Signal) (fs : R) :
  0 < fs ->
  addSounds snd1 snd2 0 fs = Ok (addPad snd1 snd2)
  /\ nrows (addPad snd1 snd2) = Z.max (nrows snd1) (nrows snd2).
Proof.
  intros Hfs. split.
  - assert (Htie : frac_part (0 / 1000 * fs) <> 1 / 2).
    { replace (0 / 1000 * fs) with (IZR 0) by lra. rewrite frac_part_IZR. lra. }
    destruct (addSounds_mix snd1 snd2 0 fs Hfs ltac:(lra) Htie) as [s [E [M _]]].
    rewrite E, M. replace (0 / 1000 * fs) with (IZR 0) by lra.
    rewrite py_round_IZR. reflexivity.
  - unfold nrows. rewrite addPad_length. lia.
Qed.

(** ** complexTone and complexToneParallel *)

Lemma zrange_one (i : Z) : zrange i (i + 1) = [i].
Proof.
  unfold zrange. replace (i + 1 - i)%Z with 1%Z by lia.
  simpl. rewrite Z.add_0_r. reflexivity.
Qed.

Lemma py_pow_unit : py_pow 10 ((100 - 100) / 20) = 1.
Proof.
  replace ((100 - 100) / 20) with 0 by lra. unfold py_pow. apply Rpower_O. lra.
Qed.

Lemma complexTone_alternating_first (rand : Z -> R) :
  exists a,
    complexTone rand 250 "Alternating" 1 1 0 100 4 0 "Right" 1000 100 = Ok a
    /\ hd_error a = Some (0, 1).
Proof.
  unfold complexTone.
  replace (4 / 1000 * 1000) with (IZR 4) by lra.
  replace (0 / 1000 * 1000) with (IZR 0) by lra.
  rewrite !py_round_IZR, py_pow_unit.
  change (4 + 0 * 2)%Z with 4%Z. change (1 + 1)%Z with 2%Z.
  change (zrange 1 2) with [1%Z].
  rewrite zeros_returns by lia. unfold zeros1.
  cbn [Z.ltb Z.compare bind fold_left].
  unfold harmStep, partialOf.
  cbn [bind String.eqb Ascii.eqb Bool.eqb].
  change (is_odd 1) with true. change (chan_single "Right") with true.
  cbn [bind tone toneOdd toneEven].
  rewrite bcast2_same
    by (rewrite repeat_length, length_map, sdiv_length, arange_length; reflexivity).
  cbn [bind tone].
  rewrite sdiv_length, arange_length.
  change (arange 0) with (@nil R). change (Z.of_nat (Z.to_nat 4)) with 4%Z.
  rewrite ramped_no_ramp.
  - eexists. split; [reflexivity |].
    unfold arange, slice. change (Z.to_nat 4) with 4%nat.
    simpl.
    replace (2 * PI * (250 * 1 + 250 * 0 / 100) * (0 / 1000)) with 0 by field.
    rewrite cos_0. do 2 f_equal. lra.
  - lia.
  - reflexivity.
  - apply slice_empty.
  - apply slice_empty.
  - reflexivity.
Qed.

Lemma complexToneParallel_alternating_first (rand : Z -> R) :
  exists b,
    complexToneParallel rand 250 "Alternating" 1 1 0 100 4 0 "Right" 1000 100 = Ok b
    /\ hd_error b = Some (0, 0).
Proof.
  unfold complexToneParallel.
  replace (4 / 1000 * 1000) with (IZR 4) by lra.
  replace (0 / 1000 * 1000) with (IZR 0) by lra.
  rewrite !py_round_IZR.
  change (4 + 0 * 2)%Z with 4%Z. change (1 + 1)%Z with 2%Z.
  change (zrange 1 2) with [1%Z].
  rewrite zeros_returns by lia.
  cbn [bind fold_left].
  unfold submitStep, thisPhaseOf, thisChanOf.
  cbn [bind String.eqb Ascii.eqb Bool.eqb].
  change (is_odd 1) with true. change (chan_single "Right") with true.
  cbn [bind].
  rewrite pureTone_no_ramp_right by lra.
  replace (4 / 1000 * 1000) with (IZR 4) by lra.
  rewrite py_round_IZR, py_pow_unit.
  cbn [app fold_left bind].
  change (Z.to_nat 4) with 4%nat.
  rewrite addSig_same by reflexivity.
  eexists. split; [reflexivity |].
  simpl.
  replace (2 * PI * (250 * 1 + 250 * 0 / 100) * (0 / 1000) + 0) with 0 by field.
  rewrite sin_0. do 2 f_equal; lra.
Qed.

(** C2 on the "Alternating" phase.  For the first harmonic alone,
    [complexTone] writes a cosine and [complexToneParallel] asks
    [pureTone] for a sine: the first sample of the right channel is the
    amplitude, 1, in the one and 0 in the other. *)
Theorem complexToneParallel_alternating_differs (rand : Z -> R) :
  exists a b,
    complexTone rand 250 "Alternating" 1 1 0 100 4 0 "Right" 1000 100 = Ok a
    /\ complexToneParallel rand 250 "Alternating" 1 1 0 100 4 0 "Right" 1000 100 = Ok b
    /\ hd_error a = Some (0, 1)
    /\ hd_error b = Some (0, 0)
    /\ a <> b.
Proof.
  destruct (complexTone_alternating_first rand) as [a [Ea Ha]].
  destruct (complexToneParallel_alternating_first rand) as [b [Eb Hb]].
  exists a, b. repeat split; try assumption.
  intros E. rewrite E, Hb in Ha. injection Ha as H. lra.
Qed.

(** ** phaseShift *)

Lemma cis_zero : cis 0 = (1, 0).
Proof. unfold cis. rewrite cos_0, sin_0. reflexivity. Qed.

Lemma cis_PI : cis PI = (-1, 0).
Proof. unfold cis. rewrite cos_PI, sin_PI. reflexivity. Qed.

Lemma cis_neg_PI : cis (- PI) = (-1, 0).
Proof.
  unfold cis. rewrite cos_neg, sin_neg, cos_PI, sin_PI. f_equal. lra.
Qed.

Lemma pair_eq (a b c d : R) : a = c -> b = d -> (a, b) = (c, d).
Proof. intros -> ->. reflexivity. Qed.

(** The transform of two points, and its inverse. *)
Lemma fft_two (a b : R) : fft [a; b] 2 = [(a + b, 0); (a - b, 0)].
Proof.
  unfold fft. change (Z.to_nat 2) with 2%nat. simpl.
  replace (- (2 * PI * 0 * 0 / (1 + 1))) with 0 by field.
  replace (- (2 * PI * 0 * 1 / (1 + 1))) with 0 by field.
  replace (- (2 * PI * 1 * 0 / (1 + 1))) with 0 by field.
  replace (- (2 * PI * 1 * 1 / (1 + 1))) with (- PI) by field.
  rewrite cis_zero, cis_neg_PI. unfold cadd, cmul. simpl.
  f_equal; [apply pair_eq; ring | f_equal; apply pair_eq; ring].
Qed.

Lemma ifft_two (x y : C) :
  ifft [x; y]
  = [((fst x + fst y) / 2, (snd x + snd y) / 2);
     ((fst x - fst y) / 2, (snd x - snd y) / 2)].
Proof.
  unfold ifft. simpl.
  replace (2 * PI * 0 * 0 / (1 + 1)) with 0 by field.
  replace (2 * PI * 0 * 1 / (1 + 1)) with 0 by field.
  replace (2 * PI * 1 * 0 / (1 + 1)) with 0 by field.
  replace (2 * PI * 1 * 1 / (1 + 1)) with PI by field.
  rewrite cos_0, sin_0, cos_PI, sin_PI.
  f_equal; [apply pair_eq; field | f_equal; apply pair_eq; field].
Qed.

Lemma cabs_real (m : R) : cabs (m, 0) = Rabs m.
Proof.
  unfold cabs. simpl. rewrite Rmult_0_l, Rplus_0_r.
  apply sqrt_Rsqr_abs.
Qed.

(** The magnitude survives the assignment of a new phase. *)
Lemma cabs_polar (m t : R) : 0 <= m -> cabs (m * cos t, m * sin t) = m.
Proof.
  intros Hm. unfold cabs. simpl.
  replace (m * cos t * (m * cos t) + m * sin t * (m * sin t))
    with (Rsqr m * (Rsqr (sin t) + Rsqr (cos t))) by (unfold Rsqr; ring).
  rewrite sin2_cos2, Rmult_1_r. apply sqrt_Rsqr. exact Hm.
Qed.

(** [phaseShift] on one column of two samples, the band being the point 1
    of the transform (which is its own mirror point): the point receives
    the magnitude it had, with the phase [phase_shift] and then with the
    phase [- phase_shift], whatever its phase was. *)
Lemma shiftColumn_two (a b phase_shift : R) :
  shiftColumn [a; b] 2 1 1 1 1 2 phase_shift
  = Ok [(a + b + Rabs (a - b) * cos (0 - phase_shift)) / 2;
        (a + b - Rabs (a - b) * cos (0 - phase_shift)) / 2].
Proof.
  unfold shiftColumn. rewrite fft_two.
  change (zrange 1 (1 + 1)) with [1%Z]. change (zrange 0 2) with [0%Z; 1%Z].
  simpl.
  change (angle_int 1) with 0.
  rewrite cabs_real, cabs_polar by apply Rabs_pos.
  replace (2 * PI * 0 * 0 / (1 + 1)) with 0 by field.
  replace (2 * PI * 0 * 1 / (1 + 1)) with 0 by field.
  replace (2 * PI * 1 * 0 / (1 + 1)) with 0 by field.
  replace (2 * PI * 1 * 1 / (1 + 1)) with PI by field.
  rewrite cos_0, sin_0, cos_PI, sin_PI.
  do 2 f_equal; [field | f_equal; field].
Qed.

Lemma setcol0_all (v : list R) (snd : Signal) :
  length v = length snd ->
  setcol0 0%Z (Z.of_nat (length snd)) v snd = Ok (combine v (col1 snd)).
Proof.
  intros H. unfold setcol0.
  rewrite <- (col0_length snd) at 1.
  rewrite setslice_all by (rewrite col0_length; exact H).
  reflexivity.
Qed.

(** [phaseShift] of the left channel of a sound of two rows, the band
    being the point 1 of the transform. *)
Lemma phaseShift_two_left (a b r1 r2 f phase_shift fs : R) :
  fs <> 0 -> f * 2 / fs = 1 ->
  phaseShift [(a, r1); (b, r2)] f f phase_shift "Left" fs
  = Ok [((a + b + Rabs (a - b) * cos (0 - phase_shift)) / 2, r1);
        ((a + b - Rabs (a - b) * cos (0 - phase_shift)) / 2, r2)].
Proof.
  intros Hfs Hf. unfold phaseShift.
  cbn [col0 map fst length Z.of_nat Pos.of_succ_nat Pos.succ nextpow2 Z.eqb Z.ltb
       Z.compare bind].
  change (Z.log2_up 2) with 1%Z. change (2 ^ 1)%Z with 2%Z.
  destruct (Req_dec_T fs 0) as [E | _]; [contradiction |].
  rewrite Hf. rewrite (py_round_IZR 1).
  change (2 - 1)%Z with 1%Z.
  rewrite zeros_returns by lia.
  cbn [bind String.eqb Ascii.eqb Bool.eqb].
  rewrite shiftColumn_two. cbn [bind].
  unfold nrows. rewrite setcol0_all by reflexivity. cbn [bind].
  rewrite setcol1_all by reflexivity.
  reflexivity.
Qed.

(** Two rows at 2 Hz, the band being 1 Hz: the left channel [1; 0] becomes
    [0; 1] after the shift by pi and stays [0; 1] after the shift by
    -pi. *)
Lemma phaseShift_two_round_trip_fails :
  phaseShift [(1, 5); (0, 7)] 1 1 PI "Left" 2 = Ok [(0, 5); (1, 7)]
  /\ phaseShift [(0, 5); (1, 7)] 1 1 (- PI) "Left" 2 = Ok [(0, 5); (1, 7)].
Proof.
  split.
  - rewrite phaseShift_two_left by lra.
    replace (0 - PI) with (- PI) by lra. rewrite cos_neg, cos_PI.
    replace (1 - 0) with 1 by lra. rewrite Rabs_R1.
    repeat (f_equal; try lra).
  - rewrite phaseShift_two_left by lra.
    replace (0 - - PI) with PI by lra. rewrite cos_PI.
    replace (0 - 1) with (- (1)) by lra. rewrite Rabs_Ropp, Rabs_R1.
    repeat (f_equal; try lra).
Qed.

(** *** Four points *)

Lemma cis_quarter (j : nat) : cis (INR j * (PI / 2)) = Nat.iter j quarterTurn (1, 0).
Proof.
  induction j as [| j IH].
  - simpl. rewrite Rmult_0_l. apply cis_zero.
  - rewrite S_INR.
    change (Nat.iter (S j) quarterTurn (1, 0))
      with (quarterTurn (Nat.iter j quarterTurn (1, 0))).
    rewrite <- IH. unfold cis, quarterTurn.
    replace ((INR j + 1) * (PI / 2)) with (INR j * (PI / 2) + PI / 2) by ring.
    rewrite cos_plus, sin_plus, cos_PI2, sin_PI2. simpl.
    apply pair_eq; ring.
Qed.

Lemma cis_neg (t : R) : cis (- t) = conj (cis t).
Proof.
  unfold cis, conj. rewrite cos_neg, sin_neg. reflexivity.
Qed.

Lemma twiddle_four (k m : nat) :
  cis (2 * PI * INR k * INR m / INR 4) = Nat.iter (k * m) quarterTurn (1, 0).
Proof.
  rewrite <- cis_quarter. f_equal. rewrite mult_INR. simpl (INR 4). field.
Qed.

Lemma twiddle_four_neg (k m : nat) :
  cis (- (2 * PI * INR k * INR m / INR 4))
  = conj (Nat.iter (k * m) quarterTurn (1, 0)).
Proof.
  rewrite cis_neg, twiddle_four. reflexivity.
Qed.

Ltac pairs_by tac :=
  repeat match goal with
         | |- (_, _) = (_, _) => apply pair_eq; tac
         | |- _ :: _ = _ :: _ => f_equal
         | |- [] = [] => reflexivity
         end.

Lemma fft_four (a b c d : R) :
  fft [a; b; c; d] 4
  = [(a + b + c + d, 0); (a - c, d - b); (a - b + c - d, 0); (a - c, b - d)].
Proof.
  unfold fft. change (Z.to_nat 4) with 4%nat.
  cbn [length Nat.sub repeat app firstn seq map nth].
  rewrite !twiddle_four_neg. simpl.
  unfold cadd, cmul, conj, quarterTurn. simpl.
  pairs_by ltac:(ring).
Qed.

Lemma ifft_four (x0 x1 x2 x3 : C) :
  map fst (ifft [x0; x1; x2; x3])
  = [(fst x0 + fst x1 + fst x2 + fst x3) / 4;
     (fst x0 - snd x1 - fst x2 + snd x3) / 4;
     (fst x0 - fst x1 + fst x2 - fst x3) / 4;
     (fst x0 + snd x1 - fst x2 - snd x3) / 4].
Proof.
  unfold ifft.
  cbn [length seq map nth].
  rewrite !twiddle_four. simpl.
  unfold cadd, cmul, quarterTurn. simpl.
  repeat (f_equal; try field).
Qed.

(** [phaseShift] on one column of four samples, the band being the point
    1 of the transform and its mirror the point 3: each of the two points
    keeps its magnitude and receives the phase [phase_shift], its mirror
    [- phase_shift], whatever phase it had. *)
Lemma shiftColumn_four (a b c d phase_shift : R) :
  shiftColumn [a; b; c; d] 4 1 1 3 3 4 phase_shift
  = Ok [(a + b + c + d + cabs (a - c, d - b) * cos (0 + phase_shift)
         + (a - b + c - d) + cabs (a - c, b - d) * cos (0 - phase_shift)) / 4;
        (a + b + c + d - cabs (a - c, d - b) * sin (0 + phase_shift)
         - (a - b + c - d) + cabs (a - c, b - d) * sin (0 - phase_shift)) / 4;
        (a + b + c + d - cabs (a - c, d - b) * cos (0 + phase_shift)
         + (a - b + c - d) - cabs (a - c, b - d) * cos (0 - phase_shift)) / 4;
        (a + b + c + d + cabs (a - c, d - b) * sin (0 + phase_shift)
         - (a - b + c - d) - cabs (a - c, b - d) * sin (0 - phase_shift)) / 4].
Proof.
  unfold shiftColumn. rewrite fft_four.
  change (zrange 1 (1 + 1)) with [1%Z]. change (zrange 3 (3 + 1)) with [3%Z].
  change (zrange 0 4) with [0%Z; 1%Z; 2%Z; 3%Z].
  change (angle_int 1) with 0. change (angle_int 3) with 0.
  remember ifft as inverse eqn:Einv.
  simpl. subst inverse. rewrite ifft_four.
  simpl. reflexivity.
Qed.

(** [phaseShift] of the left channel of a sound of four rows, the band
    being the point 1 of the transform. *)
Lemma phaseShift_four_left (a b c d r1 r2 r3 r4 f phase_shift fs : R) :
  fs <> 0 -> f * 4 / fs = 1 ->
  phaseShift [(a, r1); (b, r2); (c, r3); (d, r4)] f f phase_shift "Left" fs
  = x <- shiftColumn [a; b; c; d] 4 1 1 3 3 4 phase_shift ;;
    Ok (combine x [r1; r2; r3; r4]).
Proof.
  intros Hfs Hf. unfold phaseShift.
  cbn [col0 map fst length Z.of_nat Pos.of_succ_nat Pos.succ nextpow2 Z.eqb Z.ltb
       Z.compare bind].
  change (Z.log2_up 4) with 2%Z. change (2 ^ 2)%Z with 4%Z.
  destruct (Req_dec_T fs 0) as [E | _]; [contradiction |].
  rewrite Hf. rewrite (py_round_IZR 1).
  change (4 - 1)%Z with 3%Z.
  rewrite zeros_returns by lia.
  cbn [bind String.eqb Ascii.eqb Bool.eqb].
  rewrite shiftColumn_four. cbn [bind].
  unfold nrows. rewrite setcol0_all by reflexivity. cbn [bind].
  rewrite setcol1_all by reflexivity.
  reflexivity.
Qed.

Lemma cabs_unit_real : cabs (1 - 0, 0 - 0) = 1.
Proof.
  replace (1 - 0) with 1 by lra. replace (0 - 0) with 0 by lra.
  rewrite cabs_real. apply Rabs_R1.
Qed.

Lemma cabs_minus_unit_real : cabs (0 - 1, 0 - 0) = 1.
Proof.
  replace (0 - 1) with (- (1)) by lra. replace (0 - 0) with 0 by lra.
  rewrite cabs_real, Rabs_Ropp. apply Rabs_R1.
Qed.

Lemma trig_shift_by_PI :
  cos (0 + PI) = -1 /\ sin (0 + PI) = 0 /\ cos (0 - PI) = -1 /\ sin (0 - PI) = 0.
Proof.
  rewrite Rplus_0_l. replace (0 - PI) with (- PI) by lra.
  rewrite cos_neg, sin_neg, cos_PI, sin_PI. repeat split; lra.
Qed.

Lemma trig_shift_by_minus_PI :
  cos (0 + - PI) = -1 /\ sin (0 + - PI) = 0
  /\ cos (0 - - PI) = -1 /\ sin (0 - - PI) = 0.
Proof.
  rewrite Rplus_0_l. replace (0 - - PI) with PI by lra.
  rewrite cos_neg, sin_neg, cos_PI, sin_PI. repeat split; lra.
Qed.

(** C3 on a sound of four rows at 4 Hz, the band being 1 Hz: the point 1
    of the transform, with the mirror point 3.  The left channel
    [1;0;0;0] has the value 1 at both points; the shift by pi makes them
    -1 and the channel [0;0;1;0].  The shift by -pi then finds -1 at both
    points, of phase pi, and writes the magnitude 1 with the phases -pi
    and pi, which is -1 again: the channel stays [0;0;1;0] and the
    original [1;0;0;0] is not restored. *)
Theorem phaseShift_round_trip_fails :
  phaseShift [(1, 5); (0, 6); (0, 7); (0, 8)] 1 1 PI "Left" 4
  = Ok [(0, 5); (0, 6); (1, 7); (0, 8)]
  /\ phaseShift [(0, 5); (0, 6); (1, 7); (0, 8)] 1 1 (- PI) "Left" 4
     = Ok [(0, 5); (0, 6); (1, 7); (0, 8)].
Proof.
  split.
  - rewrite phaseShift_four_left by lra. rewrite shiftColumn_four.
    destruct trig_shift_by_PI as [-> [-> [-> ->]]].
    rewrite cabs_unit_real. cbn [bind combine].
    f_equal. pairs_by ltac:(lra).
  - rewrite phaseShift_four_left by lra. rewrite shiftColumn_four.
    destruct trig_shift_by_minus_PI as [-> [-> [-> ->]]].
    rewrite cabs_minus_unit_real. cbn [bind combine].
    f_equal. pairs_by ltac:(lra).
Qed.

(** The phase [phaseShift] writes at the points of the band does not
    depend on the transform: [angle] is taken of the indices, which are
    not negative, so the new phase is the shift itself. *)
Lemma newPhase_is_shift (pnts : list Z) (phase_shift : R) :
  Forall (fun p => (0 <= p)%Z) pnts ->
  map (fun p => angle_int p + phase_shift) pnts
  = map (fun _ => 0 + phase_shift) pnts.
Proof.
  intros H. apply map_ext_in. intros p Hp.
  rewrite Forall_forall in H. specialize (H p Hp).
  unfold angle_int. destruct (Z.ltb_spec p 0); [lia | reflexivity].
Qed.

(** ** The value of a generator's three assignments *)

Lemma zipR_length (f : R -> R -> R) (a b : list R) :
  length a = length b -> length (zipR f a b) = length a.
Proof.
  intros H. unfold zipR. rewrite length_map, length_combine. lia.
Qed.

Lemma zipR_app (f : R -> R -> R) (a1 a2 b1 b2 : list R) :
  length a1 = length b1 ->
  zipR f (a1 ++ a2) (b1 ++ b2) = zipR f a1 b1 ++ zipR f a2 b2.
Proof.
  revert b1. induction a1 as [| x a1 IH]; intros [| y b1] H; simpl in H;
    try discriminate; [reflexivity |].
  change (zipR f ((x :: a1) ++ a2) ((y :: b1) ++ b2))
    with (f x y :: zipR f (a1 ++ a2) (b1 ++ b2)).
  rewrite IH by lia. reflexivity.
Qed.

Lemma zipR_repeat_l (k : R) (b : list R) :
  zipR Rmult (repeat k (length b)) b = smul k b.
Proof.
  unfold zipR, smul. induction b as [| x b IH]; simpl; [reflexivity |].
  f_equal. exact IH.
Qed.

Lemma bcast2_zip (f : R -> R -> R) (a b : list R) :
  length a = length b -> bcast2 f a b = Ok (zipR f a b).
Proof. apply bcast2_same. Qed.

Lemma envelope_length (amp : R) (nRamp nSamples : Z) :
  (0 <= nRamp)%Z -> (0 <= nSamples)%Z ->
  length (envelope amp nRamp nSamples) = Z.to_nat (nSamples + nRamp * 2).
Proof.
  intros HR HS. unfold envelope.
  rewrite !length_app, !length_map, repeat_length, arange_length. lia.
Qed.

Lemma firstn_three {A : Type} (n1 n2 n3 : nat) (c : list A) :
  length c = (n1 + n2 + n3)%nat ->
  c = firstn n1 c ++ firstn n2 (skipn n1 c) ++ firstn n3 (skipn (n1 + n2) c).
Proof.
  intros L.
  rewrite <- (firstn_skipn n1 c) at 1. f_equal.
  rewrite <- (firstn_skipn n2 (skipn n1 c)) at 1. f_equal.
  rewrite skipn_skipn, (Nat.add_comm n2 n1).
  symmetry. apply firstn_all2. rewrite length_skipn. lia.
Qed.

(** An array is its three slices, one after the other. *)
Lemma slice_three {A : Type} (n1 n2 n3 : Z) (c : list A) :
  (0 <= n1)%Z -> (0 <= n2)%Z -> (0 <= n3)%Z ->
  Z.of_nat (length c) = (n1 + n2 + n3)%Z ->
  c = slice 0%Z n1 c ++ slice n1 (n1 + n2)%Z c ++ slice (n1 + n2)%Z (n1 + n2 + n3)%Z c.
Proof.
  intros H1 H2 H3 L.
  rewrite !slice_in by lia.
  replace (Z.to_nat (n1 - 0)) with (Z.to_nat n1) by lia.
  replace (Z.to_nat (n1 + n2 - n1)) with (Z.to_nat n2) by lia.
  replace (Z.to_nat (n1 + n2 + n3 - (n1 + n2))) with (Z.to_nat n3) by lia.
  replace (Z.to_nat (n1 + n2)) with (Z.to_nat n1 + Z.to_nat n2)%nat by lia.
  simpl (skipn (Z.to_nat 0) c).
  apply firstn_three. lia.
Qed.

Lemma firstn_app_exact {A : Type} (a b : list A) (n : nat) :
  length a = n -> firstn n (a ++ b) = a.
Proof.
  intros <-. rewrite firstn_app, Nat.sub_diag, firstn_all. simpl.
  apply app_nil_r.
Qed.

Lemma skipn_app_exact {A : Type} (a b : list A) (n : nat) :
  length a = n -> skipn n (a ++ b) = b.
Proof.
  intros <-. rewrite skipn_app, Nat.sub_diag, skipn_all. reflexivity.
Qed.

Section RampedValue.

Variable setcol : Z -> Z -> list R -> Signal -> result Signal.
Variable get : Signal -> list R.
Variable put : list R -> Signal -> Signal.

Hypothesis setcol_in : forall lo hi v s,
  (0 <= lo <= hi)%Z -> (hi <= Z.of_nat (length s))%Z ->
  length v = Z.to_nat (hi - lo) ->
  setcol lo hi v s
  = Ok (put (firstn (Z.to_nat lo) (get s) ++ v ++ skipn (Z.to_nat hi) (get s)) s).
Hypothesis get_length : forall s, length (get s) = length s.
Hypothesis get_put : forall x s, length x = length s -> get (put x s) = x.
Hypothesis put_put : forall x y s, length y = length s -> put x (put y s) = put x s.
Hypothesis put_length : forall x s, length x = length s -> length (put x s) = length s.

(** Three assignments to consecutive slices that cover the column leave
    the three values, one after the other. *)
Lemma three_writes (n1 n2 n3 : Z) (v1 v2 v3 : list R) (s : Signal) :
  (0 <= n1)%Z -> (0 <= n2)%Z -> (0 <= n3)%Z ->
  Z.of_nat (length s) = (n1 + n2 + n3)%Z ->
  length v1 = Z.to_nat n1 -> length v2 = Z.to_nat n2 -> length v3 = Z.to_nat n3 ->
  (s1 <- setcol 0%Z n1 v1 s ;;
   s2 <- setcol n1 (n1 + n2)%Z v2 s1 ;;
   setcol (n1 + n2)%Z (n1 + n2 + n3)%Z v3 s2)
  = Ok (put (v1 ++ v2 ++ v3) s).
Proof.
  intros H1 H2 H3 L L1 L2 L3.
  pose proof (get_length s) as Lg.
  rewrite setcol_in by lia. cbn [bind]. simpl (firstn (Z.to_nat 0) (get s)).
  cbn [app].
  set (c1 := v1 ++ skipn (Z.to_nat n1) (get s)).
  assert (Lc1 : length c1 = length s).
  { unfold c1. rewrite length_app, length_skipn. lia. }
  rewrite setcol_in; [| lia | rewrite put_length by exact Lc1; lia | lia].
  cbn [bind]. rewrite get_put by exact Lc1.
  unfold c1 at 1 2. rewrite firstn_app_exact by exact L1.
  replace (Z.to_nat (n1 + n2)) with (Z.to_nat n2 + Z.to_nat n1)%nat by lia.
  rewrite <- skipn_skipn, skipn_app_exact by exact L1.
  rewrite put_put by exact Lc1.
  set (rest := skipn (Z.to_nat n2) (skipn (Z.to_nat n1) (get s))).
  assert (Lrest : length rest = Z.to_nat n3).
  { unfold rest. rewrite !length_skipn. lia. }
  assert (Lc2 : length (v1 ++ v2 ++ rest) = length s).
  { rewrite !length_app. lia. }
  rewrite setcol_in; [| lia | rewrite put_length by exact Lc2; lia | lia].
  rewrite get_put by exact Lc2. rewrite put_put by exact Lc2.
  do 2 f_equal.
  assert (L12 : length (v1 ++ v2) = Z.to_nat (n1 + n2)).
  { rewrite length_app. lia. }
  rewrite (app_assoc v1 v2 rest).
  rewrite (firstn_app_exact (v1 ++ v2) rest _ L12).
  rewrite skipn_all2 by (rewrite !length_app; lia).
  rewrite app_nil_r, <- app_assoc. reflexivity.
Qed.

Lemma ramped_value (amp : R) (nRamp nSamples nAll : Z) (seg : Z -> Z -> list R)
    (c : list R) (s : Signal) :
  (0 <= nRamp)%Z -> (0 <= nSamples)%Z ->
  nAll = (nSamples + nRamp * 2)%Z ->
  Z.of_nat (length s) = nAll -> Z.of_nat (length c) = nAll ->
  (forall lo hi, seg lo hi = slice lo hi c) ->
  ramped setcol amp nRamp nSamples nAll (arange nRamp) seg s
  = Ok (put (zipR Rmult (envelope amp nRamp nSamples) c) s).
Proof.
  intros HR HS HA Ls Lc Hseg.
  assert (HA' : nAll = (nRamp + nSamples + nRamp)%Z) by lia.
  clear HA. rewrite HA' in Ls, Lc |- *. clear HA'.
  unfold ramped. rewrite !Hseg.
  assert (S1 : length (slice 0%Z nRamp c) = Z.to_nat nRamp).
  { rewrite slice_length by lia. f_equal. lia. }
  assert (S2 : length (slice nRamp (nRamp + nSamples)%Z c) = Z.to_nat nSamples).
  { rewrite slice_length by lia. f_equal. lia. }
  assert (S3 : length (slice (nRamp + nSamples)%Z (nRamp + nSamples + nRamp)%Z c)
               = Z.to_nat nRamp).
  { rewrite slice_length by lia. f_equal. lia. }
  rewrite !bcast2_zip by (rewrite length_map, arange_length; congruence).
  cbn [bind].
  set (v1 := zipR Rmult _ (slice 0%Z nRamp c)).
  set (v3 := zipR Rmult _ (slice (nRamp + nSamples)%Z (nRamp + nSamples + nRamp)%Z c)).
  set (v2 := smul amp (slice nRamp (nRamp + nSamples)%Z c)).
  assert (E : (snd0 <- setcol 0%Z nRamp v1 s ;;
               snd1 <- setcol nRamp (nRamp + nSamples)%Z v2 snd0 ;;
               setcol (nRamp + nSamples)%Z (nRamp + nSamples + nRamp)%Z v3 snd1)
              = Ok (put (v1 ++ v2 ++ v3) s)).
  { apply three_writes; try lia.
    - unfold v1. rewrite zipR_length; rewrite length_map, arange_length; congruence.
    - unfold v2. rewrite smul_length. exact S2.
    - unfold v3. rewrite zipR_length; rewrite length_map, arange_length; congruence. }
  rewrite E. do 2 f_equal.
  unfold envelope.
  pose proof (slice_three nRamp nSamples nRamp c HR HS HR Lc) as Hc3.
  set (c1 := slice 0%Z nRamp c) in *.
  set (c2 := slice nRamp (nRamp + nSamples)%Z c) in *.
  set (c3 := slice (nRamp + nSamples)%Z (nRamp + nSamples + nRamp)%Z c) in *.
  rewrite Hc3.
  rewrite zipR_app by (rewrite length_map, arange_length; congruence).
  rewrite zipR_app by (rewrite repeat_length; congruence).
  rewrite <- S2, zipR_repeat_l.
  reflexivity.
Qed.

End RampedValue.

Lemma setcol1_in (lo hi : Z) (v : list R) (s : Signal) :
  (0 <= lo <= hi)%Z -> (hi <= Z.of_nat (length s))%Z ->
  length v = Z.to_nat (hi - lo) ->
  setcol1 lo hi v s
  = Ok (combine (col0 s)
          (firstn (Z.to_nat lo) (col1 s) ++ v ++ skipn (Z.to_nat hi) (col1 s))).
Proof.
  intros H1 H2 Hv. unfold setcol1.
  rewrite setslice_in by (rewrite ?col1_length; assumption). reflexivity.
Qed.

Lemma setcol0_in (lo hi : Z) (v : list R) (s : Signal) :
  (0 <= lo <= hi)%Z -> (hi <= Z.of_nat (length s))%Z ->
  length v = Z.to_nat (hi - lo) ->
  setcol0 lo hi v s
  = Ok (combine
          (firstn (Z.to_nat lo) (col0 s) ++ v ++ skipn (Z.to_nat hi) (col0 s))
          (col1 s)).
Proof.
  intros H1 H2 Hv. unfold setcol0.
  rewrite setslice_in by (rewrite ?col0_length; assumption). reflexivity.
Qed.

Lemma col0_combine (a b : list R) : length a = length b -> col0 (combine a b) = a.
Proof. apply map_fst_combine. Qed.

Lemma col1_combine (a b : list R) : length a = length b -> col1 (combine a b) = b.
Proof. apply map_snd_combine. Qed.

(** The three assignments to column 1, and to column 0. *)
Lemma ramped_col1 (amp : R) (nRamp nSamples nAll : Z) (seg : Z -> Z -> list R)
    (c : list R) (s : Signal) :
  (0 <= nRamp)%Z -> (0 <= nSamples)%Z ->
  nAll = (nSamples + nRamp * 2)%Z ->
  Z.of_nat (length s) = nAll -> Z.of_nat (length c) = nAll ->
  (forall lo hi, seg lo hi = slice lo hi c) ->
  ramped setcol1 amp nRamp nSamples nAll (arange nRamp) seg s
  = Ok (combine (col0 s) (zipR Rmult (envelope amp nRamp nSamples) c)).
Proof.
  apply (ramped_value setcol1 col1 (fun x s => combine (col0 s) x)).
  - exact setcol1_in.
  - exact col1_length.
  - intros x s0 H. apply col1_combine. rewrite col0_length. lia.
  - intros x y s0 H. rewrite col0_combine by (rewrite col0_length; lia). reflexivity.
  - intros x s0 H. rewrite length_combine, col0_length. lia.
Qed.

Lemma ramped_col0 (amp : R) (nRamp nSamples nAll : Z) (seg : Z -> Z -> list R)
    (c : list R) (s : Signal) :
  (0 <= nRamp)%Z -> (0 <= nSamples)%Z ->
  nAll = (nSamples + nRamp * 2)%Z ->
  Z.of_nat (length s) = nAll -> Z.of_nat (length c) = nAll ->
  (forall lo hi, seg lo hi = slice lo hi c) ->
  ramped setcol0 amp nRamp nSamples nAll (arange nRamp) seg s
  = Ok (combine (zipR Rmult (envelope amp nRamp nSamples) c) (col1 s)).
Proof.
  apply (ramped_value setcol0 col0 (fun x s => combine x (col1 s))).
  - exact setcol0_in.
  - exact col0_length.
  - intros x s0 H. apply col0_combine. rewrite col1_length. lia.
  - intros x y s0 H. rewrite col1_combine by (rewrite col1_length; lia). reflexivity.
  - intros x s0 H. rewrite length_combine, col1_length. lia.
Qed.

Lemma slice_map {A B : Type} (f : A -> B) (lo hi : Z) (l : list A) :
  map f (slice lo hi l) = slice lo hi (map f l).
Proof.
  unfold slice. rewrite length_map, skipn_map, firstn_map. reflexivity.
Qed.

(** ** The samples of pureTone, complexTone and complexToneParallel *)

Section ToneValues.

Variables (level duration ramp fs maxLevel : R).

Hypothesis duration_nonneg : 0 <= duration.
Hypothesis ramp_nonneg : 0 <= ramp.
Hypothesis fs_pos : 0 < fs.

Let amp := py_pow 10 ((level - maxLevel) / 20).
Let nSamples := py_round (duration / 1000 * fs).
Let nRamp := py_round (ramp / 1000 * fs).
Let nTot := (nSamples + nRamp * 2)%Z.
Let timeAll := sdiv (arange nTot) fs.
Let n := Z.to_nat nTot.
Let E := envelope amp nRamp nSamples.

Lemma tv_nSamples : (0 <= nSamples)%Z.
Proof. apply nSamples_nonneg; assumption. Qed.

Lemma tv_nRamp : (0 <= nRamp)%Z.
Proof. apply nRamp_nonneg; assumption. Qed.

Lemma tv_timeAll_length : length timeAll = n.
Proof. unfold timeAll. rewrite sdiv_length, arange_length. reflexivity. Qed.

Lemma tv_E_length : length E = n.
Proof. apply envelope_length; [apply tv_nRamp | apply tv_nSamples]. Qed.

(** [pureTone] returns its carrier under the window, in the channel asked
    for. *)
Lemma pureTone_value (frequency phase : R) (thisChan : string) :
  channel_ok thisChan = true ->
  pureTone frequency phase level duration ramp thisChan fs maxLevel
  = Ok (placed thisChan
          (zipR Rmult E (map (fun t => sin (2 * PI * frequency * t + phase)) timeAll))
          n).
Proof.
  intros Hc.
  pose proof tv_nSamples as HS. pose proof tv_nRamp as HR.
  pose proof tv_timeAll_length as LT. pose proof tv_E_length as LE.
  assert (Hn : Z.of_nat n = nTot) by (unfold n, nTot; lia).
  unfold pureTone. rewrite Hc. cbn [negb].
  fold amp nSamples nRamp nTot timeAll.
  rewrite zeros_returns by (unfold nTot; lia). cbn [bind]. fold n.
  set (car := map (fun t => sin (2 * PI * frequency * t + phase)) timeAll).
  assert (Lcar : length car = n) by (unfold car; rewrite length_map; exact LT).
  assert (Lq : length (zipR Rmult E car) = n).
  { rewrite zipR_length; congruence. }
  assert (Hseg : forall lo hi,
             map (fun t => sin (2 * PI * frequency * t + phase)) (slice lo hi timeAll)
             = slice lo hi car).
  { intros lo hi. apply slice_map. }
  rewrite LT, Hn.
  destruct (channel_ok_cases thisChan Hc) as [-> | [-> | ->]];
    unfold placed; cbn [String.eqb Ascii.eqb Bool.eqb].
  - rewrite (ramped_col1 amp nRamp nSamples nTot _ car); unfold nTot in *; try lia;
      try exact Hseg; try (rewrite repeat_length; lia).
    rewrite col0_repeat_zero. reflexivity.
  - rewrite (ramped_col0 amp nRamp nSamples nTot _ car); unfold nTot in *; try lia;
      try exact Hseg; try (rewrite repeat_length; lia).
    rewrite col1_repeat_zero. reflexivity.
  - rewrite (ramped_col0 amp nRamp nSamples nTot _ car); unfold nTot in *; try lia;
      try exact Hseg; try (rewrite repeat_length; lia).
    cbn [bind]. unfold copy0to1.
    rewrite col0_combine by (rewrite col1_repeat_zero, repeat_length; exact Lq).
    reflexivity.
Qed.

End ToneValues.

(** *** Sums of arrays under a window *)

Lemma zipR_mult_plus (E a b : list R) :
  length a = length E -> length b = length E ->
  zipR Rmult E (zipR Rplus a b) = zipR Rplus (zipR Rmult E a) (zipR Rmult E b).
Proof.
  revert a b. induction E as [| e E IH]; intros [| x a] [| y b] Ha Hb;
    simpl in *; try discriminate; [reflexivity |].
  change (e * (x + y) :: zipR Rmult E (zipR Rplus a b)
          = (e * x + e * y) :: zipR Rplus (zipR Rmult E a) (zipR Rmult E b)).
  rewrite IH by lia. f_equal. ring.
Qed.

Lemma zipR_plus_zero_r (a : list R) : zipR Rplus a (repeat 0 (length a)) = a.
Proof.
  induction a as [| x a IH]; [reflexivity |].
  change (x + 0 :: zipR Rplus a (repeat 0 (length a)) = x :: a).
  rewrite IH, Rplus_0_r. reflexivity.
Qed.

Lemma zipR_plus_zeros (k : nat) : zipR Rplus (repeat 0 k) (repeat 0 k) = repeat 0 k.
Proof.
  rewrite <- (repeat_length 0 k) at 2. apply zipR_plus_zero_r.
Qed.

Lemma zipR_mult_zero_r (E : list R) :
  zipR Rmult E (repeat 0 (length E)) = repeat 0 (length E).
Proof.
  induction E as [| e E IH]; [reflexivity |].
  change (e * 0 :: zipR Rmult E (repeat 0 (length E)) = 0 :: repeat 0 (length E)).
  rewrite IH, Rmult_0_r. reflexivity.
Qed.

Lemma combine_zeros (k : nat) : combine (repeat 0 k) (repeat 0 k) = repeat (0, 0) k.
Proof. induction k; simpl; congruence. Qed.

Lemma addSig_combine (a b c d : list R) :
  length a = length b -> length c = length d -> length a = length c ->
  addSig (combine a b) (combine c d)
  = Ok (combine (zipR Rplus a c) (zipR Rplus b d)).
Proof.
  intros Hab Hcd Hac.
  rewrite addSig_same by (rewrite !length_combine; lia). f_equal.
  revert b c d Hab Hcd Hac.
  induction a as [| x a IH]; intros [| y b] [| z c] [| w d] Hab Hcd Hac;
    simpl in *; try discriminate; [reflexivity |].
  change ((x + z, y + w)
          :: map (fun p => (fst (fst p) + fst (snd p), snd (fst p) + snd (snd p)))
               (combine (combine a b) (combine c d))
          = (x + z, y + w) :: combine (zipR Rplus a c) (zipR Rplus b d)).
  f_equal. apply IH; lia.
Qed.

(** *** One harmonic in the two versions *)

Lemma five_channels (channel : string) :
  (chan_single channel || chan_odd channel)%bool = true ->
  channel = "Right"%string \/ channel = "Left"%string \/ channel = "Both"%string
  \/ channel = "Odd Left"%string \/ channel = "Odd Right"%string.
Proof.
  unfold chan_single, chan_odd. rewrite !orb_true_iff, !String.eqb_eq. tauto.
Qed.

Lemma sin_quarter_ahead (x : R) : sin (x + PI / 2) = cos x.
Proof. rewrite sin_plus, cos_PI2, sin_PI2. ring. Qed.

Lemma partialOf_agrees (rand : Z -> R) (harmPhase : string) (F0 stretchHz : R)
    (highHarm : Z) (timeAll : list R) (i : Z) :
  phase_agrees harmPhase highHarm ->
  partialOf rand harmPhase F0 stretchHz highHarm timeAll i
  = Some (Ok (carrierOf rand harmPhase F0 stretchHz highHarm timeAll i)).
Proof.
  intros [-> | [-> | [-> | [-> Hh]]]]; unfold partialOf, carrierOf, phaseOf;
    cbn [String.eqb Ascii.eqb Bool.eqb].
  - do 2 f_equal. apply map_ext. intros t. rewrite Rplus_0_r. reflexivity.
  - do 2 f_equal. apply map_ext. intros t. rewrite sin_quarter_ahead. reflexivity.
  - reflexivity.
  - rewrite (proj2 (Z.eqb_neq _ _) Hh). reflexivity.
Qed.

Lemma thisPhaseOf_agrees (rand : Z -> R) (harmPhase : string) (highHarm i : Z) :
  phase_agrees harmPhase highHarm ->
  thisPhaseOf rand harmPhase highHarm i = Ok (phaseOf rand harmPhase highHarm i).
Proof.
  intros [-> | [-> | [-> | [-> Hh]]]]; unfold thisPhaseOf, phaseOf;
    cbn [String.eqb Ascii.eqb Bool.eqb]; try reflexivity.
  rewrite (proj2 (Z.eqb_neq _ _) Hh). reflexivity.
Qed.

Lemma thisChanOf_agrees (channel : string) (i : Z) :
  (chan_single channel || chan_odd channel)%bool = true ->
  thisChanOf channel i = Some (thisChanStr channel i)
  /\ channel_ok (thisChanStr channel i) = true.
Proof.
  intros H. destruct (five_channels channel H) as [-> | [-> | [-> | [-> | ->]]]];
    unfold thisChanOf, thisChanStr;
    cbn [chan_single chan_odd String.eqb Ascii.eqb Bool.eqb orb];
    try (split; reflexivity);
    destruct (is_odd i); split; reflexivity.
Qed.

Lemma stepTones_wf (n : nat) (channel : string) (i : Z) (car : list R) (st : tones) :
  tones_wf n st -> length car = n -> tones_wf n (stepTones channel i car st).
Proof.
  intros [H1 [H2 H3]] Hc. unfold stepTones, tones_wf.
  destruct (chan_single channel); [| destruct (is_odd i)]; cbn [tone toneOdd toneEven];
    rewrite ?zipR_length by congruence; auto.
Qed.

Lemma harmStep_agrees (rand : Z -> R) (harmPhase channel : string) (F0 stretchHz : R)
    (highHarm : Z) (timeAll : list R) (st : tones) (i : Z) :
  phase_agrees harmPhase highHarm ->
  (chan_single channel || chan_odd channel)%bool = true ->
  tones_wf (length timeAll) st ->
  harmStep rand harmPhase channel F0 stretchHz highHarm timeAll (Ok st) i
  = Ok (stepTones channel i
          (carrierOf rand harmPhase F0 stretchHz highHarm timeAll i) st).
Proof.
  intros Hp Hc [H1 [H2 H3]]. unfold harmStep. cbn [bind].
  rewrite partialOf_agrees by exact Hp. cbn [bind].
  set (car := carrierOf rand harmPhase F0 stretchHz highHarm timeAll i).
  assert (Lc : length car = length timeAll) by (unfold car, carrierOf; apply length_map).
  unfold stepTones.
  destruct (chan_single channel) eqn:Es.
  - rewrite bcast2_zip by congruence. reflexivity.
  - simpl in Hc. rewrite Hc.
    destruct (is_odd i); rewrite bcast2_zip by congruence; reflexivity.
Qed.

Lemma zipR_plus_zero_n (a : list R) (n : nat) :
  length a = n -> zipR Rplus a (repeat 0 n) = a.
Proof. intros <-. apply zipR_plus_zero_r. Qed.

Lemma zipR_mult_length (E x : list R) (n : nat) :
  length E = n -> length x = n -> length (zipR Rmult E x) = n.
Proof. intros HE Hx. rewrite zipR_length; congruence. Qed.

(** Adding the sound [pureTone] returns for harmonic [i] to the sound of
    the accumulators gives the sound of the accumulators after the
    harmonic is added to them. *)
Lemma step_cols (channel : string) (E car : list R) (st : tones) (i : Z) (n : nat) :
  (chan_single channel || chan_odd channel)%bool = true ->
  length E = n -> length car = n -> tones_wf n st ->
  addSig (colsOf channel E st n)
         (placed (thisChanStr channel i) (zipR Rmult E car) n)
  = Ok (colsOf channel E (stepTones channel i car st) n).
Proof.
  intros Hc LE Lc [H1 [H2 H3]].
  pose proof (zipR_mult_length E car n LE Lc) as Lq.
  pose proof (zipR_mult_length E (tone st) n LE H1) as L1.
  pose proof (zipR_mult_length E (toneOdd st) n LE H2) as L2.
  pose proof (zipR_mult_length E (toneEven st) n LE H3) as L3.
  pose proof (repeat_length 0 n) as Lz.
  destruct (five_channels channel Hc) as [-> | [-> | [-> | [-> | ->]]]];
    unfold colsOf, placed, thisChanStr, stepTones;
    cbn [chan_single chan_odd String.eqb Ascii.eqb Bool.eqb orb];
    try destruct (is_odd i);
    cbn [tone toneOdd toneEven String.eqb Ascii.eqb Bool.eqb];
    rewrite addSig_combine by congruence;
    rewrite ?zipR_plus_zeros, ?zipR_mult_plus by congruence;
    rewrite ?zipR_plus_zero_n by assumption;
    reflexivity.
Qed.

Section ComplexToneValues.

Variables (rand : Z -> R) (F0 stretch level duration ramp fs maxLevel : R).
Variable highHarm : Z.

Hypothesis duration_nonneg : 0 <= duration.
Hypothesis ramp_nonneg : 0 <= ramp.
Hypothesis fs_pos : 0 < fs.

Let amp := py_pow 10 ((level - maxLevel) / 20).
Let stretchHz := F0 * stretch / 100.
Let nSamples := py_round (duration / 1000 * fs).
Let nRamp := py_round (ramp / 1000 * fs).
Let nTot := (nSamples + nRamp * 2)%Z.
Let timeAll := sdiv (arange nTot) fs.
Let n := Z.to_nat nTot.
Let E := envelope amp nRamp nSamples.

Lemma ct_lengths :
  (0 <= nSamples)%Z /\ (0 <= nRamp)%Z /\ length timeAll = n /\ length E = n
  /\ Z.of_nat n = nTot.
Proof.
  assert (HS : (0 <= nSamples)%Z) by (apply nSamples_nonneg; assumption).
  assert (HR : (0 <= nRamp)%Z) by (apply nRamp_nonneg; assumption).
  repeat split; try assumption.
  - unfold timeAll. rewrite sdiv_length, arange_length. reflexivity.
  - apply envelope_length; assumption.
  - unfold n, nTot. lia.
Qed.

(** The sound [pureTone] returns for harmonic [i] in [complexToneParallel]. *)
Lemma submitStep_agrees (harmPhase channel : string) (tn : list Signal) (i : Z) :
  phase_agrees harmPhase highHarm ->
  (chan_single channel || chan_odd channel)%bool = true ->
  submitStep rand harmPhase channel F0 stretchHz level duration ramp fs maxLevel
             highHarm (Ok tn) i
  = Ok (tn ++ [placed (thisChanStr channel i)
                 (zipR Rmult E (carrierOf rand harmPhase F0 stretchHz highHarm timeAll i))
                 n]).
Proof.
  intros Hp Hc. unfold submitStep. cbn [bind].
  rewrite thisPhaseOf_agrees by exact Hp. cbn [bind].
  destruct (thisChanOf_agrees channel i Hc) as [-> Hok].
  rewrite (pureTone_value level duration ramp fs maxLevel
             duration_nonneg ramp_nonneg fs_pos _ _ _ Hok).
  reflexivity.
Qed.

Lemma submit_fold (harmPhase channel : string) (l : list Z) (tn : list Signal) :
  phase_agrees harmPhase highHarm ->
  (chan_single channel || chan_odd channel)%bool = true ->
  fold_left (submitStep rand harmPhase channel F0 stretchHz level duration ramp
               fs maxLevel highHarm) l (Ok tn)
  = Ok (tn ++ map (fun i =>
                     placed (thisChanStr channel i)
                       (zipR Rmult E
                          (carrierOf rand harmPhase F0 stretchHz highHarm timeAll i))
                       n) l).
Proof.
  intros Hp Hc. revert tn. induction l as [| i l IH]; intros tn.
  - simpl. rewrite app_nil_r. reflexivity.
  - cbn [fold_left map]. rewrite submitStep_agrees by assumption.
    rewrite IH, <- app_assoc. reflexivity.
Qed.

(** The sum of the sounds of the harmonics is the sound of the
    accumulators of [complexTone]. *)
Lemma sum_fold (harmPhase channel : string) (l : list Z) (st : tones) :
  phase_agrees harmPhase highHarm ->
  (chan_single channel || chan_odd channel)%bool = true ->
  tones_wf n st ->
  fold_left (fun acc t => snd <- acc ;; addSig snd t)
    (map (fun i =>
            placed (thisChanStr channel i)
              (zipR Rmult E (carrierOf rand harmPhase F0 stretchHz highHarm timeAll i))
              n) l)
    (Ok (colsOf channel E st n))
  = (st' <- fold_left (harmStep rand harmPhase channel F0 stretchHz highHarm timeAll)
              l (Ok st) ;;
     Ok (colsOf channel E st' n))
  /\ exists st',
       fold_left (harmStep rand harmPhase channel F0 stretchHz highHarm timeAll)
         l (Ok st) = Ok st'
       /\ tones_wf n st'.
Proof.
  intros Hp Hc. destruct ct_lengths as [HS [HR [LT [LE Hn]]]].
  revert st. induction l as [| i l IH]; intros st Hwf.
  - split; [reflexivity | exists st; split; [reflexivity | exact Hwf]].
  - cbn [fold_left map bind].
    assert (Lc : length (carrierOf rand harmPhase F0 stretchHz highHarm timeAll i) = n).
    { unfold carrierOf. rewrite length_map. exact LT. }
    rewrite step_cols by assumption.
    rewrite harmStep_agrees by (try assumption; rewrite LT; exact Hwf).
    apply IH. apply stepTones_wf; assumption.
Qed.

(** The assignments at the end of [complexTone] build the sound of the
    accumulators. *)
Lemma complexTone_tail (channel : string) (st : tones) :
  (chan_single channel || chan_odd channel)%bool = true ->
  tones_wf n st ->
  (let put setcol (t : list R) snd :=
     ramped setcol amp nRamp nSamples (Z.of_nat (length timeAll)) (arange nRamp)
            (fun lo hi => slice lo hi t) snd in
   if String.eqb channel "Right" then put setcol1 (tone st) (repeat (0, 0) n)
   else if String.eqb channel "Left" then put setcol0 (tone st) (repeat (0, 0) n)
   else if String.eqb channel "Both" then
     snd <- put setcol0 (tone st) (repeat (0, 0) n) ;; Ok (copy0to1 snd)
   else if String.eqb channel "Odd Left" then
     snd <- put setcol0 (toneOdd st) (repeat (0, 0) n) ;; put setcol1 (toneEven st) snd
   else if String.eqb channel "Odd Right" then
     snd <- put setcol1 (toneOdd st) (repeat (0, 0) n) ;; put setcol0 (toneEven st) snd
   else Ok (repeat (0, 0) n))
  = Ok (colsOf channel E st n).
Proof.
  intros Hc [H1 [H2 H3]]. destruct ct_lengths as [HS [HR [LT [LE Hn]]]].
  pose proof (zipR_mult_length E (tone st) n LE H1) as L1.
  pose proof (zipR_mult_length E (toneOdd st) n LE H2) as L2.
  pose proof (zipR_mult_length E (toneEven st) n LE H3) as L3.
  pose proof (repeat_length 0 n) as Lz.
  assert (Lr : Z.of_nat (length (repeat (0, 0) n)) = nTot).
  { rewrite repeat_length. exact Hn. }
  cbv zeta. rewrite LT, Hn.
  assert (P1 : forall t s, length t = n -> Z.of_nat (length s) = nTot ->
             ramped setcol1 amp nRamp nSamples nTot (arange nRamp)
                    (fun lo hi => slice lo hi t) s
             = Ok (combine (col0 s) (zipR Rmult E t))).
  { intros t s Lt Ls. apply ramped_col1; try assumption; try reflexivity.
    rewrite Lt. exact Hn. }
  assert (P0 : forall t s, length t = n -> Z.of_nat (length s) = nTot ->
             ramped setcol0 amp nRamp nSamples nTot (arange nRamp)
                    (fun lo hi => slice lo hi t) s
             = Ok (combine (zipR Rmult E t) (col1 s))).
  { intros t s Lt Ls. apply ramped_col0; try assumption; try reflexivity.
    rewrite Lt. exact Hn. }
  destruct (five_channels channel Hc) as [-> | [-> | [-> | [-> | ->]]]];
    unfold colsOf; cbn [String.eqb Ascii.eqb Bool.eqb].
  - rewrite P1 by assumption. rewrite col0_repeat_zero. reflexivity.
  - rewrite P0 by assumption. rewrite col1_repeat_zero. reflexivity.
  - rewrite P0 by assumption. cbn [bind]. unfold copy0to1.
    rewrite col1_repeat_zero, col0_combine by congruence. reflexivity.
  - rewrite P0 by assumption. cbn [bind].
    rewrite P1; [| assumption | rewrite length_combine, col1_repeat_zero; lia].
    rewrite col1_repeat_zero, col0_combine by congruence. reflexivity.
  - rewrite P1 by assumption. cbn [bind].
    rewrite P0; [| assumption | rewrite length_combine, col0_repeat_zero; lia].
    rewrite col0_repeat_zero, col1_combine by congruence. reflexivity.
Qed.

(** For the phase relationships other than "Alternating" and the five
    channel selectors, [complexToneParallel] returns what [complexTone]
    returns. *)
Lemma complexToneParallel_agrees (harmPhase channel : string) (lowHarm : Z) :
  phase_agrees harmPhase highHarm ->
  (chan_single channel || chan_odd channel)%bool = true ->
  exists snd,
    complexTone rand F0 harmPhase lowHarm highHarm stretch level duration ramp
                channel fs maxLevel = Ok snd
    /\ complexToneParallel rand F0 harmPhase lowHarm highHarm stretch level duration
                           ramp channel fs maxLevel = Ok snd.
Proof.
  intros Hp Hc. destruct ct_lengths as [HS [HR [LT [LE Hn]]]].
  assert (Hwf0 : tones_wf n (mkTones (repeat 0 n) (repeat 0 n) (repeat 0 n))).
  { unfold tones_wf. cbn [tone toneOdd toneEven]. rewrite repeat_length. auto. }
  assert (Hcols0 : colsOf channel E (mkTones (repeat 0 n) (repeat 0 n) (repeat 0 n)) n
                   = repeat (0, 0) n).
  { pose proof (zipR_mult_zero_r E) as Z0. rewrite LE in Z0.
    unfold colsOf. cbn [tone toneOdd toneEven].
    rewrite !Z0, combine_zeros.
    repeat match goal with |- (if ?b then _ else _) = _ => destruct b end;
      reflexivity. }
  destruct (sum_fold harmPhase channel (zrange lowHarm (highHarm + 1)) _ Hp Hc Hwf0)
    as [Esum [st' [Efold Hwf']]].
  exists (colsOf channel E st' n). split.
  - unfold complexTone.
    fold amp stretchHz nSamples nRamp nTot timeAll.
    rewrite zeros_returns by (unfold nTot; lia).
    unfold zeros1. destruct (Z.ltb_spec nTot 0) as [Hneg | _]; [unfold nTot in Hneg; lia |].
    cbn [bind]. fold n. rewrite Efold. cbn [bind].
    apply complexTone_tail; assumption.
  - unfold complexToneParallel.
    fold stretchHz nSamples nRamp nTot.
    rewrite zeros_returns by (unfold nTot; lia). cbn [bind]. fold n.
    rewrite submit_fold by assumption. cbn [bind app].
    rewrite <- Hcols0. rewrite Esum, Efold. reflexivity.
Qed.

End ComplexToneValues.

(** * Further properties of the module *)

(** ** scale *)

Lemma py_pow_ten_plus (a b : R) : py_pow 10 (a + b) = py_pow 10 a * py_pow 10 b.
Proof. unfold py_pow. apply Rpower_plus. Qed.

Lemma py_pow_ten_zero : py_pow 10 0 = 1.
Proof. unfold py_pow. apply Rpower_O. lra. Qed.

Lemma scale_scale (a b : R) (sig : Signal) :
  scale a (scale b sig) = scale (a + b) sig.
Proof.
  unfold scale. rewrite map_map. apply map_ext. intros [l r]. cbn [fst snd].
  replace ((a + b) / 20) with (b / 20 + a / 20) by lra.
  rewrite py_pow_ten_plus. apply pair_eq; ring.
Qed.

Lemma scale_zero (sig : Signal) : scale 0 sig = sig.
Proof.
  unfold scale. replace (0 / 20) with 0 by lra. rewrite py_pow_ten_zero.
  rewrite <- (map_id sig) at 2. apply map_ext. intros [l r]. cbn [fst snd].
  apply pair_eq; ring.
Qed.

(** X1.  Scaling by [a] dB and then by [b] dB is scaling by [a + b] dB; in
    particular scaling by [level] and then by [-level] gives the sound
    back, and the number of rows never changes. *)
Theorem scale_composes (a b level : R) (sig : Signal) :
  scale b (scale a sig) = scale (a + b) sig
  /\ scale (- level) (scale level sig) = sig
  /\ nrows (scale level sig) = nrows sig.
Proof.
  split; [| split].
  - rewrite scale_scale. f_equal. lra.
  - rewrite scale_scale. replace (- level + level) with 0 by lra. apply scale_zero.
  - unfold nrows, scale. rewrite length_map. reflexivity.
Qed.

Lemma sumAll_sq_scale (k : R) (sig : Signal) :
  sumAll (sqSig (map (fun p => (fst p * k, snd p * k)) sig))
  = k * k * sumAll (sqSig sig).
Proof.
  induction sig as [| [l r] sig IH].
  - simpl. lra.
  - change (l * k * (l * k) + r * k * (r * k)
            + sumAll (sqSig (map (fun p => (fst p * k, snd p * k)) sig))
            = k * k * (l * l + r * r + sumAll (sqSig sig))).
    rewrite IH. ring.
Qed.

(** X2.  The root mean square follows the scaling: on a sound that is
    not empty, a change of [level] dB multiplies it by [10**(level/20)]. *)
Theorem getRms_scale (level : R) (sig : Signal) :
  sig <> [] ->
  getRms (scale level sig) = py_pow 10 (level / 20) * getRms sig.
Proof.
  intros _.
  pose proof (py_pow_pos 10 (level / 20)) as Hk.
  unfold getRms, meanAll, scale.
  rewrite sumAll_sq_scale, !sqSig_length, length_map.
  set (k := py_pow 10 (level / 20)) in *.
  replace (k * k * sumAll (sqSig sig) / INR (2 * length sig))
    with (Rsqr k * (sumAll (sqSig sig) / INR (2 * length sig)))
    by (unfold Rsqr, Rdiv; ring).
  rewrite sqrt_mult_alt by apply Rle_0_sqr.
  rewrite sqrt_Rsqr by lra. reflexivity.
Qed.

Lemma getRms_scale_witness :
  getRms (scale 6 [(1, 2); (3, 4)]) = py_pow 10 (6 / 20) * getRms [(1, 2); (3, 4)].
Proof.
  apply (getRms_scale 6 [(1, 2); (3, 4)]). discriminate.
Defined.

(** ** intNCyclesFreq *)

(** X3.  For a duration other than zero, [intNCyclesFreq] returns a
    frequency with a whole number of cycles in the duration, the one
    nearest to [freq] (within half a cycle), and returns it unchanged when
    applied to it again.  A duration of zero raises. *)
Theorem intNCyclesFreq_whole_cycles (freq duration : R) :
  duration <> 0 ->
  exists adjFreq,
    intNCyclesFreq freq duration = Ok adjFreq
    /\ adjFreq * (duration / 1000) = IZR (py_round (freq * (duration / 1000)))
    /\ Rabs (adjFreq * (duration / 1000) - freq * (duration / 1000)) <= 1 / 2
    /\ intNCyclesFreq adjFreq duration = Ok adjFreq
    /\ intNCyclesFreq freq 0 = Raise ZeroDivisionError.
Proof.
  intros Hd.
  assert (Hd' : duration / 1000 <> 0) by lra.
  assert (Hz : intNCyclesFreq freq 0 = Raise ZeroDivisionError).
  { unfold intNCyclesFreq. destruct (Req_dec_T (0 / 1000) 0) as [_ | H];
      [reflexivity | exfalso; lra]. }
  unfold intNCyclesFreq.
  destruct (Req_dec_T (duration / 1000) 0) as [E | _]; [contradiction |].
  set (d := duration / 1000) in *.
  set (k := py_round (freq * d)).
  assert (Hk : IZR k / d * d = IZR k) by (field; exact Hd').
  exists (IZR k / d). repeat split.
  - exact Hk.
  - rewrite Hk. apply py_round_near.
  - rewrite Hk, py_round_IZR. reflexivity.
  - exact Hz.
Qed.

Lemma intNCyclesFreq_whole_cycles_witness :
  exists adjFreq,
    intNCyclesFreq (21 / 10) 1000 = Ok adjFreq
    /\ adjFreq * (1000 / 1000) = IZR (py_round (21 / 10 * (1000 / 1000)))
    /\ Rabs (adjFreq * (1000 / 1000) - 21 / 10 * (1000 / 1000)) <= 1 / 2
    /\ intNCyclesFreq adjFreq 1000 = Ok adjFreq
    /\ intNCyclesFreq (21 / 10) 0 = Raise ZeroDivisionError.
Proof.
  apply (intNCyclesFreq_whole_cycles (21 / 10) 1000). lra.
Defined.

(** The two examples of the docstring: 2.1 Hz and 2 Hz over one second
    both give 2 Hz. *)
Lemma py_round_example_21 : py_round (21 / 10 * (1000 / 1000)) = 2%Z.
Proof.
  assert (HI : Int_part (21 / 10 * (1000 / 1000)) = 2%Z).
  { symmetry. apply Int_part_spec. split; lra. }
  unfold py_round, frac_part. rewrite HI.
  destruct (Rlt_dec (21 / 10 * (1000 / 1000) - 2) (1 / 2)) as [_ | H];
    [reflexivity | exfalso; lra].
Qed.

Lemma intNCyclesFreq_docstring :
  intNCyclesFreq (21 / 10) 1000 = Ok (2 / (1000 / 1000))
  /\ intNCyclesFreq 2 1000 = Ok (2 / (1000 / 1000)).
Proof.
  unfold intNCyclesFreq.
  destruct (Req_dec_T (1000 / 1000) 0) as [E | _]; [exfalso; lra |].
  rewrite py_round_example_21.
  replace (2 * (1000 / 1000)) with (IZR 2) by lra. rewrite py_round_IZR.
  split; reflexivity.
Qed.

(** ** nextpow2 *)



(** The example of the docstring. *)
Lemma nextpow2_docstring : nextpow2 511 = Ok 9%Z.
Proof. reflexivity. Qed.

(** ** joinSndISI *)

Lemma makeSilence_rows (duration fs : R) :
  0 <= duration -> 0 < fs ->
  makeSilence duration fs
  = Ok (repeat (0, 0) (Z.to_nat (py_round (duration / 1000 * fs)))).
Proof.
  intros Hd Hf. unfold makeSilence. apply zeros_returns.
  apply py_round_nonneg. apply Rmult_le_pos; lra.
Qed.

Lemma makeSilence_none (fs : R) : makeSilence 0 fs = Ok [].
Proof.
  unfold makeSilence. replace (0 / 1000 * fs) with (IZR 0) by lra.
  rewrite py_round_IZR. reflexivity.
Qed.

Lemma nth_tl {A : Type} (j : nat) (l : list A) (d : A) :
  nth (S j) l d = nth j (tl l) d.
Proof. destruct l; [destruct j |]; reflexivity. Qed.

(** The pieces of the loop of [joinSndISI], one after the other, are the
    sounds joined with their gaps. *)
Lemma pieces_joined (snds : list Signal) (gaps : list nat) :
  concat (map (fun i => nth i snds []
                        ++ repeat (0, 0) (if Nat.ltb i (length snds - 1)
                                          then nth i gaps 0%nat else 0%nat))
              (seq 0 (length snds)))
  = joined snds gaps.
Proof.
  revert gaps. induction snds as [| s rest IH]; intros gaps; [reflexivity |].
  cbn [length seq map concat nth]. rewrite <- seq_shift, map_map.
  replace (S (length rest) - 1)%nat with (length rest) by lia.
  rewrite (map_ext_in _
             (fun i => nth i rest []
                       ++ repeat (0, 0) (if Nat.ltb i (length rest - 1)
                                         then nth i (tl gaps) 0%nat else 0%nat))).
  - rewrite IH. cbn [joined]. destruct rest as [| s' rest'].
    + cbn [length Nat.ltb Nat.leb repeat joined]. rewrite !app_nil_r. reflexivity.
    + cbn [length Nat.ltb Nat.leb]. rewrite <- app_assoc.
      destruct gaps; reflexivity.
  - intros j Hj. apply in_seq in Hj. cbn [nth]. rewrite nth_tl.
    destruct (Nat.ltb_spec (S j) (length rest)), (Nat.ltb_spec j (length rest - 1));
      try reflexivity; lia.
Qed.

Section JoinSounds.

Variables (sndList : list Signal) (ISIList : list R) (fs : R).

Hypothesis fs_pos : 0 < fs.
Hypothesis isi_nonneg : Forall (fun d => 0 <= d) ISIList.

Let gapOf (d : R) : nat := Z.to_nat (py_round (d / 1000 * fs)).

Let piece (i : nat) : Signal :=
  nth i sndList []
  ++ repeat (0, 0) (if Nat.ltb i (length sndList - 1)
                    then nth i (map gapOf ISIList) 0%nat else 0%nat).

Lemma joinStep_piece (cur : option Signal) (i : nat) :
  (i < length sndList)%nat ->
  (i < length sndList - 1 -> i < length ISIList)%nat ->
  (i <> 0%nat -> cur <> None) ->
  joinStep sndList ISIList fs (Ok cur) i
  = Ok (Some (match cur with
              | Some snd => if Nat.eqb i 0 then piece i else snd ++ piece i
              | None => piece i
              end)).
Proof.
  intros Hi Hisi Hcur. unfold joinStep, piece. cbn [bind].
  destruct (nth_error sndList i) as [s |] eqn:Es;
    [| apply nth_error_None in Es; lia].
  rewrite (@nth_error_nth _ sndList i s [] Es).
  assert (Hsil : (if Nat.ltb i (length sndList - 1)
                  then match nth_error ISIList i with
                       | Some d => makeSilence d fs
                       | None => Raise (IndexError "list index out of range")
                       end
                  else makeSilence 0 fs)
                 = Ok (repeat (0, 0)
                         (if Nat.ltb i (length sndList - 1)
                          then nth i (map gapOf ISIList) 0%nat else 0%nat))).
  { destruct (Nat.ltb_spec i (length sndList - 1)) as [Hlt | Hge].
    - destruct (nth_error ISIList i) as [d |] eqn:Ed;
        [| apply nth_error_None in Ed; lia].
      rewrite makeSilence_rows; [| | exact fs_pos].
      + f_equal. f_equal.
        rewrite (@nth_error_nth _ (map gapOf ISIList) i (gapOf d) 0%nat
                   (map_nth_error gapOf _ _ Ed)).
        reflexivity.
      + rewrite Forall_forall in isi_nonneg. apply isi_nonneg.
        eapply nth_error_In. exact Ed.
    - apply makeSilence_none. }
  rewrite Hsil. cbn [bind]. unfold concatenate.
  destruct (Nat.eqb_spec i 0) as [E0 | N0].
  - destruct cur; reflexivity.
  - destruct cur as [snd |]; [| exfalso; apply (Hcur N0); reflexivity].
    rewrite <- app_assoc. reflexivity.
Qed.

Lemma join_fold (k : nat) :
  (k <= length sndList)%nat ->
  (Nat.min k (length sndList - 1) <= length ISIList)%nat ->
  fold_left (joinStep sndList ISIList fs) (seq 0 k) (Ok None)
  = Ok (match k with
        | O => None
        | S _ => Some (concat (map piece (seq 0 k)))
        end).
Proof.
  induction k as [| k IH]; intros Hk Hisi; [reflexivity |].
  rewrite seq_S, fold_left_app, IH by lia. cbn [fold_left Nat.add].
  rewrite joinStep_piece; [| lia | lia | destruct k; [lia | discriminate]].
  rewrite map_app, concat_app. cbn [map concat]. rewrite app_nil_r.
  destruct k as [| k']; [reflexivity |].
  reflexivity.
Qed.

Lemma join_fold_pos (k : nat) :
  (0 < k <= length sndList)%nat ->
  (Nat.min k (length sndList - 1) <= length ISIList)%nat ->
  fold_left (joinStep sndList ISIList fs) (seq 0 k) (Ok None)
  = Ok (Some (concat (map piece (seq 0 k)))).
Proof.
  intros Hk Hisi. rewrite join_fold by lia. destruct k; [lia | reflexivity].
Qed.

Lemma joinSndISI_value :
  (length sndList - 1 <= length ISIList)%nat ->
  sndList <> [] ->
  joinSndISI sndList ISIList fs = Ok (joined sndList (map gapOf ISIList)).
Proof.
  intros Hisi Hne. unfold joinSndISI.
  assert (Hpos : (0 < length sndList)%nat).
  { destruct (Nat.eq_dec (length sndList) 0) as [E | N]; [| lia].
    apply length_zero_iff_nil in E. contradiction. }
  rewrite join_fold_pos by lia. cbn [bind]. f_equal.
  unfold piece. apply pieces_joined.
Qed.

Lemma joinStep_raise (e : exn) (i : nat) :
  joinStep sndList ISIList fs (Raise e) i = Raise e.
Proof. reflexivity. Qed.

Lemma join_fold_raise (e : exn) (l : list nat) :
  fold_left (joinStep sndList ISIList fs) l (Raise e) = Raise e.
Proof.
  induction l as [| i l IH]; [reflexivity |]. cbn [fold_left].
  rewrite joinStep_raise. exact IH.
Qed.

Lemma joinSndISI_short :
  (length ISIList < length sndList - 1)%nat ->
  joinSndISI sndList ISIList fs = Raise (IndexError "list index out of range").
Proof.
  intros Hshort. unfold joinSndISI.
  set (k := length ISIList) in *.
  replace (length sndList) with (k + S (length sndList - S k))%nat at 1 by lia.
  rewrite seq_app, fold_left_app. cbn [seq fold_left Nat.add].
  rewrite join_fold by lia.
  assert (Hstep : forall cur,
             joinStep sndList ISIList fs (Ok cur) k
             = Raise (IndexError "list index out of range")).
  { intros cur. unfold joinStep. cbn [bind].
    destruct (Nat.ltb_spec k (length sndList - 1)) as [_ | H]; [| lia].
    destruct (nth_error ISIList k) as [d |] eqn:Ed; [| reflexivity].
    assert (Hk : (k < length ISIList)%nat).
    { apply nth_error_Some. rewrite Ed. discriminate. }
    unfold k in Hk. lia. }
  rewrite Hstep, join_fold_raise. reflexivity.
Qed.

End JoinSounds.

Lemma joined_rows_two (s1 s2 : Signal) (g : nat) :
  joined [s1; s2] [g] = s1 ++ repeat (0, 0) g ++ s2.
Proof. reflexivity. Qed.

(** X5.  For a list of sounds that is not empty, a positive sampling
    rate and intervals that are not negative, one for each sound but the
    last at least, [joinSndISI] returns the sounds one after the other, a
    silence of round(ISI/1000*fs) rows between each sound and the next and
    nothing after the last one; intervals beyond the last gap are not
    read. *)
Theorem joinSndISI_joins (sndList : list Signal) (ISIList : list R) (fs : R) :
  0 < fs -> Forall (fun d => 0 <= d) ISIList ->
  (length sndList - 1 <= length ISIList)%nat ->
  sndList <> [] ->
  joinSndISI sndList ISIList fs
  = Ok (joined sndList
          (map (fun d => Z.to_nat (py_round (d / 1000 * fs))) ISIList)).
Proof.
  intros Hf Hi Hl Hne. apply joinSndISI_value; assumption.
Qed.

Lemma joinSndISI_joins_witness :
  joinSndISI [[(1, 2)]; [(3, 4)]] [500] 4
  = Ok (joined [[(1, 2)]; [(3, 4)]]
          (map (fun d => Z.to_nat (py_round (d / 1000 * 4))) [500])).
Proof.
  apply (joinSndISI_joins [[(1, 2)]; [(3, 4)]] [500] 4).
  - lra.
  - repeat constructor. lra.
  - simpl. lia.
  - discriminate.
Defined.

(** X6.  [joinSndISI] on an empty list of sounds raises the name error of
    the unbound [snd]; with intervals that are not negative but fewer than
    the gaps between the sounds it raises the index error of
    [ISIList[i]]. *)
Theorem joinSndISI_raises (sndList : list Signal) (ISIList : list R) (fs : R) :
  0 < fs -> Forall (fun d => 0 <= d) ISIList ->
  (length ISIList < length sndList - 1)%nat ->
  joinSndISI sndList ISIList fs = Raise (IndexError "list index out of range")
  /\ joinSndISI [] ISIList fs = Raise (NameError "snd").
Proof.
  intros Hf Hi Hs. split; [apply joinSndISI_short; assumption | reflexivity].
Qed.

Lemma joinSndISI_raises_witness :
  joinSndISI [[(1, 2)]; [(3, 4)]; [(5, 6)]] [500] 4
  = Raise (IndexError "list index out of range")
  /\ joinSndISI [] [500] 4 = Raise (NameError "snd").
Proof.
  apply (joinSndISI_raises [[(1, 2)]; [(3, 4)]; [(5, 6)]] [500] 4).
  - lra.
  - repeat constructor. lra.
  - simpl. lia.
Defined.

(** ** The samples of pureTone *)

(** X7.  For a channel among "Right", "Left" and "Both", a duration and
    ramp that are not negative and a positive sampling rate, the channel
    [pureTone] writes holds, sample by sample, the carrier
    sin(2*pi*frequency*k/fs + phase) times the window: the amplitude times
    the raised-cosine onset ramp on the first nRamp samples, the amplitude
    on the next nSamples, the amplitude times the offset ramp on the last
    nRamp.  The other channel is zero; for "Both" the two channels are the
    same. *)
Theorem pureTone_samples (frequency phase level duration ramp : R)
    (channel : string) (fs maxLevel : R) :
  0 <= duration -> 0 <= ramp -> 0 < fs ->
  channel_ok channel = true ->
  pureTone frequency phase level duration ramp channel fs maxLevel
  = Ok (placed channel
          (zipR Rmult
             (envelope (py_pow 10 ((level - maxLevel) / 20))
                       (py_round (ramp / 1000 * fs))
                       (py_round (duration / 1000 * fs)))
             (map (fun t => sin (2 * PI * frequency * t + phase))
                  (sdiv (arange (py_round (duration / 1000 * fs)
                                 + py_round (ramp / 1000 * fs) * 2)) fs)))
          (Z.to_nat (py_round (duration / 1000 * fs)
                     + py_round (ramp / 1000 * fs) * 2))).
Proof.
  intros Hd Hr Hf Hc.
  apply (pureTone_value level duration ramp fs maxLevel Hd Hr Hf frequency phase
           channel Hc).
Qed.

Lemma pureTone_samples_witness :
  pureTone 440 0 65 180 10 "Both" 48000 100
  = Ok (placed "Both"
          (zipR Rmult
             (envelope (py_pow 10 ((65 - 100) / 20))
                       (py_round (10 / 1000 * 48000))
                       (py_round (180 / 1000 * 48000)))
             (map (fun t => sin (2 * PI * 440 * t + 0))
                  (sdiv (arange (py_round (180 / 1000 * 48000)
                                 + py_round (10 / 1000 * 48000) * 2)) 48000)))
          (Z.to_nat (py_round (180 / 1000 * 48000)
                     + py_round (10 / 1000 * 48000) * 2))).
Proof.
  apply (pureTone_samples 440 0 65 180 10 "Both" 48000 100);
    [lra | lra | lra | reflexivity].
Defined.

(** ** complexTone and complexToneParallel, once more *)

(** X8.  For the phase relationships "Sine", "Cosine", "Random" (the same
    numbers drawn) and "Schroeder" with a highest harmonic other than 0,
    and the five channel selectors, [complexToneParallel] returns the
    sound [complexTone] returns. *)
Theorem complexToneParallel_same_sound (rand : Z -> R) (F0 : R)
    (harmPhase : string) (lowHarm highHarm : Z)
    (stretch level duration ramp : R) (channel : string) (fs maxLevel : R) :
  0 <= duration -> 0 <= ramp -> 0 < fs ->
  phase_agrees harmPhase highHarm ->
  (chan_single channel || chan_odd channel)%bool = true ->
  exists snd,
    complexTone rand F0 harmPhase lowHarm highHarm stretch level duration ramp
                channel fs maxLevel = Ok snd
    /\ complexToneParallel rand F0 harmPhase lowHarm highHarm stretch level duration
                           ramp channel fs maxLevel = Ok snd.
Proof.
  intros Hd Hr Hf Hp Hc.
  apply (complexToneParallel_agrees rand F0 stretch level duration ramp fs maxLevel
           highHarm Hd Hr Hf harmPhase channel lowHarm Hp Hc).
Qed.

Lemma complexToneParallel_same_sound_witness :
  exists snd,
    complexTone (fun _ => 0) 440 "Schroeder" 3 10 0 55 180 10 "Odd Left" 48000 100
    = Ok snd
    /\ complexToneParallel (fun _ => 0) 440 "Schroeder" 3 10 0 55 180 10 "Odd Left"
                           48000 100 = Ok snd.
Proof.
  apply (complexToneParallel_same_sound (fun _ => 0) 440 "Schroeder" 3 10 0 55 180 10
           "Odd Left" 48000 100); [lra | lra | lra | | reflexivity].
  right. right. right. split; [reflexivity | discriminate].
Defined.

(** ** addSounds, off the ties *)

(** X9.  For a positive sampling rate and a delay that is not negative
    and does not fall half way between two samples, [addSounds] returns
    the overlay of the second sound on the first from row
    round(delay/1000*fs) on: rows that overlap are summed, the gap between
    the sounds, if any, is silence, and the result has
    max(len(snd1), round(delay/1000*fs) + len(snd2)) rows. *)
Theorem addSounds_overlay (snd1 snd2 : Signal) (delay fs : R) :
  0 < fs -> 0 <= delay ->
  frac_part (delay / 1000 * fs) <> 1 / 2 ->
  addSounds snd1 snd2 delay fs
  = Ok (mixAt (Z.to_nat (py_round (delay / 1000 * fs))) snd1 snd2)
  /\ nrows (mixAt (Z.to_nat (py_round (delay / 1000 * fs))) snd1 snd2)
     = Z.max (nrows snd1) (py_round (delay / 1000 * fs) + nrows snd2).
Proof.
  intros Hf Hd Ht.
  destruct (addSounds_mix snd1 snd2 delay fs Hf Hd Ht) as [s [E [M L]]].
  subst s. split; assumption.
Qed.

Lemma addSounds_overlay_witness :
  addSounds [(1, 1); (2, 2)] [(3, 3); (4, 4)] 250 4
  = Ok (mixAt (Z.to_nat (py_round (250 / 1000 * 4))) [(1, 1); (2, 2)] [(3, 3); (4, 4)])
  /\ nrows (mixAt (Z.to_nat (py_round (250 / 1000 * 4)))
                  [(1, 1); (2, 2)] [(3, 3); (4, 4)])
     = Z.max (nrows [(1, 1); (2, 2)]%R)
             (py_round (250 / 1000 * 4) + nrows [(3, 3); (4, 4)]%R).
Proof.
  apply (addSounds_overlay [(1, 1); (2, 2)] [(3, 3); (4, 4)] 250 4).
  - lra.
  - lra.
  - replace (250 / 1000 * 4) with (IZR 1) by lra. rewrite frac_part_IZR. lra.
Defined.

(** X10.  With a delay of 0 and a positive sampling rate [addSounds]
    returns the sum of the two sounds, row by row, the rows the shorter
    sound lacks being those of the longer one: max(len(snd1), len(snd2))
    rows. *)
Theorem addSounds_superposition (snd1 snd2 : Signal) (fs : R) :
  0 < fs ->
  addSounds snd1 snd2 0 fs = Ok (addPad snd1 snd2)
  /\ nrows (addPad snd1 snd2) = Z.max (nrows snd1) (nrows snd2).
Proof.
  intros Hf. apply addSounds_no_delay. exact Hf.
Qed.

Lemma addSounds_superposition_witness :
  addSounds [(1, 1); (2, 2)] [(3, 3)] 0 48000
  = Ok (addPad [(1, 1); (2, 2)] [(3, 3)])
  /\ nrows (addPad [(1, 1); (2, 2)] [(3, 3)])
     = Z.max (nrows [(1, 1); (2, 2)]%R) (nrows [(3, 3)]%R).
Proof.
  apply (addSounds_superposition [(1, 1); (2, 2)] [(3, 3)] 48000). lra.
Defined.

(** ** binauralPureTone *)

Lemma envelope_scaled (k amp : R) (nRamp nSamples : Z) :
  envelope (k * amp) nRamp nSamples = map (fun x => k * x) (envelope amp nRamp nSamples).
Proof.
  unfold envelope. rewrite !map_app, !map_map.
  f_equal; [| f_equal].
  - apply map_ext. intros t. ring.
  - induction (Z.to_nat nSamples) as [| m IH]; simpl; congruence.
  - apply map_ext. intros t. ring.
Qed.

Lemma zipR_mult_scaled (k : R) (E c : list R) :
  zipR Rmult (map (fun x => k * x) E) c = map (fun x => k * x) (zipR Rmult E c).
Proof.
  revert c. induction E as [| e E IH]; intros [| x c]; try reflexivity.
  change (k * e * x :: zipR Rmult (map (fun x => k * x) E) c
          = k * (e * x) :: map (fun x => k * x) (zipR Rmult E c)).
  rewrite IH. f_equal. ring.
Qed.

Lemma itdtoipd_value (itd freq : R) :
  freq <> 0 -> itdtoipd itd freq = Ok (2 * PI * freq * itd).
Proof.
  intros Hf. unfold itdtoipd.
  destruct (Req_dec_T freq 0) as [E | _]; [contradiction |].
  f_equal. field. exact Hf.
Qed.

Section BinauralValues.

Variables (frequency phase level duration ramp fs maxLevel : R).

Hypothesis duration_nonneg : 0 <= duration.
Hypothesis ramp_nonneg : 0 <= ramp.
Hypothesis fs_pos : 0 < fs.

Let nSamples := py_round (duration / 1000 * fs).
Let nRamp := py_round (ramp / 1000 * fs).
Let nTot := (nSamples + nRamp * 2)%Z.
Let timeAll := sdiv (arange nTot) fs.
Let car (ph : R) := map (fun t => sin (2 * PI * frequency * t + ph)) timeAll.

(** The two columns of the branch [channel == 'Both']. *)
Lemma binaural_both_columns (ampLeft ampRight phaseLeft phaseRight : R) :
  (snd <- zeros nTot ;;
   snd <- ramped setcol0 ampLeft nRamp nSamples (Z.of_nat (length timeAll))
            (arange nRamp)
            (fun lo hi => map (fun t => sin (2 * PI * frequency * t + phaseLeft))
                              (slice lo hi timeAll)) snd ;;
   ramped setcol1 ampRight nRamp nSamples (Z.of_nat (length timeAll))
          (arange nRamp)
          (fun lo hi => map (fun t => sin (2 * PI * frequency * t + phaseRight))
                            (slice lo hi timeAll)) snd)
  = Ok (combine (zipR Rmult (envelope ampLeft nRamp nSamples) (car phaseLeft))
                (zipR Rmult (envelope ampRight nRamp nSamples) (car phaseRight))).
Proof.
  assert (HS : (0 <= nSamples)%Z) by (apply nSamples_nonneg; assumption).
  assert (HR : (0 <= nRamp)%Z) by (apply nRamp_nonneg; assumption).
  assert (LT : length timeAll = Z.to_nat nTot).
  { unfold timeAll. rewrite sdiv_length, arange_length. reflexivity. }
  assert (Hn : Z.of_nat (Z.to_nat nTot) = nTot) by (unfold nTot; lia).
  assert (Lcar : forall ph, Z.of_nat (length (car ph)) = nTot).
  { intros ph. unfold car. rewrite length_map, LT. exact Hn. }
  assert (LE : forall a, length (envelope a nRamp nSamples) = Z.to_nat nTot).
  { intros a. apply envelope_length; assumption. }
  rewrite zeros_returns by (unfold nTot; lia). cbn [bind].
  rewrite LT, Hn.
  rewrite (ramped_col0 ampLeft nRamp nSamples nTot _ (car phaseLeft));
    try assumption; try reflexivity; try apply Lcar;
    [| rewrite repeat_length; exact Hn | intros lo hi; apply slice_map].
  cbn [bind].
  rewrite (ramped_col1 ampRight nRamp nSamples nTot _ (car phaseRight));
    try assumption; try reflexivity; try apply Lcar;
    [| | intros lo hi; apply slice_map].
  - rewrite col0_combine; [reflexivity |].
    rewrite col1_repeat_zero, repeat_length, zipR_length.
    + apply LE.
    + rewrite LE. apply Nat2Z.inj. rewrite Lcar, Hn. reflexivity.
  - rewrite length_combine, col1_repeat_zero, repeat_length, zipR_length.
    + rewrite LE. lia.
    + rewrite LE. apply Nat2Z.inj. rewrite Lcar, Hn. reflexivity.
Qed.

Lemma binauralPureTone_both (itd ild : R) (itdRef ildRef : option string)
    (ampLeft ampRight phaseLeft phaseRight : R) :
  frequency <> 0 ->
  ref_ok itdRef = true -> ref_ok ildRef = true ->
  binauralAmps level ild maxLevel ildRef = Some (ampLeft, ampRight) ->
  binauralPhases phase (2 * PI * frequency * (itd / 1000000)) itdRef
  = Some (phaseLeft, phaseRight) ->
  binauralPureTone frequency phase level duration ramp "Both" itd itdRef ild ildRef
                   fs maxLevel
  = Ok (combine (zipR Rmult (envelope ampLeft nRamp nSamples) (car phaseLeft))
                (zipR Rmult (envelope ampRight nRamp nSamples) (car phaseRight))).
Proof.
  intros Hf Hi Hl Ha Hp. unfold binauralPureTone.
  rewrite Hi, Hl. cbn [channel_ok existsb String.eqb Ascii.eqb Bool.eqb negb orb].
  rewrite itdtoipd_value by exact Hf. cbn [bind]. rewrite Ha, Hp.
  apply binaural_both_columns.
Qed.

End BinauralValues.

Lemma ref_ok_cases (ref : option string) :
  ref_ok ref = true ->
  ref = None \/ ref = Some "Right"%string \/ ref = Some "Left"%string.
Proof.
  destruct ref as [s |]; [| intros _; left; reflexivity].
  unfold ref_ok. rewrite orb_true_iff, !String.eqb_eq.
  intros [-> | ->]; [right; left | right; right]; reflexivity.
Qed.

Lemma binauralPhases_bound (phase ipd : R) (itdRef : option string) :
  ref_ok itdRef = true ->
  exists phaseLeft phaseRight,
    binauralPhases phase ipd itdRef = Some (phaseLeft, phaseRight).
Proof.
  intros H. destruct (ref_ok_cases itdRef H) as [-> | [-> | ->]]; simpl; eauto.
Qed.

Lemma tone_column_length (g : R -> R) (a fs : R) (nRamp nSamples : Z) :
  (0 <= nRamp)%Z -> (0 <= nSamples)%Z ->
  length (zipR Rmult (envelope a nRamp nSamples)
            (map g (sdiv (arange (nSamples + nRamp * 2)) fs)))
  = Z.to_nat (nSamples + nRamp * 2).
Proof.
  intros HR HS.
  rewrite zipR_length; rewrite envelope_length by assumption; [reflexivity |].
  rewrite length_map, sdiv_length, arange_length. reflexivity.
Qed.

Lemma ild_amplitude (level ild maxLevel : R) :
  py_pow 10 ((level + ild - maxLevel) / 20)
  = py_pow 10 (ild / 20) * py_pow 10 ((level - maxLevel) / 20).
Proof.
  rewrite <- py_pow_ten_plus. f_equal. field.
Qed.

(** ** binauralPureTone: what the time and level differences do *)

(** X11.  Without reference channels ([itdRef] and [ildRef] both None)
    [binauralPureTone] returns the sound of [pureTone], whatever [itd] and
    [ild] are; for the channels "Right" and "Left" it does so with any
    valid reference channels, the differences being read only in the branch
    for "Both".  For "Both" the frequency must not be 0, since the phase
    difference is computed by a division by it. *)
Theorem binauralPureTone_plain (frequency phase level duration ramp : R)
    (channel : string) (itd : R) (itdRef : option string) (ild : R)
    (ildRef : option string) (fs maxLevel : R) :
  0 <= duration -> 0 <= ramp -> 0 < fs ->
  channel_ok channel = true ->
  ref_ok itdRef = true -> ref_ok ildRef = true ->
  (channel = "Both"%string -> frequency <> 0 /\ itdRef = None /\ ildRef = None) ->
  binauralPureTone frequency phase level duration ramp channel itd itdRef ild ildRef
                   fs maxLevel
  = pureTone frequency phase level duration ramp channel fs maxLevel.
Proof.
  intros Hd Hr Hf Hc Hi Hl Hb.
  destruct (channel_ok_cases channel Hc) as [-> | [-> | ->]].
  - unfold binauralPureTone, pureTone. rewrite Hi, Hl. reflexivity.
  - unfold binauralPureTone, pureTone. rewrite Hi, Hl. reflexivity.
  - destruct (Hb eq_refl) as (Hfreq & -> & ->).
    rewrite (binauralPureTone_both frequency phase level duration ramp fs maxLevel
               Hd Hr Hf itd ild None None _ _ phase phase Hfreq
               eq_refl eq_refl eq_refl eq_refl).
    rewrite (pureTone_value level duration ramp fs maxLevel Hd Hr Hf frequency phase
               "Both" eq_refl).
    reflexivity.
Qed.

Lemma binauralPureTone_plain_witness :
  binauralPureTone 440 0 65 180 10 "Both" 480 None (-20) None 48000 100
  = pureTone 440 0 65 180 10 "Both" 48000 100.
Proof.
  apply (binauralPureTone_plain 440 0 65 180 10 "Both" 480 None (-20) None 48000 100);
    try lra; try reflexivity.
  intros _. split; [lra | split; reflexivity].
Defined.

(** X12.  The level difference.  For channel "Both" and a frequency other
    than 0, the sound with [ildRef] "Right" is the sound without a level
    reference (same [itd] and [itdRef]) with its left channel multiplied by
    10^(ild/20); with [ildRef] "Left" it is the right channel that is
    multiplied.  The reference channel keeps the level [level]. *)
Theorem binauralPureTone_ild (frequency phase level duration ramp itd : R)
    (itdRef : option string) (ild fs maxLevel : R) :
  0 <= duration -> 0 <= ramp -> 0 < fs ->
  frequency <> 0 ->
  ref_ok itdRef = true ->
  exists p,
    binauralPureTone frequency phase level duration ramp "Both" itd itdRef ild None
                     fs maxLevel = Ok p
    /\ binauralPureTone frequency phase level duration ramp "Both" itd itdRef ild
                        (Some "Right"%string) fs maxLevel
       = Ok (combine (map (fun x => py_pow 10 (ild / 20) * x) (col0 p)) (col1 p))
    /\ binauralPureTone frequency phase level duration ramp "Both" itd itdRef ild
                        (Some "Left"%string) fs maxLevel
       = Ok (combine (col0 p) (map (fun x => py_pow 10 (ild / 20) * x) (col1 p))).
Proof.
  intros Hd Hr Hf Hfreq Hi.
  destruct (binauralPhases_bound phase (2 * PI * frequency * (itd / 1000000)) itdRef Hi)
    as (pL & pR & Hp).
  pose proof (nSamples_nonneg duration fs Hd Hf) as HS.
  pose proof (nRamp_nonneg ramp fs Hr Hf) as HR.
  eexists. split; [| split].
  - apply (binauralPureTone_both frequency phase level duration ramp fs maxLevel
             Hd Hr Hf itd ild itdRef None _ _ pL pR Hfreq Hi eq_refl eq_refl Hp).
  - rewrite (binauralPureTone_both frequency phase level duration ramp fs maxLevel
               Hd Hr Hf itd ild itdRef (Some "Right"%string) _ _ pL pR Hfreq Hi
               eq_refl eq_refl Hp).
    rewrite col0_combine, col1_combine
      by (rewrite !tone_column_length by assumption; reflexivity).
    rewrite ild_amplitude, envelope_scaled, zipR_mult_scaled. reflexivity.
  - rewrite (binauralPureTone_both frequency phase level duration ramp fs maxLevel
               Hd Hr Hf itd ild itdRef (Some "Left"%string) _ _ pL pR Hfreq Hi
               eq_refl eq_refl Hp).
    rewrite col0_combine, col1_combine
      by (rewrite !tone_column_length by assumption; reflexivity).
    rewrite ild_amplitude, envelope_scaled, zipR_mult_scaled. reflexivity.
Qed.

Lemma binauralPureTone_ild_witness :
  exists p,
    binauralPureTone 440 0 65 180 10 "Both" 0 None (-20) None 48000 100 = Ok p
    /\ binauralPureTone 440 0 65 180 10 "Both" 0 None (-20) (Some "Right"%string)
                        48000 100
       = Ok (combine (map (fun x => py_pow 10 (-20 / 20) * x) (col0 p)) (col1 p))
    /\ binauralPureTone 440 0 65 180 10 "Both" 0 None (-20) (Some "Left"%string)
                        48000 100
       = Ok (combine (col0 p) (map (fun x => py_pow 10 (-20 / 20) * x) (col1 p))).
Proof.
  apply (binauralPureTone_ild 440 0 65 180 10 0 None (-20) 48000 100);
    try lra; reflexivity.
Defined.

(** X13.  The time difference.  For channel "Both", a frequency other than
    0 and no level reference, the sound with [itdRef] "Right" has as its
    right channel the tone of [pureTone] and as its left channel the tone
    of [pureTone] with the starting phase advanced by
    2*pi*frequency*itd/1000000, that is the same tone [itd] microseconds
    ahead; with [itdRef] "Left" the two channels change places. *)
Theorem binauralPureTone_itd (frequency phase level duration ramp itd ild : R)
    (fs maxLevel : R) :
  0 <= duration -> 0 <= ramp -> 0 < fs ->
  frequency <> 0 ->
  exists p q,
    pureTone frequency phase level duration ramp "Both" fs maxLevel = Ok p
    /\ pureTone frequency (phase + 2 * PI * frequency * (itd / 1000000))
                level duration ramp "Both" fs maxLevel = Ok q
    /\ binauralPureTone frequency phase level duration ramp "Both" itd
                        (Some "Right"%string) ild None fs maxLevel
       = Ok (combine (col0 q) (col1 p))
    /\ binauralPureTone frequency phase level duration ramp "Both" itd
                        (Some "Left"%string) ild None fs maxLevel
       = Ok (combine (col0 p) (col1 q)).
Proof.
  intros Hd Hr Hf Hfreq.
  pose proof (nSamples_nonneg duration fs Hd Hf) as HS.
  pose proof (nRamp_nonneg ramp fs Hr Hf) as HR.
  do 2 eexists. split; [| split; [| split]].
  - apply (pureTone_value level duration ramp fs maxLevel Hd Hr Hf frequency phase
             "Both" eq_refl).
  - apply (pureTone_value level duration ramp fs maxLevel Hd Hr Hf frequency _
             "Both" eq_refl).
  - rewrite (binauralPureTone_both frequency phase level duration ramp fs maxLevel
               Hd Hr Hf itd ild (Some "Right"%string) None _ _ _ _ Hfreq
               eq_refl eq_refl eq_refl eq_refl).
    unfold placed. cbn [String.eqb Ascii.eqb Bool.eqb].
    rewrite col0_combine, col1_combine by reflexivity. reflexivity.
  - rewrite (binauralPureTone_both frequency phase level duration ramp fs maxLevel
               Hd Hr Hf itd ild (Some "Left"%string) None _ _ _ _ Hfreq
               eq_refl eq_refl eq_refl eq_refl).
    unfold placed. cbn [String.eqb Ascii.eqb Bool.eqb].
    rewrite col0_combine, col1_combine by reflexivity. reflexivity.
Qed.

Lemma binauralPureTone_itd_witness :
  exists p q,
    pureTone 440 0 65 180 10 "Both" 48000 100 = Ok p
    /\ pureTone 440 (0 + 2 * PI * 440 * (480 / 1000000)) 65 180 10 "Both" 48000 100
       = Ok q
    /\ binauralPureTone 440 0 65 180 10 "Both" 480 (Some "Right"%string) 0 None
                        48000 100
       = Ok (combine (col0 q) (col1 p))
    /\ binauralPureTone 440 0 65 180 10 "Both" 480 (Some "Left"%string) 0 None
                        48000 100
       = Ok (combine (col0 p) (col1 q)).
Proof.
  apply (binauralPureTone_itd 440 0 65 180 10 480 0 48000 100); lra.
Defined.

(** X14.  With channel "Both" and valid reference channels, a frequency of
    0 makes [binauralPureTone] raise ZeroDivisionError (the period
    1.0/freq in [itdtoipd]), also when no time difference is asked for;
    [pureTone] with the same arguments returns a sound. *)
Theorem binauralPureTone_zero_frequency (phase level duration ramp itd : R)
    (itdRef : option string) (ild : R) (ildRef : option string) (fs maxLevel : R) :
  0 <= duration -> 0 <= ramp -> 0 < fs ->
  ref_ok itdRef = true -> ref_ok ildRef = true ->
  binauralPureTone 0 phase level duration ramp "Both" itd itdRef ild ildRef
                   fs maxLevel = Raise ZeroDivisionError
  /\ exists p, pureTone 0 phase level duration ramp "Both" fs maxLevel = Ok p.
Proof.
  intros Hd Hr Hf Hi Hl. split.
  - unfold binauralPureTone. rewrite Hi, Hl.
    cbn [channel_ok existsb String.eqb Ascii.eqb Bool.eqb negb orb].
    unfold itdtoipd. destruct (Req_dec_T 0 0) as [_ | N]; [reflexivity | lra].
  - eexists.
    apply (pureTone_value level duration ramp fs maxLevel Hd Hr Hf 0 phase
             "Both" eq_refl).
Qed.

Lemma binauralPureTone_zero_frequency_witness :
  binauralPureTone 0 0 65 180 10 "Both" 0 None 0 None 48000 100
  = Raise ZeroDivisionError
  /\ exists p, pureTone 0 0 65 180 10 "Both" 48000 100 = Ok p.
Proof.
  apply (binauralPureTone_zero_frequency 0 65 180 10 0 None 0 None 48000 100);
    try lra; reflexivity.
Defined.

(** ** gate *)

Lemma zipR_mult_one_r (c : list R) : zipR Rmult c (repeat 1 (length c)) = c.
Proof.
  induction c as [| x c IH]; [reflexivity |].
  change (x * 1 :: zipR Rmult c (repeat 1 (length c)) = x :: c).
  rewrite IH, Rmult_1_r. reflexivity.
Qed.

Lemma zipR_mult_assoc (a b c : list R) :
  zipR Rmult (zipR Rmult a b) c = zipR Rmult a (zipR Rmult b c).
Proof.
  revert b c. induction a as [| x a IH]; intros [| y b] [| z c]; try reflexivity.
  change (x * y * z :: zipR Rmult (zipR Rmult a b) c
          = x * (y * z) :: zipR Rmult a (zipR Rmult b c)).
  rewrite IH, Rmult_assoc. reflexivity.
Qed.

Lemma zipR_mult_comm (a b : list R) : zipR Rmult a b = zipR Rmult b a.
Proof.
  revert b. induction a as [| x a IH]; intros [| y b]; try reflexivity.
  change (x * y :: zipR Rmult a b = y * x :: zipR Rmult b a).
  rewrite IH, Rmult_comm. reflexivity.
Qed.

Lemma zipR_map_ones_r (f : R -> R) (l : list R) :
  zipR Rmult (map f l) (repeat 1 (length l)) = map (fun t => 1 * f t) l.
Proof.
  induction l as [| t l IH]; [reflexivity |].
  change (f t * 1 :: zipR Rmult (map f l) (repeat 1 (length l))
          = 1 * f t :: map (fun t => 1 * f t) l).
  rewrite IH. f_equal. ring.
Qed.

Lemma zipR_ones_map_l (f : R -> R) (l : list R) :
  zipR Rmult (repeat 1 (length l)) (map f l) = map (fun t => 1 * f t) l.
Proof. rewrite zipR_mult_comm. apply zipR_map_ones_r. Qed.

Lemma zipR_ones (m : nat) : zipR Rmult (repeat 1 m) (repeat 1 m) = repeat 1 m.
Proof.
  rewrite <- (repeat_length 1 m) at 2. apply zipR_mult_one_r.
Qed.

(** [c[lo:hi] = c[lo:hi] * w] multiplies the column by [w] on the slice
    and by 1 elsewhere. *)
Lemma window_column (lo hi : Z) (w c : list R) :
  (0 <= lo <= hi)%Z -> (hi <= Z.of_nat (length c))%Z ->
  length w = Z.to_nat (hi - lo) ->
  firstn (Z.to_nat lo) c ++ zipR Rmult (slice lo hi c) w ++ skipn (Z.to_nat hi) c
  = zipR Rmult c (repeat 1 (Z.to_nat lo) ++ w ++ repeat 1 (length c - Z.to_nat hi)).
Proof.
  intros H1 H2 Lw.
  rewrite slice_in by assumption.
  set (c1 := firstn (Z.to_nat lo) c).
  set (c2 := firstn (Z.to_nat (hi - lo)) (skipn (Z.to_nat lo) c)).
  set (c3 := skipn (Z.to_nat hi) c).
  assert (L1 : length c1 = Z.to_nat lo).
  { unfold c1. rewrite length_firstn. lia. }
  assert (L2 : length c2 = Z.to_nat (hi - lo)).
  { unfold c2. rewrite length_firstn, length_skipn. lia. }
  assert (L3 : length c3 = (length c - Z.to_nat hi)%nat).
  { unfold c3. apply length_skipn. }
  assert (Hc : c = c1 ++ c2 ++ c3).
  { unfold c1, c2, c3.
    rewrite <- (firstn_skipn (Z.to_nat lo) c) at 1. f_equal.
    rewrite <- (firstn_skipn (Z.to_nat (hi - lo)) (skipn (Z.to_nat lo) c)) at 1.
    f_equal. rewrite skipn_skipn. f_equal. lia. }
  assert (E1 : zipR Rmult c1 (repeat 1 (Z.to_nat lo)) = c1).
  { rewrite <- L1. apply zipR_mult_one_r. }
  assert (E3 : zipR Rmult c3 (repeat 1 (length c - Z.to_nat hi)) = c3).
  { rewrite <- L3. apply zipR_mult_one_r. }
  transitivity (zipR Rmult (c1 ++ c2 ++ c3)
                  (repeat 1 (Z.to_nat lo) ++ w ++ repeat 1 (length c - Z.to_nat hi)));
    [| rewrite <- Hc; reflexivity].
  rewrite zipR_app by (rewrite repeat_length; exact L1).
  rewrite zipR_app by congruence.
  rewrite E1, E3. reflexivity.
Qed.

Lemma window_write0 (lo hi : Z) (w : list R) (s : Signal) :
  (0 <= lo <= hi)%Z -> (hi <= Z.of_nat (length s))%Z ->
  length w = Z.to_nat (hi - lo) ->
  (v <- bcast2 Rmult (slice lo hi (col0 s)) w ;; setcol0 lo hi v s)
  = Ok (combine
          (zipR Rmult (col0 s)
             (repeat 1 (Z.to_nat lo) ++ w ++ repeat 1 (length s - Z.to_nat hi)))
          (col1 s)).
Proof.
  intros H1 H2 Lw.
  assert (Ls : length (slice lo hi (col0 s)) = Z.to_nat (hi - lo)).
  { apply slice_length; [assumption | rewrite col0_length; assumption]. }
  rewrite bcast2_zip by congruence. cbn [bind].
  rewrite setcol0_in; [| assumption | assumption | rewrite zipR_length; congruence].
  rewrite window_column; [| assumption | rewrite col0_length; assumption | assumption].
  rewrite col0_length. reflexivity.
Qed.

Lemma window_write1 (lo hi : Z) (w : list R) (s : Signal) :
  (0 <= lo <= hi)%Z -> (hi <= Z.of_nat (length s))%Z ->
  length w = Z.to_nat (hi - lo) ->
  (v <- bcast2 Rmult (slice lo hi (col1 s)) w ;; setcol1 lo hi v s)
  = Ok (combine (col0 s)
          (zipR Rmult (col1 s)
             (repeat 1 (Z.to_nat lo) ++ w ++ repeat 1 (length s - Z.to_nat hi)))).
Proof.
  intros H1 H2 Lw.
  assert (Ls : length (slice lo hi (col1 s)) = Z.to_nat (hi - lo)).
  { apply slice_length; [assumption | rewrite col1_length; assumption]. }
  rewrite bcast2_zip by congruence. cbn [bind].
  rewrite setcol1_in; [| assumption | assumption | rewrite zipR_length; congruence].
  rewrite window_column; [| assumption | rewrite col1_length; assumption | assumption].
  rewrite col1_length. reflexivity.
Qed.

Lemma window_then0 (lo hi : Z) (w : list R) (s : Signal)
    (k : Signal -> result Signal) :
  (0 <= lo <= hi)%Z -> (hi <= Z.of_nat (length s))%Z ->
  length w = Z.to_nat (hi - lo) ->
  (v <- bcast2 Rmult (slice lo hi (col0 s)) w ;; s' <- setcol0 lo hi v s ;; k s')
  = k (combine
         (zipR Rmult (col0 s)
            (repeat 1 (Z.to_nat lo) ++ w ++ repeat 1 (length s - Z.to_nat hi)))
         (col1 s)).
Proof.
  intros H1 H2 Lw.
  pose proof (window_write0 lo hi w s H1 H2 Lw) as E.
  destruct (bcast2 Rmult (slice lo hi (col0 s)) w) as [v | e]; cbn [bind] in *;
    [| discriminate].
  rewrite E. reflexivity.
Qed.

Lemma window_then1 (lo hi : Z) (w : list R) (s : Signal)
    (k : Signal -> result Signal) :
  (0 <= lo <= hi)%Z -> (hi <= Z.of_nat (length s))%Z ->
  length w = Z.to_nat (hi - lo) ->
  (v <- bcast2 Rmult (slice lo hi (col1 s)) w ;; s' <- setcol1 lo hi v s ;; k s')
  = k (combine (col0 s)
         (zipR Rmult (col1 s)
            (repeat 1 (Z.to_nat lo) ++ w ++ repeat 1 (length s - Z.to_nat hi)))).
Proof.
  intros H1 H2 Lw.
  pose proof (window_write1 lo hi w s H1 H2 Lw) as E.
  destruct (bcast2 Rmult (slice lo hi (col1 s)) w) as [v | e]; cbn [bind] in *;
    [| discriminate].
  rewrite E. reflexivity.
Qed.

(** The onset window followed by the offset window is the window of the
    generators at amplitude 1. *)
Lemma gate_windows (nRamp m : Z) :
  (0 <= nRamp)%Z -> (0 <= m)%Z ->
  zipR Rmult
    (repeat 1 (Z.to_nat 0)
     ++ map (fun t => (1 - cos (PI * t / IZR nRamp)) / 2) (arange nRamp)
     ++ repeat 1 (Z.to_nat (nRamp + m + nRamp) - Z.to_nat nRamp))
    (repeat 1 (Z.to_nat (nRamp + m))
     ++ map (fun t => (1 + cos (PI * t / IZR nRamp)) / 2) (arange nRamp)
     ++ repeat 1 (Z.to_nat (nRamp + m + nRamp) - Z.to_nat (nRamp + m + nRamp)))
  = envelope 1 nRamp m.
Proof.
  intros HR Hm. unfold envelope.
  pose proof (arange_length nRamp) as La.
  rewrite Nat.sub_diag. cbn [Z.to_nat repeat app]. rewrite app_nil_r.
  replace (Z.to_nat (nRamp + m + nRamp) - Z.to_nat nRamp)%nat
    with (Z.to_nat m + Z.to_nat nRamp)%nat by lia.
  replace (Z.to_nat (nRamp + m)) with (Z.to_nat nRamp + Z.to_nat m)%nat by lia.
  rewrite !repeat_app, <- app_assoc.
  rewrite zipR_app by (rewrite length_map, repeat_length; lia).
  rewrite zipR_app by reflexivity.
  rewrite zipR_ones, <- La, zipR_map_ones_r, zipR_ones_map_l.
  reflexivity.
Qed.

Lemma gate_value (ramps fs : R) (sig : Signal) (m : Z) :
  (0 <= py_round (ramps / 1000 * fs))%Z -> (0 <= m)%Z ->
  nrows sig = (py_round (ramps / 1000 * fs) * 2 + m)%Z ->
  gate ramps sig fs
  = Ok (combine
          (zipR Rmult (col0 sig) (envelope 1 (py_round (ramps / 1000 * fs)) m))
          (zipR Rmult (col1 sig) (envelope 1 (py_round (ramps / 1000 * fs)) m))).
Proof.
  intros HR Hm Hn. unfold gate, nrows in *.
  set (nRamp := py_round (ramps / 1000 * fs)) in *.
  pose proof (arange_length nRamp) as La.
  rewrite col1_length.
  assert (Hlen : Z.of_nat (length sig) = (nRamp + m + nRamp)%Z) by lia.
  rewrite Hlen.
  replace (nRamp + m + nRamp - nRamp)%Z with (nRamp + m)%Z by lia.
  set (up := map (fun t => (1 - cos (PI * t / IZR nRamp)) / 2) (arange nRamp)).
  set (down := map (fun t => (1 + cos (PI * t / IZR nRamp)) / 2) (arange nRamp)).
  assert (Lup : length up = Z.to_nat nRamp) by (unfold up; rewrite length_map; exact La).
  assert (Ldn : length down = Z.to_nat nRamp)
    by (unfold down; rewrite length_map; exact La).
  assert (Ln : length sig = Z.to_nat (nRamp + m + nRamp)) by lia.
  set (W1 := repeat 1 (Z.to_nat 0) ++ up
             ++ repeat 1 (Z.to_nat (nRamp + m + nRamp) - Z.to_nat nRamp)).
  set (W2 := repeat 1 (Z.to_nat (nRamp + m)) ++ down
             ++ repeat 1 (Z.to_nat (nRamp + m + nRamp) - Z.to_nat (nRamp + m + nRamp))).
  assert (LW1 : length W1 = length sig).
  { unfold W1. rewrite !length_app, !repeat_length. lia. }
  assert (LW2 : length W2 = length sig).
  { unfold W2. rewrite !length_app, !repeat_length. lia. }
  pose proof (col0_length sig) as L0. pose proof (col1_length sig) as L1.
  set (a1 := zipR Rmult (col0 sig) W1).
  set (b1 := zipR Rmult (col1 sig) W1).
  assert (La1 : length a1 = length sig) by (unfold a1; rewrite zipR_length; congruence).
  assert (Lb1 : length b1 = length sig) by (unfold b1; rewrite zipR_length; congruence).
  (* the onset ramp on the two columns *)
  rewrite (window_then0 0 nRamp up sig) by lia. rewrite Ln. fold W1 a1.
  set (s1 := combine a1 (col1 sig)).
  assert (Ls1 : length s1 = length sig).
  { unfold s1. rewrite length_combine. lia. }
  assert (C01 : col0 s1 = a1) by (apply col0_combine; congruence).
  assert (C11 : col1 s1 = col1 sig) by (apply col1_combine; congruence).
  rewrite (window_then1 0 nRamp up s1) by lia.
  rewrite Ls1, Ln, C01, C11. fold W1 b1.
  set (s2 := combine a1 b1).
  assert (Ls2 : length s2 = length sig).
  { unfold s2. rewrite length_combine. lia. }
  assert (C02 : col0 s2 = a1) by (apply col0_combine; congruence).
  assert (C12 : col1 s2 = b1) by (apply col1_combine; congruence).
  (* the offset ramp on the two columns *)
  rewrite (window_then0 (nRamp + m) (nRamp + m + nRamp) down s2) by lia.
  rewrite Ls2, Ln, C02, C12. fold W2.
  set (a2 := zipR Rmult a1 W2).
  assert (La2 : length a2 = length sig) by (unfold a2; rewrite zipR_length; congruence).
  set (s3 := combine a2 b1).
  assert (Ls3 : length s3 = length sig).
  { unfold s3. rewrite length_combine. lia. }
  assert (C03 : col0 s3 = a2) by (apply col0_combine; congruence).
  assert (C13 : col1 s3 = b1) by (apply col1_combine; congruence).
  rewrite (window_write1 (nRamp + m) (nRamp + m + nRamp) down s3) by lia.
  rewrite Ls3, Ln, C03, C13. fold W2.
  unfold a2, a1, b1. rewrite !zipR_mult_assoc.
  unfold W1, W2, up, down. rewrite gate_windows by assumption.
  reflexivity.
Qed.

Lemma placed_length (thisChan : string) (q : list R) (n : nat) :
  length q = n -> length (placed thisChan q n) = n.
Proof.
  intros L. unfold placed.
  destruct (String.eqb thisChan "Right"); [| destruct (String.eqb thisChan "Left")];
    rewrite length_combine, ?repeat_length; lia.
Qed.

Lemma zipR_zeros_l (W : list R) :
  zipR Rmult (repeat 0 (length W)) W = repeat 0 (length W).
Proof. rewrite zipR_mult_comm. apply zipR_mult_zero_r. Qed.

Lemma envelope_unit (amp : R) (nRamp nSamples : Z) :
  envelope amp nRamp nSamples = map (fun x => amp * x) (envelope 1 nRamp nSamples).
Proof.
  rewrite <- envelope_scaled. f_equal. ring.
Qed.

Lemma py_round_zero_ramp (fs : R) : py_round (0 / 1000 * fs) = 0%Z.
Proof.
  replace (0 / 1000 * fs) with (IZR 0) by lra. apply py_round_IZR.
Qed.

(** The window on a column that has the amplitude already. *)
Lemma window_on_scaled (amp : R) (nRamp nSamples : Z) (car : list R) :
  zipR Rmult (smul amp car) (envelope 1 nRamp nSamples)
  = zipR Rmult (envelope amp nRamp nSamples) car.
Proof.
  rewrite (envelope_unit amp), zipR_mult_scaled. unfold smul.
  rewrite zipR_mult_scaled. f_equal. apply zipR_mult_comm.
Qed.



(** X16.  Gating a tone made without ramps gives the tone made with
    ramps: if the unramped tone has as many samples as the ramped one
    (round(durAll/1000*fs) = round(duration/1000*fs) + 2*round(ramp/1000*fs),
    as for durAll = duration + 2*ramp when these are whole numbers of
    samples), then [gate ramp] of [pureTone] with duration durAll and ramp 0
    is [pureTone] with duration [duration] and ramp [ramp]. *)
Theorem gate_pureTone (frequency phase level durAll duration ramp : R)
    (channel : string) (fs maxLevel : R) :
  0 <= durAll -> 0 <= duration -> 0 <= ramp -> 0 < fs ->
  channel_ok channel = true ->
  py_round (durAll / 1000 * fs)
  = (py_round (duration / 1000 * fs) + py_round (ramp / 1000 * fs) * 2)%Z ->
  exists p,
    pureTone frequency phase level durAll 0 channel fs maxLevel = Ok p
    /\ gate ramp p fs
       = pureTone frequency phase level duration ramp channel fs maxLevel.
Proof.
  intros Ha Hd Hr Hf Hc Hn.
  pose proof (nSamples_nonneg duration fs Hd Hf) as HS.
  pose proof (nRamp_nonneg ramp fs Hr Hf) as HR.
  rewrite (pureTone_value level durAll 0 fs maxLevel Ha (Rle_refl 0) Hf
             frequency phase channel Hc).
  rewrite (pureTone_value level duration ramp fs maxLevel Hd Hr Hf
             frequency phase channel Hc).
  rewrite py_round_zero_ramp, Hn.
  set (nS := py_round (duration / 1000 * fs)) in *.
  set (nR := py_round (ramp / 1000 * fs)) in *.
  replace (nS + nR * 2 + 0 * 2)%Z with (nS + nR * 2)%Z by lia.
  set (car := map (fun t => sin (2 * PI * frequency * t + phase))
                  (sdiv (arange (nS + nR * 2)) fs)).
  set (amp := py_pow 10 ((level - maxLevel) / 20)).
  set (n := Z.to_nat (nS + nR * 2)).
  assert (Lcar : length car = n).
  { unfold car. rewrite length_map, sdiv_length, arange_length. reflexivity. }
  assert (E0 : zipR Rmult (envelope amp 0 (nS + nR * 2)) car = smul amp car).
  { unfold envelope. cbn [arange Z.to_nat seq map app]. rewrite app_nil_r.
    fold n. rewrite <- Lcar. apply zipR_repeat_l. }
  rewrite E0.
  assert (Lq : length (smul amp car) = n) by (rewrite smul_length; exact Lcar).
  assert (LW : length (envelope 1 nR nS) = n) by (apply envelope_length; assumption).
  eexists. split; [reflexivity |].
  rewrite (gate_value ramp fs _ nS HR HS)
    by (unfold nrows; rewrite placed_length by exact Lq; fold nR; unfold n; lia).
  fold nR. f_equal.
  destruct (channel_ok_cases channel Hc) as [-> | [-> | ->]];
    unfold placed; cbn [String.eqb Ascii.eqb Bool.eqb];
    rewrite col0_combine, col1_combine by (rewrite ?repeat_length; congruence);
    rewrite ?window_on_scaled; rewrite <- ?LW, ?zipR_zeros_l; reflexivity.
Qed.

Lemma gate_pureTone_witness :
  exists p,
    pureTone 440 0 65 200 0 "Both" 48000 100 = Ok p
    /\ gate 10 p 48000 = pureTone 440 0 65 180 10 "Both" 48000 100.
Proof.
  apply (gate_pureTone 440 0 65 200 180 10 "Both" 48000 100); try lra;
    [reflexivity |].
  replace (200 / 1000 * 48000) with (IZR 9600) by lra.
  replace (180 / 1000 * 48000) with (IZR 8640) by lra.
  replace (10 / 1000 * 48000) with (IZR 480) by lra.
  rewrite !py_round_IZR. reflexivity.
Defined.

(** X17.  A ramp that rounds to no sample (a duration of 0, or one shorter
    than half a sample) leaves the sound as it is. *)
Theorem gate_no_ramp (ramps fs : R) (sig : Signal) :
  py_round (ramps / 1000 * fs) = 0%Z ->
  gate ramps sig fs = Ok sig.
Proof.
  intros H0.
  rewrite (gate_value ramps fs sig (nrows sig)); rewrite ?H0; unfold nrows; try lia.
  unfold envelope. cbn [arange Z.to_nat seq map app]. rewrite app_nil_r, Nat2Z.id.
  rewrite <- (col0_length sig) at 1. rewrite zipR_mult_one_r.
  rewrite <- (col1_length sig) at 1. rewrite zipR_mult_one_r.
  rewrite combine_cols. reflexivity.
Qed.

Lemma gate_no_ramp_witness : gate 0 [(1, 2); (3, 4)] 48000 = Ok [(1, 2); (3, 4)].
Proof.
  apply (gate_no_ramp 0 48000 [(1, 2); (3, 4)]). apply py_round_zero_ramp.
Defined.

Lemma slice_over {A : Type} (hi : Z) (a : list A) :
  (Z.of_nat (length a) <= hi)%Z -> slice 0%Z hi a = a.
Proof.
  intros H. unfold slice, norm_index.
  destruct (Z.ltb_spec hi 0) as [Hneg | _]; [lia |].
  cbn [Z.ltb Z.compare]. rewrite Z.min_r by exact H.
  rewrite Z.min_l by lia. cbn [Z.to_nat skipn].
  apply firstn_all2. lia.
Qed.

(** X18.  A ramp longer than the sound is refused: when round(ramps/1000*fs)
    exceeds the number of rows (and is not the single sample of a ramp on an
    empty sound), the first assignment of [gate] raises ValueError, the
    ramp and the slice of the sound having different lengths. *)
Theorem gate_ramp_too_long (ramps fs : R) (sig : Signal) :
  (nrows sig < py_round (ramps / 1000 * fs))%Z ->
  py_round (ramps / 1000 * fs) <> 1%Z ->
  exists msg, gate ramps sig fs = Raise (ValueError msg).
Proof.
  intros Hlt H1. unfold gate, nrows in *.
  set (nRamp := py_round (ramps / 1000 * fs)) in *.
  remember (map (fun t => (1 - cos (PI * t / IZR nRamp)) / 2) (arange nRamp)) as up
    eqn:Eup.
  assert (Lup : length up = Z.to_nat nRamp).
  { subst up. rewrite length_map. apply arange_length. }
  clear Eup.
  rewrite (slice_over nRamp (col0 sig)) by (rewrite col0_length; lia).
  destruct sig as [| [l1 r1] [| [l2 r2] sig']].
  - destruct up as [| y1 [| y2 up']]; cbn [length] in Lup, Hlt; try lia.
    unfold bcast2. cbn [col0 map fst length Nat.eqb bind].
    eexists. reflexivity.
  - destruct up as [| y1 [| y2 up']]; cbn [length] in Lup, Hlt; try lia.
    unfold bcast2. cbn [col0 map fst length Nat.eqb bind].
    unfold setcol0, setslice, norm_index.
    cbn [col0 map fst length Z.of_nat Pos.of_succ_nat Z.ltb Z.compare].
    destruct (Z.ltb_spec nRamp 0) as [Hneg | _]; [lia |].
    rewrite Z.min_r by lia.
    cbn [Z.min Z.compare Z.sub Z.opp Z.add Z.to_nat Pos.to_nat Pos.iter_op Nat.add
         length Nat.eqb bind].
    eexists. reflexivity.
  - destruct up as [| y1 [| y2 up']]; cbn [length] in Lup, Hlt; try lia.
    unfold bcast2. cbn [col0 map fst length Nat.eqb].
    destruct (Nat.eqb_spec (length (map fst sig')) (length up')) as [E | _].
    + rewrite length_map in E. lia.
    + eexists. reflexivity.
Qed.

Lemma gate_ramp_too_long_witness :
  exists msg, gate 10 [(1, 2)] 48000 = Raise (ValueError msg).
Proof.
  apply (gate_ramp_too_long 10 48000 [(1, 2)]);
    replace (10 / 1000 * 48000) with (IZR 480) by lra;
    rewrite py_round_IZR; unfold nrows; simpl; lia.
Defined.

(** ** AMTone: the modulated tone *)

Lemma zipR_scaled_r (k : R) (E c : list R) :
  zipR Rmult E (map (fun x => k * x) c) = map (fun x => k * x) (zipR Rmult E c).
Proof.
  rewrite zipR_mult_comm, zipR_mult_scaled. f_equal. apply zipR_mult_comm.
Qed.

Lemma am_piece_ramp (k : R) (Mt U c : list R) :
  zipR Rmult (zipR Rmult (map (fun x => k * x) Mt) U) c
  = zipR Rmult Mt (zipR Rmult (map (fun x => k * x) U) c).
Proof.
  rewrite !zipR_mult_scaled, zipR_scaled_r, zipR_mult_assoc. reflexivity.
Qed.

Lemma am_piece_steady (k : R) (Mt c : list R) :
  zipR Rmult (map (fun x => k * x) Mt) c
  = zipR Rmult Mt (zipR Rmult (repeat k (length c)) c).
Proof.
  rewrite zipR_repeat_l. unfold smul.
  rewrite zipR_scaled_r, zipR_mult_scaled. reflexivity.
Qed.

Section ModulatedValue.

Variable setcol : Z -> Z -> list R -> Signal -> result Signal.
Variable get : Signal -> list R.
Variable put : list R -> Signal -> Signal.

Hypothesis setcol_in : forall lo hi v s,
  (0 <= lo <= hi)%Z -> (hi <= Z.of_nat (length s))%Z ->
  length v = Z.to_nat (hi - lo) ->
  setcol lo hi v s
  = Ok (put (firstn (Z.to_nat lo) (get s) ++ v ++ skipn (Z.to_nat hi) (get s)) s).
Hypothesis get_length : forall s, length (get s) = length s.
Hypothesis get_put : forall x s, length x = length s -> get (put x s) = x.
Hypothesis put_put : forall x y s, length y = length s -> put x (put y s) = put x s.
Hypothesis put_length : forall x s, length x = length s -> length (put x s) = length s.

(** The three assignments of [AMTone] leave the column of [pureTone]
    multiplied by the modulator. *)
Lemma rampedAM_value (amp AMDepth AMFreq : R) (nRamp nSamples nAll : Z)
    (seg : Z -> Z -> list R) (timeAll c : list R) (s : Signal) :
  (0 <= nRamp)%Z -> (0 <= nSamples)%Z ->
  nAll = (nSamples + nRamp * 2)%Z ->
  Z.of_nat (length s) = nAll -> Z.of_nat (length c) = nAll ->
  Z.of_nat (length timeAll) = nAll ->
  (forall lo hi, seg lo hi = slice lo hi c) ->
  rampedAM setcol amp AMDepth AMFreq nRamp nSamples nAll (arange nRamp) timeAll seg s
  = Ok (put (zipR Rmult
               (map (fun t => 1 + AMDepth * sin (2 * PI * AMFreq * t)) timeAll)
               (zipR Rmult (envelope amp nRamp nSamples) c)) s).
Proof.
  intros HR HS HA Ls Lc Lt Hseg.
  assert (HA' : nAll = (nRamp + nSamples + nRamp)%Z) by lia.
  clear HA. rewrite HA' in Ls, Lc, Lt |- *. clear HA'.
  unfold rampedAM. rewrite !Hseg.
  set (M := fun t => 1 + AMDepth * sin (2 * PI * AMFreq * t)).
  pose proof (slice_three nRamp nSamples nRamp c HR HS HR Lc) as Hc3.
  pose proof (slice_three nRamp nSamples nRamp timeAll HR HS HR Lt) as Ht3.
  set (c1 := slice 0%Z nRamp c) in *.
  set (c2 := slice nRamp (nRamp + nSamples)%Z c) in *.
  set (c3 := slice (nRamp + nSamples)%Z (nRamp + nSamples + nRamp)%Z c) in *.
  set (t1 := slice 0%Z nRamp timeAll) in *.
  set (t2 := slice nRamp (nRamp + nSamples)%Z timeAll) in *.
  set (t3 := slice (nRamp + nSamples)%Z (nRamp + nSamples + nRamp)%Z timeAll) in *.
  assert (S1 : length c1 = Z.to_nat nRamp).
  { unfold c1. rewrite slice_length by lia. f_equal. lia. }
  assert (S2 : length c2 = Z.to_nat nSamples).
  { unfold c2. rewrite slice_length by lia. f_equal. lia. }
  assert (S3 : length c3 = Z.to_nat nRamp).
  { unfold c3. rewrite slice_length by lia. f_equal. lia. }
  assert (T1 : length t1 = Z.to_nat nRamp).
  { unfold t1. rewrite slice_length by lia. f_equal. lia. }
  assert (T2 : length t2 = Z.to_nat nSamples).
  { unfold t2. rewrite slice_length by lia. f_equal. lia. }
  assert (T3 : length t3 = Z.to_nat nRamp).
  { unfold t3. rewrite slice_length by lia. f_equal. lia. }
  pose proof (arange_length nRamp) as La.
  set (up := map (fun t => (1 - cos (PI * t / IZR nRamp)) / 2) (arange nRamp)).
  set (down := map (fun t => (1 + cos (PI * t / IZR nRamp)) / 2) (arange nRamp)).
  assert (Lup : length up = Z.to_nat nRamp) by (unfold up; rewrite length_map; exact La).
  assert (Ldn : length down = Z.to_nat nRamp)
    by (unfold down; rewrite length_map; exact La).
  assert (HF : forall l, map (fun t => amp * (1 + AMDepth * sin (2 * PI * AMFreq * t))) l
                         = map (fun x => amp * x) (map M l)).
  { intros l. rewrite map_map. reflexivity. }
  rewrite !HF.
  assert (Lm : forall l, length (map (fun x => amp * x) (map M l)) = length l).
  { intros l. rewrite !length_map. reflexivity. }
  rewrite (bcast2_zip Rmult (map (fun x => amp * x) (map M t1)) up)
    by (rewrite Lm; congruence).
  cbn [bind].
  rewrite (bcast2_zip Rmult (zipR Rmult (map (fun x => amp * x) (map M t1)) up) c1)
    by (rewrite zipR_length; rewrite Lm; congruence).
  cbn [bind].
  rewrite (bcast2_zip Rmult (map (fun x => amp * x) (map M t2)) c2)
    by (rewrite Lm; congruence).
  rewrite (bcast2_zip Rmult (map (fun x => amp * x) (map M t3)) down)
    by (rewrite Lm; congruence).
  cbn [bind].
  rewrite (bcast2_zip Rmult (zipR Rmult (map (fun x => amp * x) (map M t3)) down) c3)
    by (rewrite zipR_length; rewrite Lm; congruence).
  set (v1 := zipR Rmult (zipR Rmult (map (fun x => amp * x) (map M t1)) up) c1).
  set (v2 := zipR Rmult (map (fun x => amp * x) (map M t2)) c2).
  set (v3 := zipR Rmult (zipR Rmult (map (fun x => amp * x) (map M t3)) down) c3).
  cbn [bind].
  assert (E : (snd0 <- setcol 0%Z nRamp v1 s ;;
               snd1 <- setcol nRamp (nRamp + nSamples)%Z v2 snd0 ;;
               setcol (nRamp + nSamples)%Z (nRamp + nSamples + nRamp)%Z v3 snd1)
              = Ok (put (v1 ++ v2 ++ v3) s)).
  { apply (three_writes setcol get put setcol_in get_length get_put put_put put_length);
      try lia.
    - unfold v1. rewrite !zipR_length; rewrite ?zipR_length, ?Lm; congruence.
    - unfold v2. rewrite zipR_length; rewrite ?Lm; congruence.
    - unfold v3. rewrite !zipR_length; rewrite ?zipR_length, ?Lm; congruence. }
  rewrite E. do 2 f_equal.
  unfold envelope. rewrite Hc3, Ht3.
  rewrite (zipR_app Rmult _ _ c1) by (rewrite length_map; congruence).
  rewrite (zipR_app Rmult _ _ c2) by (rewrite repeat_length; congruence).
  rewrite !map_app.
  rewrite zipR_app
    by (rewrite zipR_length; rewrite !length_map; congruence).
  rewrite zipR_app
    by (rewrite zipR_length; rewrite ?length_map, ?repeat_length; congruence).
  unfold v1, v2, v3.
  rewrite (am_piece_ramp amp (map M t1) up c1),
    (am_piece_ramp amp (map M t3) down c3), (am_piece_steady amp (map M t2) c2).
  rewrite <- S2. unfold up, down. rewrite !map_map. reflexivity.
Qed.

End ModulatedValue.

Lemma rampedAM_col1 (amp AMDepth AMFreq : R) (nRamp nSamples nAll : Z)
    (seg : Z -> Z -> list R) (timeAll c : list R) (s : Signal) :
  (0 <= nRamp)%Z -> (0 <= nSamples)%Z ->
  nAll = (nSamples + nRamp * 2)%Z ->
  Z.of_nat (length s) = nAll -> Z.of_nat (length c) = nAll ->
  Z.of_nat (length timeAll) = nAll ->
  (forall lo hi, seg lo hi = slice lo hi c) ->
  rampedAM setcol1 amp AMDepth AMFreq nRamp nSamples nAll (arange nRamp) timeAll seg s
  = Ok (combine (col0 s)
          (zipR Rmult
             (map (fun t => 1 + AMDepth * sin (2 * PI * AMFreq * t)) timeAll)
             (zipR Rmult (envelope amp nRamp nSamples) c))).
Proof.
  apply (rampedAM_value setcol1 col1 (fun x s => combine (col0 s) x)).
  - exact setcol1_in.
  - exact col1_length.
  - intros x s0 H. apply col1_combine. rewrite col0_length. lia.
  - intros x y s0 H. rewrite col0_combine by (rewrite col0_length; lia). reflexivity.
  - intros x s0 H. rewrite length_combine, col0_length. lia.
Qed.

Lemma rampedAM_col0 (amp AMDepth AMFreq : R) (nRamp nSamples nAll : Z)
    (seg : Z -> Z -> list R) (timeAll c : list R) (s : Signal) :
  (0 <= nRamp)%Z -> (0 <= nSamples)%Z ->
  nAll = (nSamples + nRamp * 2)%Z ->
  Z.of_nat (length s) = nAll -> Z.of_nat (length c) = nAll ->
  Z.of_nat (length timeAll) = nAll ->
  (forall lo hi, seg lo hi = slice lo hi c) ->
  rampedAM setcol0 amp AMDepth AMFreq nRamp nSamples nAll (arange nRamp) timeAll seg s
  = Ok (combine
          (zipR Rmult
             (map (fun t => 1 + AMDepth * sin (2 * PI * AMFreq * t)) timeAll)
             (zipR Rmult (envelope amp nRamp nSamples) c))
          (col1 s)).
Proof.
  apply (rampedAM_value setcol0 col0 (fun x s => combine x (col1 s))).
  - exact setcol0_in.
  - exact col0_length.
  - intros x s0 H. apply col0_combine. rewrite col1_length. lia.
  - intros x y s0 H. rewrite col1_combine by (rewrite col1_length; lia). reflexivity.
  - intros x s0 H. rewrite length_combine, col1_length. lia.
Qed.

Section ModulatedTone.

Variables (level duration ramp fs maxLevel : R).

Hypothesis duration_nonneg : 0 <= duration.
Hypothesis ramp_nonneg : 0 <= ramp.
Hypothesis fs_pos : 0 < fs.

Let amp := py_pow 10 ((level - maxLevel) / 20).
Let nSamples := py_round (duration / 1000 * fs).
Let nRamp := py_round (ramp / 1000 * fs).
Let nTot := (nSamples + nRamp * 2)%Z.
Let timeAll := sdiv (arange nTot) fs.
Let n := Z.to_nat nTot.
Let E := envelope amp nRamp nSamples.

(** [AMTone] returns the column of [pureTone] times the modulator, in the
    channel asked for. *)
Lemma AMTone_value (frequency AMFreq AMDepth phase : R) (thisChan : string) :
  channel_ok thisChan = true ->
  AMTone frequency AMFreq AMDepth phase level duration ramp thisChan fs maxLevel
  = Ok (placed thisChan
          (zipR Rmult
             (map (fun t => 1 + AMDepth * sin (2 * PI * AMFreq * t)) timeAll)
             (zipR Rmult E (map (fun t => sin (2 * PI * frequency * t + phase)) timeAll)))
          n).
Proof.
  intros Hc.
  assert (HS : (0 <= nSamples)%Z) by (apply nSamples_nonneg; assumption).
  assert (HR : (0 <= nRamp)%Z) by (apply nRamp_nonneg; assumption).
  assert (LT : length timeAll = n).
  { unfold timeAll. rewrite sdiv_length, arange_length. reflexivity. }
  assert (LE : length E = n) by (apply envelope_length; assumption).
  assert (Hn : Z.of_nat n = nTot) by (unfold n, nTot; lia).
  unfold AMTone.
  fold amp nSamples nRamp nTot timeAll.
  rewrite zeros_returns by (unfold nTot; lia). cbn [bind]. fold n.
  set (car := map (fun t => sin (2 * PI * frequency * t + phase)) timeAll).
  set (M := map (fun t => 1 + AMDepth * sin (2 * PI * AMFreq * t)) timeAll).
  assert (Lcar : length car = n) by (unfold car; rewrite length_map; exact LT).
  assert (Lq : length (zipR Rmult M (zipR Rmult E car)) = n).
  { rewrite zipR_length; unfold M; rewrite length_map, ?zipR_length; congruence. }
  assert (Hseg : forall lo hi,
             map (fun t => sin (2 * PI * frequency * t + phase)) (slice lo hi timeAll)
             = slice lo hi car).
  { intros lo hi. apply slice_map. }
  rewrite LT, Hn.
  destruct (channel_ok_cases thisChan Hc) as [-> | [-> | ->]];
    unfold placed; cbn [String.eqb Ascii.eqb Bool.eqb].
  - rewrite (rampedAM_col1 amp AMDepth AMFreq nRamp nSamples nTot _ timeAll car);
      unfold nTot in *; try lia; try exact Hseg; try (rewrite repeat_length; lia).
    rewrite col0_repeat_zero. reflexivity.
  - rewrite (rampedAM_col0 amp AMDepth AMFreq nRamp nSamples nTot _ timeAll car);
      unfold nTot in *; try lia; try exact Hseg; try (rewrite repeat_length; lia).
    rewrite col1_repeat_zero. reflexivity.
  - rewrite (rampedAM_col0 amp AMDepth AMFreq nRamp nSamples nTot _ timeAll car);
      unfold nTot in *; try lia; try exact Hseg; try (rewrite repeat_length; lia).
    cbn [bind]. unfold copy0to1.
    rewrite col0_combine by (rewrite col1_repeat_zero, repeat_length; exact Lq).
    reflexivity.
Qed.

End ModulatedTone.

Lemma zipR_zeros_r (W : list R) :
  zipR Rmult W (repeat 0 (length W)) = repeat 0 (length W).
Proof. apply zipR_mult_zero_r. Qed.

Lemma unmodulated (g : R -> R) (l : list R) :
  map (fun t => 1 + 0 * g t) l = repeat 1 (length l).
Proof.
  induction l as [| t l IH]; [reflexivity |].
  cbn [map length repeat]. rewrite IH. f_equal. ring.
Qed.

(** X19.  For a valid channel, a duration and a ramp that are not negative
    and a positive sampling rate, [AMTone] returns the sound of [pureTone]
    (same frequency, phase, level, duration, ramp, channel) with both
    channels multiplied, sample k by sample k, by the modulator
    1 + AMDepth*sin(2*pi*AMFreq*k/fs); the modulator starts in sine phase
    at the first sample of the onset ramp. *)
Theorem AMTone_modulates_pureTone (frequency AMFreq AMDepth phase level duration ramp : R)
    (channel : string) (fs maxLevel : R) :
  0 <= duration -> 0 <= ramp -> 0 < fs ->
  channel_ok channel = true ->
  exists p,
    pureTone frequency phase level duration ramp channel fs maxLevel = Ok p
    /\ AMTone frequency AMFreq AMDepth phase level duration ramp channel fs maxLevel
       = Ok (combine
               (zipR Rmult
                  (map (fun t => 1 + AMDepth * sin (2 * PI * AMFreq * t))
                       (sdiv (arange (nrows p)) fs))
                  (col0 p))
               (zipR Rmult
                  (map (fun t => 1 + AMDepth * sin (2 * PI * AMFreq * t))
                       (sdiv (arange (nrows p)) fs))
                  (col1 p))).
Proof.
  intros Hd Hr Hf Hc.
  pose proof (nSamples_nonneg duration fs Hd Hf) as HS.
  pose proof (nRamp_nonneg ramp fs Hr Hf) as HR.
  rewrite (pureTone_value level duration ramp fs maxLevel Hd Hr Hf frequency phase
             channel Hc).
  rewrite (AMTone_value level duration ramp fs maxLevel Hd Hr Hf frequency AMFreq
             AMDepth phase channel Hc).
  set (nTot := (py_round (duration / 1000 * fs) + py_round (ramp / 1000 * fs) * 2)%Z).
  set (q := zipR Rmult _ (map (fun t => sin (2 * PI * frequency * t + phase)) _)).
  assert (Lq : length q = Z.to_nat nTot).
  { apply tone_column_length; assumption. }
  eexists. split; [reflexivity |].
  unfold nrows. rewrite placed_length by exact Lq.
  rewrite Z2Nat.id by (unfold nTot; lia).
  set (M := map (fun t => 1 + AMDepth * sin (2 * PI * AMFreq * t)) (sdiv (arange nTot) fs)).
  assert (LM : length M = Z.to_nat nTot).
  { unfold M. rewrite length_map, sdiv_length, arange_length. reflexivity. }
  f_equal.
  destruct (channel_ok_cases channel Hc) as [-> | [-> | ->]];
    unfold placed; cbn [String.eqb Ascii.eqb Bool.eqb];
    rewrite col0_combine, col1_combine by (rewrite ?repeat_length; congruence);
    rewrite <- ?LM, ?zipR_zeros_r; reflexivity.
Qed.

Lemma AMTone_modulates_pureTone_witness :
  exists p,
    pureTone 1000 0 65 180 10 "Both" 48000 100 = Ok p
    /\ AMTone 1000 20 1 0 65 180 10 "Both" 48000 100
       = Ok (combine
               (zipR Rmult
                  (map (fun t => 1 + 1 * sin (2 * PI * 20 * t))
                       (sdiv (arange (nrows p)) 48000))
                  (col0 p))
               (zipR Rmult
                  (map (fun t => 1 + 1 * sin (2 * PI * 20 * t))
                       (sdiv (arange (nrows p)) 48000))
                  (col1 p))).
Proof.
  apply (AMTone_modulates_pureTone 1000 20 1 0 65 180 10 "Both" 48000 100);
    try lra; reflexivity.
Defined.

(** X20.  With a modulation depth of 0 and a valid channel, [AMTone]
    returns the sound of [pureTone], whatever the modulation frequency. *)
Theorem AMTone_depth_zero (frequency AMFreq phase level duration ramp : R)
    (channel : string) (fs maxLevel : R) :
  0 <= duration -> 0 <= ramp -> 0 < fs ->
  channel_ok channel = true ->
  AMTone frequency AMFreq 0 phase level duration ramp channel fs maxLevel
  = pureTone frequency phase level duration ramp channel fs maxLevel.
Proof.
  intros Hd Hr Hf Hc.
  pose proof (nSamples_nonneg duration fs Hd Hf) as HS.
  pose proof (nRamp_nonneg ramp fs Hr Hf) as HR.
  rewrite (pureTone_value level duration ramp fs maxLevel Hd Hr Hf frequency phase
             channel Hc).
  rewrite (AMTone_value level duration ramp fs maxLevel Hd Hr Hf frequency AMFreq
             0 phase channel Hc).
  rewrite (unmodulated (fun t => sin (2 * PI * AMFreq * t))).
  rewrite sdiv_length, arange_length.
  rewrite <- (tone_column_length (fun t => sin (2 * PI * frequency * t + phase))
                (py_pow 10 ((level - maxLevel) / 20)) fs _ _ HR HS) at 1.
  rewrite zipR_mult_comm, zipR_mult_one_r. reflexivity.
Qed.

Lemma AMTone_depth_zero_witness :
  AMTone 1000 20 0 0 65 180 10 "Right" 48000 100
  = pureTone 1000 0 65 180 10 "Right" 48000 100.
Proof.
  apply (AMTone_depth_zero 1000 20 0 65 180 10 "Right" 48000 100);
    try lra; reflexivity.
Defined.

(** ** imposeLevelGlide: the amplitude profile *)

Lemma firstn_repeat_le {A : Type} (x : A) (k n : nat) :
  (k <= n)%nat -> firstn k (repeat x n) = repeat x k.
Proof.
  intros H. replace n with (k + (n - k))%nat by lia.
  rewrite repeat_app. apply firstn_app_exact. apply repeat_length.
Qed.

Lemma skipn_repeat_le {A : Type} (x : A) (k n : nat) :
  (k <= n)%nat -> skipn k (repeat x n) = repeat x (n - k).
Proof.
  intros H. replace n with (k + (n - k))%nat at 1 by lia.
  rewrite repeat_app. apply skipn_app_exact. apply repeat_length.
Qed.

Lemma glideAmps_value (sig : Signal) (deltaL : R) (startPnt endPnt : Z) :
  deltaL <> 0 ->
  (0 <= startPnt <= endPnt)%Z -> (endPnt <= nrows sig)%Z ->
  glideAmps sig deltaL startPnt endPnt
  = Ok (glideProfile (length sig) deltaL startPnt endPnt).
Proof.
  intros Hd H1 H2. unfold nrows in H2. unfold glideAmps, glideProfile.
  pose proof (endAmp_not_one deltaL Hd) as He.
  set (e := py_pow 10 (deltaL / 20)) in *.
  set (nR := (endPnt - startPnt)%Z).
  rewrite col0_length, ones_returns. cbn [bind].
  set (ramp := map (fun t => ((1 + e) / (1 - e) + cos (PI * t / IZR nR)) / (2 / (1 - e)))
                   (arange nR)).
  assert (Lr : length ramp = Z.to_nat nR).
  { unfold ramp. rewrite length_map. apply arange_length. }
  rewrite setslice_in; [| lia | rewrite repeat_length; lia | exact Lr].
  cbn [bind].
  rewrite firstn_repeat_le, skipn_repeat_le by lia.
  set (a1 := repeat 1 (Z.to_nat startPnt) ++ ramp
             ++ repeat 1 (length sig - Z.to_nat endPnt)).
  assert (La1 : length a1 = length sig).
  { unfold a1. rewrite !length_app, !repeat_length, Lr. unfold nR. lia. }
  rewrite La1.
  assert (F1 : firstn (Z.to_nat endPnt) a1 = repeat 1 (Z.to_nat startPnt) ++ ramp).
  { unfold a1. rewrite app_assoc. apply firstn_app_exact.
    rewrite length_app, repeat_length, Lr. unfold nR. lia. }
  rewrite setslice_in;
    [| lia | lia | rewrite repeat_length; apply slice_length; lia].
  rewrite F1, skipn_all2 by lia.
  rewrite app_nil_r, <- app_assoc.
  rewrite slice_length by lia.
  do 3 f_equal.
  - unfold ramp. apply map_ext. intros t. field. exact He.
  - f_equal. lia.
Qed.

(** X21.  For a level change other than 0 and a transition that lies
    inside the sound (0 <= startPnt <= endPnt <= number of rows, the two
    points being round(time/1000*fs)), [imposeLevelGlide] multiplies the
    selected channel, sample by sample, by the profile: 1 before the
    transition, (1 + a + (1 - a)*cos(pi*k/nRamp))/2 on its k-th sample, and
    a = 10^(deltaL/20) from its end on.  For "Both" the two channels are
    multiplied; for "Right" and "Left" the other channel is zero. *)
Theorem imposeLevelGlide_profile (sig : Signal) (deltaL startTime endTime fs : R) :
  deltaL <> 0 ->
  (0 <= py_round (startTime / 1000 * fs) <= py_round (endTime / 1000 * fs))%Z ->
  (py_round (endTime / 1000 * fs) <= nrows sig)%Z ->
  imposeLevelGlide sig deltaL startTime endTime "Both" fs
  = Ok (combine
          (zipR Rmult (col0 sig)
             (glideProfile (length sig) deltaL (py_round (startTime / 1000 * fs))
                           (py_round (endTime / 1000 * fs))))
          (zipR Rmult (col1 sig)
             (glideProfile (length sig) deltaL (py_round (startTime / 1000 * fs))
                           (py_round (endTime / 1000 * fs)))))
  /\ imposeLevelGlide sig deltaL startTime endTime "Right" fs
     = Ok (combine (repeat 0 (length sig))
             (zipR Rmult (col1 sig)
                (glideProfile (length sig) deltaL (py_round (startTime / 1000 * fs))
                              (py_round (endTime / 1000 * fs)))))
  /\ imposeLevelGlide sig deltaL startTime endTime "Left" fs
     = Ok (combine
             (zipR Rmult (col0 sig)
                (glideProfile (length sig) deltaL (py_round (startTime / 1000 * fs))
                              (py_round (endTime / 1000 * fs))))
             (repeat 0 (length sig))).
Proof.
  intros Hd H1 H2.
  set (sP := py_round (startTime / 1000 * fs)) in *.
  set (eP := py_round (endTime / 1000 * fs)) in *.
  pose proof (glideAmps_value sig deltaL sP eP Hd H1 H2) as Ea.
  set (A := glideProfile (length sig) deltaL sP eP) in *.
  assert (LA : length A = length sig).
  { unfold A, glideProfile, nrows in *.
    rewrite !length_app, !repeat_length, length_map, arange_length. lia. }
  pose proof (col0_length sig) as L0. pose proof (col1_length sig) as L1.
  assert (Z0 : length (repeat (0, 0) (length sig)) = length sig) by apply repeat_length.
  rewrite !(imposeLevelGlide_unfold sig deltaL startTime endTime fs Hd).
  fold sP eP. rewrite Ea, L0, zeros_of_nat.
  cbn [bind String.eqb Ascii.eqb Bool.eqb]. unfold nrows.
  rewrite !bcast2_zip by congruence. cbn [bind].
  repeat split.
  - rewrite setcol1_all by (rewrite zipR_length; congruence). cbn [bind].
    assert (Lc : length (combine (col0 (repeat (0, 0) (length sig)))
                                 (zipR Rmult (col1 sig) A)) = length sig).
    { rewrite length_combine, col0_repeat_zero, repeat_length, zipR_length;
        [lia | congruence]. }
    rewrite setcol0_all by (rewrite Lc, zipR_length; congruence).
    rewrite col1_combine; [reflexivity |].
    rewrite col0_repeat_zero, repeat_length, zipR_length; congruence.
  - rewrite setcol1_all by (rewrite zipR_length; congruence).
    rewrite col0_repeat_zero. reflexivity.
  - rewrite setcol0_all by (rewrite zipR_length; congruence).
    rewrite col1_repeat_zero. reflexivity.
Qed.

Lemma imposeLevelGlide_profile_witness :
  imposeLevelGlide [(1, 2); (3, 4)] 10 0 1000 "Both" 2
  = Ok (combine
          (zipR Rmult (col0 [(1, 2); (3, 4)])
             (glideProfile 2 10 (py_round (0 / 1000 * 2)) (py_round (1000 / 1000 * 2))))
          (zipR Rmult (col1 [(1, 2); (3, 4)])
             (glideProfile 2 10 (py_round (0 / 1000 * 2)) (py_round (1000 / 1000 * 2)))))
  /\ imposeLevelGlide [(1, 2); (3, 4)] 10 0 1000 "Right" 2
     = Ok (combine (repeat 0 2)
             (zipR Rmult (col1 [(1, 2); (3, 4)])
                (glideProfile 2 10 (py_round (0 / 1000 * 2))
                              (py_round (1000 / 1000 * 2)))))
  /\ imposeLevelGlide [(1, 2); (3, 4)] 10 0 1000 "Left" 2
     = Ok (combine
             (zipR Rmult (col0 [(1, 2); (3, 4)])
                (glideProfile 2 10 (py_round (0 / 1000 * 2))
                              (py_round (1000 / 1000 * 2))))
             (repeat 0 2)).
Proof.
  apply (imposeLevelGlide_profile [(1, 2); (3, 4)] 10 0 1000 2); [lra | |];
    replace (0 / 1000 * 2) with (IZR 0) by lra;
    replace (1000 / 1000 * 2) with (IZR 2) by lra;
    rewrite !py_round_IZR; unfold nrows; simpl; lia.
Defined.

(** X22.  A transition of two samples or more that ends after the last
    sample of the sound is refused: the assignment of the ramp to
    ampArray[startPnt:endPnt] raises ValueError, the slice being shorter
    than the ramp, whatever the channel. *)
Theorem imposeLevelGlide_past_end (sig : Signal) (deltaL startTime endTime fs : R)
    (channel : string) :
  deltaL <> 0 ->
  (0 <= py_round (startTime / 1000 * fs))%Z ->
  (nrows sig < py_round (endTime / 1000 * fs))%Z ->
  (2 <= py_round (endTime / 1000 * fs) - py_round (startTime / 1000 * fs))%Z ->
  exists msg,
    imposeLevelGlide sig deltaL startTime endTime channel fs = Raise (ValueError msg).
Proof.
  intros Hd H0 Hn H2.
  rewrite (imposeLevelGlide_unfold sig deltaL startTime endTime fs Hd).
  set (sP := py_round (startTime / 1000 * fs)) in *.
  set (eP := py_round (endTime / 1000 * fs)) in *.
  unfold nrows in Hn. unfold glideAmps.
  rewrite col0_length, ones_returns. cbn [bind].
  remember (map _ (arange (eP - sP))) as ramp eqn:Er.
  assert (Lr : length ramp = Z.to_nat (eP - sP)).
  { subst ramp. rewrite length_map. apply arange_length. }
  clear Er.
  assert (Es : exists msg,
             setslice sP eP ramp (repeat 1 (length sig)) = Raise (ValueError msg)).
  { unfold setslice. rewrite repeat_length. unfold norm_index.
    destruct (Z.ltb_spec sP 0) as [Hneg | _]; [lia |].
    destruct (Z.ltb_spec eP 0) as [Hneg | _]; [lia |].
    rewrite (Z.min_r eP) by lia.
    destruct (Nat.eqb_spec (length ramp)
                (Z.to_nat (Z.of_nat (length sig) - Z.min sP (Z.of_nat (length sig)))))
      as [E | _]; [lia |].
    destruct ramp as [| r1 [| r2 ramp]]; cbn [length] in Lr; try lia.
    eexists. reflexivity. }
  destruct Es as [msg Es]. rewrite Es. cbn [bind]. exists msg. reflexivity.
Qed.

Lemma imposeLevelGlide_past_end_witness :
  exists msg,
    imposeLevelGlide [(1, 2); (3, 4)] 10 0 2000 "Right" 2 = Raise (ValueError msg).
Proof.
  apply (imposeLevelGlide_past_end [(1, 2); (3, 4)] 10 0 2000 2 "Right"); [lra | | |];
    replace (0 / 1000 * 2) with (IZR 0) by lra;
    replace (2000 / 1000 * 2) with (IZR 4) by lra;
    rewrite !py_round_IZR; unfold nrows; simpl; lia.
Defined.

(** ** chirp, glide and expSinFMTone *)

(** What every generator of the module returns once its carrier is known:
    the carrier under the window, in the channel asked for. *)
Lemma generator_value (amp : R) (nRamp nSamples nAll : Z) (seg : Z -> Z -> list R)
    (c : list R) (thisChan : string) :
  (0 <= nRamp)%Z -> (0 <= nSamples)%Z ->
  channel_ok thisChan = true ->
  nAll = (nSamples + nRamp * 2)%Z ->
  Z.of_nat (length c) = nAll ->
  (forall lo hi, seg lo hi = slice lo hi c) ->
  (snd <- zeros (nSamples + nRamp * 2) ;;
   if String.eqb thisChan "Right" then
     ramped setcol1 amp nRamp nSamples nAll (arange nRamp) seg snd
   else if String.eqb thisChan "Left" then
     ramped setcol0 amp nRamp nSamples nAll (arange nRamp) seg snd
   else if String.eqb thisChan "Both" then
     snd <- ramped setcol0 amp nRamp nSamples nAll (arange nRamp) seg snd ;;
     Ok (copy0to1 snd)
   else Ok snd)
  = Ok (placed thisChan (zipR Rmult (envelope amp nRamp nSamples) c)
               (Z.to_nat (nSamples + nRamp * 2))).
Proof.
  intros HR HS Hc HA Lc Hseg.
  set (n := Z.to_nat (nSamples + nRamp * 2)).
  assert (Hn : Z.of_nat n = nAll) by (unfold n; lia).
  assert (LE : length (envelope amp nRamp nSamples) = n)
    by (apply envelope_length; assumption).
  assert (Lq : length (zipR Rmult (envelope amp nRamp nSamples) c) = n).
  { rewrite zipR_length; [exact LE | lia]. }
  rewrite zeros_returns by lia. cbn [bind]. fold n.
  destruct (channel_ok_cases thisChan Hc) as [-> | [-> | ->]];
    unfold placed; cbn [String.eqb Ascii.eqb Bool.eqb].
  - rewrite (ramped_col1 amp nRamp nSamples nAll _ c); try assumption;
      try (rewrite repeat_length; lia).
    rewrite col0_repeat_zero. reflexivity.
  - rewrite (ramped_col0 amp nRamp nSamples nAll _ c); try assumption;
      try (rewrite repeat_length; lia).
    rewrite col1_repeat_zero. reflexivity.
  - rewrite (ramped_col0 amp nRamp nSamples nAll _ c); try assumption;
      try (rewrite repeat_length; lia).
    cbn [bind]. unfold copy0to1.
    rewrite col0_combine by (rewrite col1_repeat_zero, repeat_length; exact Lq).
    reflexivity.
Qed.

Lemma chirp_value (freqStart : R) (ftype : string) (rate level duration phase ramp : R)
    (channel : string) (fs maxLevel : R) (f : R -> R) :
  0 <= duration -> 0 <= ramp -> 0 < fs ->
  channel_ok channel = true ->
  chirpPhase ftype freqStart rate phase = Some f ->
  chirp freqStart ftype rate level duration phase ramp channel fs maxLevel
  = Ok (placed channel
          (zipR Rmult
             (envelope (py_pow 10 ((level - maxLevel) / 20))
                       (py_round (ramp / 1000 * fs)) (py_round (duration / 1000 * fs)))
             (map (fun t => sin (2 * PI * f t))
                  (sdiv (arange (py_round (duration / 1000 * fs)
                                 + py_round (ramp / 1000 * fs) * 2)) fs)))
          (Z.to_nat (py_round (duration / 1000 * fs)
                     + py_round (ramp / 1000 * fs) * 2))).
Proof.
  intros Hd Hr Hf Hc Hp.
  pose proof (nSamples_nonneg duration fs Hd Hf) as HS.
  pose proof (nRamp_nonneg ramp fs Hr Hf) as HR.
  unfold chirp. rewrite Hp. cbn [option_map].
  set (nS := py_round (duration / 1000 * fs)) in *.
  set (nR := py_round (ramp / 1000 * fs)) in *.
  set (timeAll := sdiv (arange (nS + nR * 2)) fs).
  assert (LT : Z.of_nat (length timeAll) = (nS + nR * 2)%Z).
  { unfold timeAll. rewrite sdiv_length, arange_length. lia. }
  rewrite (generator_value _ nR nS _ _
             (map (fun x => sin (2 * PI * x)) (map f timeAll)) channel HR HS Hc LT).
  - rewrite map_map. reflexivity.
  - rewrite !length_map. reflexivity.
  - intros lo hi. apply slice_map.
Qed.

(** X23.  A linear chirp with a rate of 0 is a pure tone whose starting
    phase is 2*pi*phase: the argument [phase] of [chirp] is added to the
    number of cycles, inside the factor 2*pi, so that it counts in cycles
    and not in radians as in [pureTone]. *)
Theorem chirp_linear_no_rate (freqStart level duration phase ramp : R)
    (channel : string) (fs maxLevel : R) :
  0 <= duration -> 0 <= ramp -> 0 < fs ->
  channel_ok channel = true ->
  chirp freqStart "linear" 0 level duration phase ramp channel fs maxLevel
  = pureTone freqStart (2 * PI * phase) level duration ramp channel fs maxLevel.
Proof.
  intros Hd Hr Hf Hc.
  rewrite (chirp_value freqStart "linear" 0 level duration phase ramp channel fs maxLevel
             (fun t => freqStart * t + (0 / 2) * (t * t) + phase) Hd Hr Hf Hc eq_refl).
  rewrite (pureTone_value level duration ramp fs maxLevel Hd Hr Hf freqStart
             (2 * PI * phase) channel Hc).
  do 3 f_equal. apply map_ext. intros t. f_equal. field.
Qed.

Lemma chirp_linear_no_rate_witness :
  chirp 440 "linear" 0 55 980 0 10 "Both" 48000 100
  = pureTone 440 (2 * PI * 0) 55 980 10 "Both" 48000 100.
Proof.
  apply (chirp_linear_no_rate 440 55 980 0 10 "Both" 48000 100);
    try lra; reflexivity.
Defined.

(** X24.  [chirp] checks neither of its two strings.  With an [ftype]
    other than "exponential" and "linear" and a valid channel, it raises
    the NameError of the unbound name [frequency]; with a channel other
    than "Right", "Left" and "Both" it returns silence, whatever [ftype]. *)
Theorem chirp_unchecked_arguments (freqStart : R) (ftype : string)
    (rate level duration phase ramp : R) (channel other : string) (fs maxLevel : R) :
  0 <= duration -> 0 <= ramp -> 0 < fs ->
  chirpPhase ftype freqStart rate phase = None ->
  channel_ok channel = true ->
  channel_ok other = false ->
  chirp freqStart ftype rate level duration phase ramp channel fs maxLevel
  = Raise (NameError "frequency")
  /\ forall anyType,
       chirp freqStart anyType rate level duration phase ramp other fs maxLevel
       = Ok (repeat (0, 0) (Z.to_nat (py_round (duration / 1000 * fs)
                                      + py_round (ramp / 1000 * fs) * 2))).
Proof.
  intros Hd Hr Hf Hp Hc Ho.
  pose proof (nSamples_nonneg duration fs Hd Hf) as HS.
  pose proof (nRamp_nonneg ramp fs Hr Hf) as HR.
  split.
  - unfold chirp. rewrite Hp. cbn [option_map].
    rewrite zeros_returns by lia. cbn [bind].
    destruct (channel_ok_cases channel Hc) as [-> | [-> | ->]]; reflexivity.
  - intros anyType. unfold chirp. rewrite zeros_returns by lia. cbn [bind].
    unfold channel_ok in Ho. cbn [existsb] in Ho.
    rewrite !orb_false_iff in Ho. destruct Ho as (-> & -> & -> & _).
    reflexivity.
Qed.

Lemma chirp_unchecked_arguments_witness :
  chirp 440 "quadratic" 500 55 980 0 10 "Both" 48000 100
  = Raise (NameError "frequency")
  /\ forall anyType,
       chirp 440 anyType 500 55 980 0 10 "Centre" 48000 100
       = Ok (repeat (0, 0) (Z.to_nat (py_round (980 / 1000 * 48000)
                                      + py_round (10 / 1000 * 48000) * 2))).
Proof.
  apply (chirp_unchecked_arguments 440 "quadratic" 500 55 980 0 10 "Both" "Centre"
           48000 100); try lra; reflexivity.
Defined.

(** *** The frequency of a chirp

    The samples of [chirp] are sin(2*pi*frequency) with [frequency] counted
    in cycles, so that the frequency of the sound at time t, in hertz, is
    the derivative of [frequency] at t. *)

Lemma derivable_pt_lim_ext (f g : R -> R) (x l : R) :
  (forall t, f t = g t) -> derivable_pt_lim f x l -> derivable_pt_lim g x l.
Proof.
  intros E H eps Heps. destruct (H eps Heps) as [delta Hd].
  exists delta. intros h Hh Hlt. rewrite <- !E. apply Hd; assumption.
Qed.

Lemma derivable_pt_lim_affine (f : R -> R) (a b x l : R) :
  derivable_pt_lim f x l -> derivable_pt_lim (fun t => a * f t + b) x (a * l).
Proof.
  intros H eps Heps.
  assert (Ha : 0 < Rabs a + 1) by (pose proof (Rabs_pos a); lra).
  destruct (H (eps / (Rabs a + 1))) as [delta Hd].
  { apply Rdiv_lt_0_compat; assumption. }
  exists delta. intros h Hh Hlt.
  replace ((a * f (x + h) + b - (a * f x + b)) / h - a * l)
    with (a * ((f (x + h) - f x) / h - l)) by (field; exact Hh).
  rewrite Rabs_mult.
  specialize (Hd h Hh Hlt).
  apply Rle_lt_trans with (Rabs a * (eps / (Rabs a + 1))).
  - apply Rmult_le_compat_l; [apply Rabs_pos | lra].
  - apply Rlt_le_trans with ((Rabs a + 1) * (eps / (Rabs a + 1))).
    + apply Rmult_lt_compat_r; [apply Rdiv_lt_0_compat; assumption | lra].
    + right. field. lra.
Qed.

Lemma derivable_pt_lim_quadratic (a b c x : R) :
  derivable_pt_lim (fun t => a * t + b * (t * t) + c) x (a + 2 * b * x).
Proof.
  intros eps Heps.
  assert (Hb : 0 < Rabs b + 1) by (pose proof (Rabs_pos b); lra).
  assert (Hdelta : 0 < eps / (Rabs b + 1)) by (apply Rdiv_lt_0_compat; assumption).
  exists (mkposreal _ Hdelta). cbn [pos]. intros h Hh Hlt.
  replace ((a * (x + h) + b * ((x + h) * (x + h)) + c - (a * x + b * (x * x) + c)) / h
           - (a + 2 * b * x))
    with (b * h) by (field; exact Hh).
  rewrite Rabs_mult.
  apply Rle_lt_trans with (Rabs b * (eps / (Rabs b + 1))).
  - apply Rmult_le_compat_l; [apply Rabs_pos | lra].
  - apply Rlt_le_trans with ((Rabs b + 1) * (eps / (Rabs b + 1))).
    + apply Rmult_lt_compat_r; lra.
    + right. field. lra.
Qed.

Lemma derivable_pt_lim_exp_scaled (c x : R) :
  derivable_pt_lim (fun t => exp (t * c)) x (c * exp (x * c)).
Proof.
  assert (H1 : derivable_pt_lim (fun t => t * c) x c).
  { intros eps Heps. exists (mkposreal 1 Rlt_0_1). intros h Hh _.
    replace (((x + h) * c - x * c) / h - c) with 0 by (field; exact Hh).
    rewrite Rabs_R0. exact Heps. }
  pose proof (derivable_pt_lim_comp (fun t => t * c) exp x c (exp (x * c)) H1
                (derivable_pt_lim_exp (x * c))) as H.
  rewrite Rmult_comm. exact H.
Qed.

Lemma ln_two_pos : 0 < ln 2.
Proof. rewrite <- ln_1. apply ln_increasing; lra. Qed.

Lemma py_pow_two_zero : py_pow 2 0 = 1.
Proof. unfold py_pow. apply Rpower_O. lra. Qed.

Lemma chirp_exponential_base (rate : R) :
  ln (py_pow 2 (rate / 1200)) = rate / 1200 * ln 2.
Proof. unfold py_pow, Rpower. apply ln_exp. Qed.

Lemma chirpPhase_linear_derivative (freqStart rate phase t : R) :
  derivable_pt_lim (fun t => freqStart * t + (rate / 2) * (t * t) + phase) t
                   (freqStart + rate * t).
Proof.
  replace (freqStart + rate * t) with (freqStart + 2 * (rate / 2) * t) by field.
  apply derivable_pt_lim_quadratic.
Qed.

Lemma chirpPhase_exponential_derivative (freqStart rate phase t : R) :
  rate <> 0 ->
  derivable_pt_lim
    (fun t => freqStart * ((py_pow (py_pow 2 (rate / 1200)) t - 1)
                           / ln (py_pow 2 (rate / 1200)) + phase)) t
    (freqStart * py_pow 2 (rate * t / 1200)).
Proof.
  intros Hrate.
  pose proof ln_two_pos as H2.
  set (c := rate / 1200 * ln 2).
  assert (Hc : c <> 0).
  { unfold c. intros E. apply Rmult_integral in E. destruct E as [E | E]; lra. }
  apply (derivable_pt_lim_ext
           (fun t => freqStart / c * exp (t * c) + freqStart * (phase - 1 / c))).
  - intros u. rewrite chirp_exponential_base. fold c.
    unfold py_pow at 1. unfold Rpower. rewrite chirp_exponential_base. fold c.
    field. exact Hc.
  - replace (freqStart * py_pow 2 (rate * t / 1200))
      with (freqStart / c * (c * exp (t * c))).
    + apply derivable_pt_lim_affine. apply derivable_pt_lim_exp_scaled.
    + unfold py_pow, Rpower.
      replace (rate * t / 1200 * ln 2) with (t * c) by (unfold c; field).
      field. exact Hc.
Qed.

(** X25.  The frequency of a chirp.  For [ftype] "linear" the frequency of
    the sound at time t is freqStart + rate*t hertz: it changes by [rate]
    hertz each second.  For "exponential" and a rate other than 0 it is
    freqStart * 2^(rate*t/1200): it changes by [rate] cents each second.
    In both cases the chirp starts at [freqStart]. *)
Theorem chirp_frequency (freqStart rate phase : R) :
  (exists f, chirpPhase "linear" freqStart rate phase = Some f
             /\ forall t, derivable_pt_lim f t (freqStart + rate * t))
  /\ (rate <> 0 ->
      exists f, chirpPhase "exponential" freqStart rate phase = Some f
                /\ forall t, derivable_pt_lim f t (freqStart * py_pow 2 (rate * t / 1200))).
Proof.
  split.
  - eexists. split; [reflexivity |]. intros t. apply chirpPhase_linear_derivative.
  - intros Hrate. eexists. split; [reflexivity |]. intros t.
    apply chirpPhase_exponential_derivative. exact Hrate.
Qed.

Lemma chirp_frequency_witness :
  (exists f, chirpPhase "linear" 440 500 0 = Some f
             /\ forall t, derivable_pt_lim f t (440 + 500 * t))
  /\ (exists f, chirpPhase "exponential" 440 500 0 = Some f
                /\ forall t, derivable_pt_lim f t (440 * py_pow 2 (500 * t / 1200))).
Proof.
  destruct (chirp_frequency 440 500 0) as [Hlin Hexp].
  split; [exact Hlin | apply Hexp; lra].
Defined.

(** X26.  The two ends of a glide.  When duration + 2*ramp is not 0,
    [glide] is [chirp] at the rate excursion/totDur, with totDur =
    duration/1000 + ramp/1000*2 seconds.  The frequency of a linear glide
    is freqStart at time 0 and freqStart + excursion at time totDur; that of
    an exponential glide with an excursion other than 0 is freqStart at
    time 0 and freqStart * 2^(excursion/1200) at time totDur. *)
Theorem glide_end_frequencies (freqStart excursion level duration phase ramp : R)
    (ftype channel : string) (fs maxLevel : R) :
  duration / 1000 + ramp / 1000 * 2 <> 0 ->
  glide freqStart ftype excursion level duration phase ramp channel fs maxLevel
  = chirp freqStart ftype (excursion / (duration / 1000 + ramp / 1000 * 2))
          level duration phase ramp channel fs maxLevel
  /\ (exists f,
        chirpPhase "linear" freqStart
                   (excursion / (duration / 1000 + ramp / 1000 * 2)) phase = Some f
        /\ derivable_pt_lim f 0 freqStart
        /\ derivable_pt_lim f (duration / 1000 + ramp / 1000 * 2)
                            (freqStart + excursion))
  /\ (excursion <> 0 ->
      exists f,
        chirpPhase "exponential" freqStart
                   (excursion / (duration / 1000 + ramp / 1000 * 2)) phase = Some f
        /\ derivable_pt_lim f 0 freqStart
        /\ derivable_pt_lim f (duration / 1000 + ramp / 1000 * 2)
                            (freqStart * py_pow 2 (excursion / 1200))).
Proof.
  intros Ht.
  set (totDur := duration / 1000 + ramp / 1000 * 2) in *.
  split; [| split].
  - unfold glide. fold totDur.
    destruct (Req_dec_T totDur 0) as [E | _]; [contradiction | reflexivity].
  - eexists. split; [reflexivity |]. split.
    + pose proof (chirpPhase_linear_derivative freqStart (excursion / totDur) phase 0)
        as H.
      replace (freqStart + excursion / totDur * 0) with freqStart in H by ring.
      exact H.
    + pose proof (chirpPhase_linear_derivative freqStart (excursion / totDur) phase
                    totDur) as H.
      replace (freqStart + excursion / totDur * totDur) with (freqStart + excursion)
        in H by (field; exact Ht).
      exact H.
  - intros He.
    assert (Hrate : excursion / totDur <> 0).
    { intros E. apply He.
      replace excursion with (excursion / totDur * totDur) by (field; exact Ht).
      rewrite E. ring. }
    eexists. split; [reflexivity |]. split.
    + pose proof (chirpPhase_exponential_derivative freqStart (excursion / totDur)
                    phase 0 Hrate) as H.
      replace (excursion / totDur * 0 / 1200) with 0 in H by (field; exact Ht).
      rewrite py_pow_two_zero, Rmult_1_r in H. exact H.
    + pose proof (chirpPhase_exponential_derivative freqStart (excursion / totDur)
                    phase totDur Hrate) as H.
      replace (excursion / totDur * totDur / 1200) with (excursion / 1200) in H
        by (field; exact Ht).
      exact H.
Qed.

Lemma glide_end_frequencies_witness :
  glide 440 "exponential" 500 55 180 0 10 "Both" 48000 100
  = chirp 440 "exponential" (500 / (180 / 1000 + 10 / 1000 * 2))
          55 180 0 10 "Both" 48000 100
  /\ (exists f,
        chirpPhase "linear" 440 (500 / (180 / 1000 + 10 / 1000 * 2)) 0 = Some f
        /\ derivable_pt_lim f 0 440
        /\ derivable_pt_lim f (180 / 1000 + 10 / 1000 * 2) (440 + 500))
  /\ (exists f,
        chirpPhase "exponential" 440 (500 / (180 / 1000 + 10 / 1000 * 2)) 0 = Some f
        /\ derivable_pt_lim f 0 440
        /\ derivable_pt_lim f (180 / 1000 + 10 / 1000 * 2)
                            (440 * py_pow 2 (500 / 1200))).
Proof.
  destruct (glide_end_frequencies 440 500 55 180 0 10 "exponential" "Both" 48000 100)
    as (Hg & Hlin & Hexp); [lra |].
  split; [exact Hg | split; [exact Hlin | apply Hexp; lra]].
Defined.

(** *** expSinFMTone without modulation *)

Lemma cumsum_from_constant (g : nat -> R) (c acc : R) (s n : nat) :
  (forall k, g k = c) ->
  cumsum_from acc (map g (seq s n))
  = map (fun k => acc + (INR k - INR s + 1) * c) (seq s n).
Proof.
  intros Hg. revert s acc. induction n as [| n IH]; intros s acc; [reflexivity |].
  cbn [seq map cumsum_from]. rewrite IH, Hg. f_equal.
  - ring.
  - apply map_ext. intros k. rewrite S_INR. ring.
Qed.

Lemma expSinFMTone_value (fc fm deltaCents phase level duration ramp : R)
    (channel : string) (fs maxLevel : R) :
  0 <= duration -> 0 <= ramp -> 0 < fs ->
  channel_ok channel = true ->
  expSinFMTone fc fm deltaCents phase level duration ramp channel fs maxLevel
  = Ok (placed channel
          (zipR Rmult
             (envelope (py_pow 10 ((level - maxLevel) / 20))
                       (py_round (ramp / 1000 * fs)) (py_round (duration / 1000 * fs)))
             (map sin
                (sdiv (cumsum
                         (map (fun t => 2 * PI * fc
                                        * py_pow 2 ((deltaCents / 1200)
                                                    * cos (2 * PI * fm * t + phase)))
                              (sdiv (arange (py_round (duration / 1000 * fs)
                                             + py_round (ramp / 1000 * fs) * 2)) fs)))
                      fs)))
          (Z.to_nat (py_round (duration / 1000 * fs)
                     + py_round (ramp / 1000 * fs) * 2))).
Proof.
  intros Hd Hr Hf Hc.
  pose proof (nSamples_nonneg duration fs Hd Hf) as HS.
  pose proof (nRamp_nonneg ramp fs Hr Hf) as HR.
  unfold expSinFMTone.
  set (nS := py_round (duration / 1000 * fs)) in *.
  set (nR := py_round (ramp / 1000 * fs)) in *.
  set (timeAll := sdiv (arange (nS + nR * 2)) fs).
  assert (LT : Z.of_nat (length timeAll) = (nS + nR * 2)%Z).
  { unfold timeAll. rewrite sdiv_length, arange_length. lia. }
  set (ang := sdiv (cumsum _) fs).
  assert (Lcum : forall acc l, length (cumsum_from acc l) = length l).
  { intros acc l. revert acc. induction l as [| x l IH]; intros acc; [reflexivity |].
    cbn [cumsum_from length]. rewrite IH. reflexivity. }
  rewrite (generator_value _ nR nS (Z.of_nat (length timeAll)) _ (map sin ang)
             channel HR HS Hc LT).
  - reflexivity.
  - unfold ang, cumsum. rewrite length_map, sdiv_length, Lcum, length_map.
    reflexivity.
  - intros lo hi. apply slice_map.
Qed.

(** X27.  With a frequency excursion of 0 cents, [expSinFMTone] is the pure
    tone of frequency [fc] with starting phase 2*pi*fc/fs, whatever the
    modulation frequency and phase: the angle is the running sum of the
    frequency array, which counts the first sample in, so that the tone
    starts one sample into its cycle and not at phase 0. *)
Theorem expSinFMTone_no_excursion (fc fm phase level duration ramp : R)
    (channel : string) (fs maxLevel : R) :
  0 <= duration -> 0 <= ramp -> 0 < fs ->
  channel_ok channel = true ->
  expSinFMTone fc fm 0 phase level duration ramp channel fs maxLevel
  = pureTone fc (2 * PI * fc / fs) level duration ramp channel fs maxLevel.
Proof.
  intros Hd Hr Hf Hc.
  rewrite (expSinFMTone_value fc fm 0 phase level duration ramp channel fs maxLevel
             Hd Hr Hf Hc).
  rewrite (pureTone_value level duration ramp fs maxLevel Hd Hr Hf fc
             (2 * PI * fc / fs) channel Hc).
  do 3 f_equal.
  unfold cumsum, sdiv, arange. rewrite !map_map.
  rewrite (cumsum_from_constant _ (2 * PI * fc) 0 0).
  - rewrite !map_map. apply map_ext. intros k. f_equal.
    cbn [INR]. field. lra.
  - intros k. replace (0 / 1200 * cos (2 * PI * fm * (INR k / fs) + phase)) with 0
      by (field; lra).
    rewrite py_pow_two_zero. ring.
Qed.

Lemma expSinFMTone_no_excursion_witness :
  expSinFMTone 450 5 0 0 60 180 10 "Both" 48000 100
  = pureTone 450 (2 * PI * 450 / 48000) 60 180 10 "Both" 48000 100.
Proof.
  apply (expSinFMTone_no_excursion 450 5 0 60 180 10 "Both" 48000 100);
    try lra; reflexivity.
Defined.

(** ** phaseShift: a band that starts at the first point of the transform *)

Lemma fft_length (a : list R) (n : Z) : length (fft a n) = Z.to_nat n.
Proof. unfold fft. rewrite length_map. apply length_seq. Qed.

Lemma getidx_raises_index {A : Type} (x : list A) (p : Z) (e : exn) :
  getidx x p = Raise e -> exists msg, e = IndexError msg.
Proof.
  unfold getidx.
  destruct (_ && _)%bool; [destruct (nth_error _ _) |]; intros H;
    try discriminate; injection H as <-; eexists; reflexivity.
Qed.

Lemma getidx_out_of_bounds {A : Type} (x : list A) (p : Z) :
  (Z.of_nat (length x) <= p)%Z -> exists msg, getidx x p = Raise (IndexError msg).
Proof.
  intros H. unfold getidx.
  destruct (Z.ltb_spec p 0) as [Hneg | _]; [lia |].
  destruct (Z.ltb_spec p (Z.of_nat (length x))) as [Hlt | _]; [lia |].
  rewrite andb_false_r. eexists. reflexivity.
Qed.

Lemma getidxs_raises_index {A : Type} (x : list A) (pnts : list Z) (e : exn) :
  getidxs x pnts = Raise e -> exists msg, e = IndexError msg.
Proof.
  induction pnts as [| p pnts IH]; cbn [getidxs]; [discriminate |].
  destruct (getidx x p) as [v | e'] eqn:Ep; cbn [bind].
  - destruct (getidxs x pnts) as [vs | e'']; cbn [bind]; [discriminate |].
    intros H. injection H as <-. apply IH. reflexivity.
  - intros H. injection H as <-. exact (getidx_raises_index x p e' Ep).
Qed.

Lemma getidxs_length {A : Type} (x : list A) (pnts : list Z) (v : list A) :
  getidxs x pnts = Ok v -> length v = length pnts.
Proof.
  revert v. induction pnts as [| p pnts IH]; cbn [getidxs]; intros v H.
  - injection H as <-. reflexivity.
  - destruct (getidx x p) as [a |]; cbn [bind] in H; [| discriminate].
    destruct (getidxs x pnts) as [vs |]; cbn [bind] in H; [| discriminate].
    injection H as <-. cbn [length]. rewrite (IH vs eq_refl). reflexivity.
Qed.

(** Reading a list of indices of which one is past the end raises. *)
Lemma getidxs_out_of_bounds {A : Type} (x : list A) (pnts : list Z) (p : Z) :
  In p pnts -> (Z.of_nat (length x) <= p)%Z ->
  exists msg, getidxs x pnts = Raise (IndexError msg).
Proof.
  intros Hin Hp.
  destruct (getidxs x pnts) as [v | e] eqn:E.
  - exfalso. revert v E. induction pnts as [| q pnts IH]; [contradiction |].
    intros v E. cbn [getidxs] in E.
    destruct (getidx x q) as [a |] eqn:Eq; cbn [bind] in E; [| discriminate].
    destruct (getidxs x pnts) as [vs |] eqn:Es; cbn [bind] in E; [| discriminate].
    destruct Hin as [-> | Hin].
    + destruct (getidx_out_of_bounds x p Hp) as [msg Hm]. congruence.
    + exact (IH Hin vs eq_refl).
  - destruct (getidxs_raises_index x pnts e E) as [msg ->]. exists msg. reflexivity.
Qed.

Lemma replace_nth_length {A : Type} (k : nat) (v : A) (x : list A) :
  length (replace_nth k v x) = length x.
Proof.
  revert k. induction x as [| h t IH]; intros [| k]; cbn [replace_nth length];
    try reflexivity.
  rewrite IH. reflexivity.
Qed.

Lemma setidxs_outcome {A : Type} (pnts : list Z) (vals x : list A) :
  length vals = length pnts ->
  (exists x', setidxs x pnts vals = Ok x' /\ length x' = length x)
  \/ (exists msg, setidxs x pnts vals = Raise (IndexError msg)).
Proof.
  revert vals x. induction pnts as [| p pnts IH]; intros [| v vals] x L;
    cbn [length] in L; try discriminate.
  - left. exists x. split; reflexivity.
  - cbn [setidxs]. unfold setidx.
    destruct (_ && _)%bool; cbn [bind].
    + destruct (IH vals (replace_nth
                           (Z.to_nat (if (p <? 0)%Z then (p + Z.of_nat (length x))%Z else p))
                           v x)) as [(x' & E & Lx) | (msg & E)]; [lia | |].
      * left. exists x'. split; [exact E |]. rewrite Lx. apply replace_nth_length.
      * right. exists msg. exact E.
    + right. eexists. reflexivity.
Qed.

Lemma shiftColumn_from_first_point (c : list R) (fftPoints end1 nSamples : Z)
    (phase_shift : R) :
  (0 < fftPoints)%Z -> (0 <= end1)%Z ->
  exists msg,
    shiftColumn c fftPoints 0 end1 (fftPoints - 0) (fftPoints - end1) nSamples
                phase_shift = Raise (IndexError msg).
Proof.
  intros Hn He. unfold shiftColumn.
  set (x := fft c fftPoints).
  assert (Lx : Z.of_nat (length x) = fftPoints).
  { unfold x. rewrite fft_length. lia. }
  set (pnts := zrange 0 (end1 + 1)).
  destruct (getidxs x pnts) as [v | e] eqn:Ev; cbn [bind].
  2: { destruct (getidxs_raises_index x pnts e Ev) as [msg ->]. exists msg. reflexivity. }
  pose proof (getidxs_length x pnts v Ev) as Lv.
  rewrite !bcast2_zip by (rewrite !length_map; exact Lv). cbn [bind].
  set (vals := combine _ _).
  assert (Lvals : length vals = length pnts).
  { unfold vals. rewrite length_combine, !zipR_length; rewrite !length_map; lia. }
  destruct (@setidxs_outcome C pnts vals x Lvals) as [(x' & E & Lx') | (msg & E)];
    rewrite E; cbn [bind]; [| exists msg; reflexivity].
  destruct (getidxs_out_of_bounds x' (zrange (fftPoints - end1) (fftPoints - 0 + 1))
              fftPoints) as [msg Hm].
  - apply zrange_In. lia.
  - rewrite Lx'. lia.
  - rewrite Hm. exists msg. reflexivity.
Qed.

(** X28.  A frequency band whose lower edge rounds to point 0 of the
    transform (f1 = 0, or f1 below half the spacing fs/fftPoints of the
    points) cannot be shifted: the mirror of point 0 is point [fftPoints],
    one past the end of the transform, and [phaseShift] raises IndexError
    for a sound that is not empty, a valid channel and an upper edge that
    is not negative. *)
Theorem phaseShift_from_first_point_raises (sig : Signal) (f1 f2 phase_shift : R)
    (channel : string) (fs : R) :
  sig <> [] -> fs <> 0 ->
  channel_ok channel = true ->
  py_round (f1 * IZR (2 ^ Z.log2_up (nrows sig)) / fs) = 0%Z ->
  (0 <= py_round (f2 * IZR (2 ^ Z.log2_up (nrows sig)) / fs))%Z ->
  exists msg, phaseShift sig f1 f2 phase_shift channel fs = Raise (IndexError msg).
Proof.
  intros Hs Hf Hc H1 H2. unfold nrows in *.
  assert (Hn : (0 < Z.of_nat (length sig))%Z).
  { destruct sig; [contradiction | cbn [length]; lia]. }
  unfold phaseShift, nextpow2. rewrite col0_length.
  destruct (Z.eqb_spec (Z.of_nat (length sig)) 0) as [E | _]; [lia |].
  destruct (Z.ltb_spec (Z.of_nat (length sig)) 0) as [E | _]; [lia |].
  cbn [bind].
  destruct (Req_dec_T fs 0) as [E | _]; [contradiction |].
  rewrite H1, zeros_returns by lia. cbn [bind].
  set (fftPoints := (2 ^ Z.log2_up (Z.of_nat (length sig)))%Z) in *.
  assert (Hp : (0 < fftPoints)%Z).
  { unfold fftPoints. apply Z.pow_pos_nonneg; [lia | apply Z.log2_up_nonneg]. }
  destruct (shiftColumn_from_first_point (col0 sig) fftPoints _
              (Z.of_nat (length sig)) phase_shift Hp H2) as [m0 E0].
  destruct (shiftColumn_from_first_point (col1 sig) fftPoints _
              (Z.of_nat (length sig)) phase_shift Hp H2) as [m1 E1].
  destruct (channel_ok_cases channel Hc) as [-> | [-> | ->]];
    cbn [String.eqb Ascii.eqb Bool.eqb].
  - rewrite E1. exists m1. reflexivity.
  - rewrite E0. exists m0. reflexivity.
  - rewrite E0. exists m0. reflexivity.
Qed.

Lemma phaseShift_from_first_point_raises_witness :
  exists msg, phaseShift [(1, 2); (3, 4)] 0 1 PI "Left" 2 = Raise (IndexError msg).
Proof.
  apply (phaseShift_from_first_point_raises [(1, 2); (3, 4)] 0 1 PI "Left" 2).
  - discriminate.
  - lra.
  - reflexivity.
  - change (Z.log2_up (nrows [(1, 2); (3, 4)]%R)) with 1%Z.
    replace (0 * IZR (2 ^ 1) / 2) with (IZR 0) by (simpl; lra).
    apply py_round_IZR.
  - change (Z.log2_up (nrows [(1, 2); (3, 4)]%R)) with 1%Z.
    replace (1 * IZR (2 ^ 1) / 2) with (IZR 1) by (simpl; lra).
    rewrite py_round_IZR. lia.
Defined.

(** ** complexTone with one harmonic *)

Lemma zipR_plus_zero_l (a : list R) : zipR Rplus (repeat 0 (length a)) a = a.
Proof.
  induction a as [| x a IH]; [reflexivity |].
  change (0 + x :: zipR Rplus (repeat 0 (length a)) a = x :: a).
  rewrite IH, Rplus_0_l. reflexivity.
Qed.

Lemma complexTone_one_harmonic (rand : Z -> R) (F0 : R) (harmPhase : string) (h : Z)
    (stretch level duration ramp : R) (channel : string) (fs maxLevel : R) :
  0 <= duration -> 0 <= ramp -> 0 < fs ->
  phase_agrees harmPhase h ->
  channel_ok channel = true ->
  complexTone rand F0 harmPhase h h stretch level duration ramp channel fs maxLevel
  = pureTone (F0 * IZR h + F0 * stretch / 100) (phaseOf rand harmPhase h h)
             level duration ramp channel fs maxLevel.
Proof.
  intros Hd Hr Hf Hp Hc.
  pose proof (nSamples_nonneg duration fs Hd Hf) as HS.
  pose proof (nRamp_nonneg ramp fs Hr Hf) as HR.
  rewrite (pureTone_value level duration ramp fs maxLevel Hd Hr Hf _ _ channel Hc).
  unfold complexTone.
  set (nS := py_round (duration / 1000 * fs)) in *.
  set (nR := py_round (ramp / 1000 * fs)) in *.
  set (timeAll := sdiv (arange (nS + nR * 2)) fs).
  set (n := Z.to_nat (nS + nR * 2)).
  assert (LT : length timeAll = n).
  { unfold timeAll. rewrite sdiv_length, arange_length. reflexivity. }
  rewrite zeros_returns by lia. unfold zeros1.
  destruct (Z.ltb_spec (nS + nR * 2) 0) as [Hneg | _]; [lia |].
  cbn [bind]. fold n. rewrite zrange_one. cbn [fold_left].
  assert (Hsingle : (chan_single channel || chan_odd channel)%bool = true).
  { destruct (channel_ok_cases channel Hc) as [-> | [-> | ->]]; reflexivity. }
  rewrite harmStep_agrees; try assumption.
  2: { unfold tones_wf. cbn [tone toneOdd toneEven]. rewrite repeat_length. auto. }
  cbn [bind].
  set (car := carrierOf rand harmPhase F0 (F0 * stretch / 100) h timeAll h).
  assert (Lcar : length car = n) by (unfold car, carrierOf; rewrite length_map; exact LT).
  assert (Est : stepTones channel h car (mkTones (repeat 0 n) (repeat 0 n) (repeat 0 n))
                = mkTones car (repeat 0 n) (repeat 0 n)).
  { unfold stepTones.
    replace (chan_single channel) with true
      by (destruct (channel_ok_cases channel Hc) as [-> | [-> | ->]]; reflexivity).
    cbn [tone toneOdd toneEven]. rewrite <- Lcar at 1. rewrite zipR_plus_zero_l.
    reflexivity. }
  rewrite Est.
  transitivity (Ok (colsOf channel
                      (envelope (py_pow 10 ((level - maxLevel) / 20)) nR nS)
                      (mkTones car (repeat 0 n) (repeat 0 n)) n)).
  - apply (complexTone_tail level duration ramp fs maxLevel Hd Hr Hf channel _ Hsingle).
    unfold tones_wf. cbn [tone toneOdd toneEven]. fold nS nR n.
    rewrite repeat_length. auto.
  - f_equal.
    destruct (channel_ok_cases channel Hc) as [-> | [-> | ->]]; reflexivity.
Qed.

(** X29.  A complex tone of one harmonic is a pure tone: for a valid
    channel, [complexTone] with lowHarm = highHarm = h returns the sound of
    [pureTone] at the frequency F0*h + F0*stretch/100, with starting phase
    0 for "Sine" and pi/2 for "Cosine". *)
Theorem complexTone_single_harmonic (rand : Z -> R) (F0 : R) (h : Z)
    (stretch level duration ramp : R) (channel : string) (fs maxLevel : R) :
  0 <= duration -> 0 <= ramp -> 0 < fs ->
  channel_ok channel = true ->
  complexTone rand F0 "Sine" h h stretch level duration ramp channel fs maxLevel
  = pureTone (F0 * IZR h + F0 * stretch / 100) 0 level duration ramp channel fs maxLevel
  /\ complexTone rand F0 "Cosine" h h stretch level duration ramp channel fs maxLevel
     = pureTone (F0 * IZR h + F0 * stretch / 100) (PI / 2) level duration ramp channel
                fs maxLevel.
Proof.
  intros Hd Hr Hf Hc. split.
  - apply (complexTone_one_harmonic rand F0 "Sine" h stretch level duration ramp channel
             fs maxLevel Hd Hr Hf); [left; reflexivity | exact Hc].
  - apply (complexTone_one_harmonic rand F0 "Cosine" h stretch level duration ramp
             channel fs maxLevel Hd Hr Hf); [right; left; reflexivity | exact Hc].
Qed.

Lemma complexTone_single_harmonic_witness :
  complexTone (fun _ => 0) 440 "Sine" 3 3 0 65 180 10 "Both" 48000 100
  = pureTone (440 * IZR 3 + 440 * 0 / 100) 0 65 180 10 "Both" 48000 100
  /\ complexTone (fun _ => 0) 440 "Cosine" 3 3 0 65 180 10 "Both" 48000 100
     = pureTone (440 * IZR 3 + 440 * 0 / 100) (PI / 2) 65 180 10 "Both" 48000 100.
Proof.
  apply (complexTone_single_harmonic (fun _ => 0) 440 3 0 65 180 10 "Both" 48000 100);
    try lra; reflexivity.
Defined.

(** ** complexTone and complexToneParallel on a channel they do not know *)

Lemma harmStep_unknown_channel (rand : Z -> R) (harmPhase channel : string)
    (F0 stretchHz : R) (highHarm : Z) (timeAll : list R) (l : list Z) (st : tones) :
  phase_agrees harmPhase highHarm ->
  chan_single channel = false -> chan_odd channel = false ->
  fold_left (harmStep rand harmPhase channel F0 stretchHz highHarm timeAll) l (Ok st)
  = Ok st.
Proof.
  intros Hp Es Eo. induction l as [| i l IH]; [reflexivity |].
  cbn [fold_left]. unfold harmStep at 2. cbn [bind].
  rewrite partialOf_agrees by exact Hp. cbn [bind]. rewrite Es, Eo. exact IH.
Qed.

Lemma submitStep_raised (rand : Z -> R) (harmPhase channel : string)
    (F0 stretchHz level duration ramp fs maxLevel : R) (highHarm : Z)
    (l : list Z) (e : exn) :
  fold_left (submitStep rand harmPhase channel F0 stretchHz level duration ramp
               fs maxLevel highHarm) l (Raise e)
  = Raise e.
Proof.
  induction l as [| i l IH]; [reflexivity |]. cbn [fold_left]. exact IH.
Qed.

(** X30.  On a channel outside the five selectors the two versions part:
    [complexTone] checks nothing and returns silence, while
    [complexToneParallel], with at least one harmonic to make, raises the
    NameError of the name [thisChan], which no branch has bound. *)
Theorem complexTone_unknown_channel (rand : Z -> R) (F0 : R) (harmPhase : string)
    (lowHarm highHarm : Z) (stretch level duration ramp : R) (channel : string)
    (fs maxLevel : R) :
  0 <= duration -> 0 <= ramp -> 0 < fs ->
  phase_agrees harmPhase highHarm ->
  (chan_single channel || chan_odd channel)%bool = false ->
  (lowHarm <= highHarm)%Z ->
  complexTone rand F0 harmPhase lowHarm highHarm stretch level duration ramp
              channel fs maxLevel
  = Ok (repeat (0, 0) (Z.to_nat (py_round (duration / 1000 * fs)
                                 + py_round (ramp / 1000 * fs) * 2)))
  /\ complexToneParallel rand F0 harmPhase lowHarm highHarm stretch level duration
                         ramp channel fs maxLevel
     = Raise (NameError "thisChan").
Proof.
  intros Hd Hr Hf Hp Hc Hh.
  pose proof (nSamples_nonneg duration fs Hd Hf) as HS.
  pose proof (nRamp_nonneg ramp fs Hr Hf) as HR.
  apply orb_false_iff in Hc. destruct Hc as [Es Eo].
  split.
  - unfold complexTone. rewrite zeros_returns by lia. unfold zeros1.
    destruct (Z.ltb_spec (py_round (duration / 1000 * fs)
                          + py_round (ramp / 1000 * fs) * 2) 0) as [Hneg | _]; [lia |].
    cbn [bind]. rewrite harmStep_unknown_channel by assumption. cbn [bind].
    unfold chan_single, chan_odd in Es, Eo.
    apply orb_false_iff in Es. destruct Es as [Es ->].
    apply orb_false_iff in Es. destruct Es as [-> ->].
    apply orb_false_iff in Eo. destruct Eo as [-> ->]. reflexivity.
  - unfold complexToneParallel. rewrite zeros_returns by lia. cbn [bind].
    unfold zrange.
    destruct (Z.to_nat (highHarm + 1 - lowHarm)) as [| k] eqn:Ek; [lia |].
    cbn [seq map fold_left]. unfold submitStep at 2. cbn [bind].
    rewrite thisPhaseOf_agrees by exact Hp. cbn [bind].
    unfold thisChanOf. rewrite Es, Eo.
    rewrite submitStep_raised. reflexivity.
Qed.

Lemma complexTone_unknown_channel_witness :
  complexTone (fun _ => 0) 440 "Sine" 1 10 0 55 180 10 "Centre" 48000 100
  = Ok (repeat (0, 0) (Z.to_nat (py_round (180 / 1000 * 48000)
                                 + py_round (10 / 1000 * 48000) * 2)))
  /\ complexToneParallel (fun _ => 0) 440 "Sine" 1 10 0 55 180 10 "Centre" 48000 100
     = Raise (NameError "thisChan").
Proof.
  apply (complexTone_unknown_channel (fun _ => 0) 440 "Sine" 1 10 0 55 180 10 "Centre"
           48000 100); try lra; try lia; try reflexivity.
  left. reflexivity.
Defined.
